(** * Consensus core of dex: chain, notary and random beacon

    A shallow embedding of [pkg/consensus/chain.go], of the notary
    ([Notarize], [notarize]) and of the round information of the random
    beacon ([RoundInfo]).  Go structs are records, Go maps are [gmap]s,
    slices are lists, [int] values are [Z] (slice lengths never come near
    the 64-bit bound, so no wrap-around is involved), a returned [error]
    is an [option error], and a Go [panic] is the [Panic] outcome.  Every
    operation of the chain and of the round information holds the lock of
    its receiver from start to end, so each is one function from state to
    state; a goroutine started for the driving node is a [signal] in the
    result, and what is printed or logged is left out. *)

From Stdlib Require Import ZArith.
From Stdlib.Strings Require Import String Byte.
From stdpp Require Import base option list gmap.

Open Scope Z_scope.

(** ** What the code takes from other packages *)

Definition bytes := list byte.

(** Types and functions the three source files use but do not declare
    (hashing, encoding, BLS signatures, the state machine, the randomness
    of the beacon). *)
Class Env := {
  (* fixed-size digests *)
  Hash : Type;
  Hash_eq_dec :: EqDecision Hash;
  Hash_countable :: Countable Hash;
  Addr : Type;
  Addr_eq_dec :: EqDecision Addr;
  (* the zero value of [Addr], what a struct literal leaves a field at *)
  zeroAddr : Addr;
  float64 : Type;
  SysTxn : Type;
  State : Type;
  SysState : Type;
  TxnPool : Type;
  Rand : Type;
  RandomBeacon : Type;
  (* bls.Sign and bls.PublicKey *)
  Sign : Type;
  PublicKey : Type;
  Group : Type;
  Group_PK : Group -> PublicKey;
  Sign_Verify : Sign -> PublicKey -> bytes -> bool;
  Sign_Serialize : Sign -> bytes;
  SK_Sign : bytes -> bytes -> bytes;
  Hash_bytes : Hash -> bytes;        (* h[:] *)
  hash : bytes -> Hash;
  Rand_Derive : Rand -> bytes -> Rand;
  Rand_Mod : Rand -> Z -> Z;
  State_CommitTxns : State -> bytes -> TxnPool -> Z -> option State;
  State_Hash : State -> Hash;
  RandomBeacon_groups : RandomBeacon -> list Group;
  RandomBeacon_Round : RandomBeacon -> Z;
  groupThreshold : Z
}.

Inductive outcome (A : Type) : Type :=
| Ret (a : A)
| Panic (msg : string).
Arguments Ret {A} a.
Arguments Panic {A} msg.

Section Consensus.
Context {E : Env}.

(** ** Messages *)

Record BlockProposal := mkBlockProposal {
  bp_Owner : Addr;
  bp_Round : Z;
  bp_PrevBlock : Hash;
  bp_Txns : bytes;
  bp_SysTxns : list SysTxn
}.

Record NtShare := mkNtShare {
  nts_Round : Z;
  nts_BP : Hash;
  nts_StateRoot : Hash;
  nts_SigShare : bytes;
  nts_Owner : Addr;
  nts_Sig : bytes
}.

Record Block := mkBlock {
  blk_Owner : Addr;
  blk_Round : Z;
  blk_StateRoot : Hash;
  blk_BlockProposal : Hash;
  blk_PrevBlock : Hash;
  blk_SysTxns : list SysTxn;
  blk_NotarizationSig : bytes
}.

(** Modelled from the spec: the declarations of [RandBeaconSigShare] and
    [RandBeaconSig] are not among the source files.  [Round] and
    [LastRandVal] (and [Sig] of the aggregate) are the fields the code
    reads; the owner and the share of the partial signature follow the
    spec's "analogous partial/aggregate signatures" to [NtShare]. *)
Record RandBeaconSigShare := mkRandBeaconSigShare {
  rbss_Owner : Addr;
  rbss_Round : Z;
  rbss_LastRandVal : Hash;
  rbss_Share : bytes;
  rbss_OwnerSig : bytes
}.

Record RandBeaconSig := mkRandBeaconSig {
  rbs_Round : Z;
  rbs_LastRandVal : Hash;
  rbs_Sig : bytes
}.

(** Hashing, encoding and signature recovery of the messages. *)
Class MsgOps := {
  BP_Hash : BlockProposal -> Hash;
  BP_Encode : BlockProposal -> bool -> bytes;
  Block_Hash : Block -> Hash;
  Block_Encode : Block -> bool -> bytes;
  NtShare_Hash : NtShare -> Hash;
  NtShare_Encode : NtShare -> bool -> bytes;
  (* [None] is the error return *)
  recoverNtSig : list NtShare -> option Sign;
  recoverRandBeaconSig : list RandBeaconSigShare -> Sign;
  RandBeaconSig_Encode : RandBeaconSig -> bool -> bytes
}.
Context {M : MsgOps}.

(** ** The chain *)

Inductive error : Type :=
| errChainDataAlreadyExists
| errNew (msg : string)
| errParentNotFound (prevBlock : Hash) (round : Z)
| errUnexpectedShareRound (got expected : Z)
| errUnexpectedSigRound (got expected : Z).

Record finalized := mkFinalized {
  fin_Block : Hash;
  fin_BP : Hash
}.

Record unNotarized := mkUnNotarized {
  un_BP : Hash;
  un_Weight : float64
}.

#[local] Unset Elimination Schemes.
Inductive notarized : Type := mkNotarized {
  nt_Block : Hash;
  nt_Weight : float64;
  NtChildren : list notarized;
  NonNtChildren : list unNotarized;
  nt_BP : Hash;
  nt_State : option State;
  nt_SysState : option SysState
}.
#[local] Set Elimination Schemes.

(** Induction over the fork tree, the notarized children included. *)
Fixpoint notarized_ind (P : notarized -> Prop)
    (step : forall b w ch nn bp st ss,
        Forall P ch -> P (mkNotarized b w ch nn bp st ss))
    (n : notarized) : P n :=
  match n with
  | mkNotarized b w ch nn bp st ss =>
    step b w ch nn bp st ss
      ((fix all (l : list notarized) : Forall P l :=
          match l with
          | [] => @List.Forall_nil _ P
          | c :: cs => @List.Forall_cons _ P c cs (notarized_ind P step c) (all cs)
          end) ch)
  end.

Record Config := mkConfig {
  GroupThreshold : Z
}.

Record Chain := mkChain {
  cfg : Config;
  chain_RandomBeacon : RandomBeacon;
  History : list Hash;
  LastHistoryState : option State;
  LastHistorySysState : option SysState;
  Finalized : list finalized;
  LastFinalizedState : option State;
  LastFinalizedSysState : option SysState;
  Fork : list notarized;
  UnNotarizedNotOnFork : list unNotarized;
  hashToBlock : gmap Hash Block;
  hashToBP : gmap Hash BlockProposal;
  hashToNtShare : gmap Hash NtShare;
  bpToNtShares : gmap Hash (list NtShare);
  bpNeedNotarize : gmap Hash bool
}.

(** Goroutines started for the driving node. *)
Inductive signal : Type :=
| RecvBlockProposal (bp : BlockProposal)
| StartRound (round : Z).

Definition len {A} (l : list A) : Z := Z.of_nat (length l).

(** [maxHeight]: the loop keeps the running maximum, the recursion goes
    through the notarized children. *)
Fixpoint nodeHeight (n : notarized) : Z :=
  fold_left (fun max c => let h := nodeHeight c in
                          if max <? h then h else max) (NtChildren n) 0 + 1.

Definition maxHeight (ns : list notarized) : Z :=
  fold_left (fun max n => let h := nodeHeight n in
                          if max <? h then h else max) ns 0.

Definition round (c : Chain) : Z :=
  len (History c) + len (Finalized c) + maxHeight (Fork c).

Definition Round (c : Chain) : Z := round c.

(** [findPrevBlock]: depth first, a node before its children, the first
    match wins. *)
Fixpoint findInNode (prevBlock : Hash) (n : notarized) : option notarized :=
  if decide (nt_Block n = prevBlock) then Some n
  else (fix scan (ns : list notarized) : option notarized :=
          match ns with
          | [] => None
          | c :: cs => match findInNode prevBlock c with
                       | Some r => Some r
                       | None => scan cs
                       end
          end) (NtChildren n).

Fixpoint findPrevBlock (prevBlock : Hash) (ns : list notarized) : option notarized :=
  match ns with
  | [] => None
  | n :: ns' => match findInNode prevBlock n with
                | Some r => Some r
                | None => findPrevBlock prevBlock ns'
                end
  end.

Definition withNtChildren (n : notarized) (cs : list notarized) : notarized :=
  mkNotarized (nt_Block n) (nt_Weight n) cs (NonNtChildren n) (nt_BP n)
    (nt_State n) (nt_SysState n).

(** The write through the pointer [findPrevBlock] returned: the node it
    found is replaced by [f] of it, in place; [None] when there is no such
    node. *)
Fixpoint updateInNode (prevBlock : Hash) (f : notarized -> notarized)
    (n : notarized) : option notarized :=
  if decide (nt_Block n = prevBlock) then Some (f n)
  else match (fix scan (ns : list notarized) : option (list notarized) :=
                match ns with
                | [] => None
                | c :: cs => match updateInNode prevBlock f c with
                             | Some c' => Some (c' :: cs)
                             | None => cons c <$> scan cs
                             end
                end) (NtChildren n) with
       | Some cs' => Some (withNtChildren n cs')
       | None => None
       end.

Fixpoint updatePrevBlock (prevBlock : Hash) (f : notarized -> notarized)
    (ns : list notarized) : option (list notarized) :=
  match ns with
  | [] => None
  | n :: ns' => match updateInNode prevBlock f n with
                | Some n' => Some (n' :: ns')
                | None => cons n <$> updatePrevBlock prevBlock f ns'
                end
  end.

Definition appendNonNtChild (u : unNotarized) (n : notarized) : notarized :=
  mkNotarized (nt_Block n) (nt_Weight n) (NtChildren n)
    (NonNtChildren n ++ [u]) (nt_BP n) (nt_State n) (nt_SysState n).

Definition appendNtChild (nt : notarized) (n : notarized) : notarized :=
  mkNotarized (nt_Block n) (nt_Weight n) (NtChildren n ++ [nt])
    (NonNtChildren n) (nt_BP n) (nt_State n) (nt_SysState n).

(** The zero value of [Block]'s fields is what a struct literal leaves
    unset: [zeroAddr], the nil slices. *)
Definition validateGroupSig (c : Chain) (sig : Sign) (groupID : Z)
    (bp : BlockProposal) : outcome bool :=
  let msg := BP_Encode bp true in
  if groupID <? 0 then Panic "index out of range"
  else match RandomBeacon_groups (chain_RandomBeacon c) !! Z.to_nat groupID with
       | None => Panic "index out of range"
       | Some g => Ret (Sign_Verify sig (Group_PK g) msg)
       end.

Definition set_Fork (c : Chain) (f : list notarized) : Chain :=
  mkChain (cfg c) (chain_RandomBeacon c) (History c) (LastHistoryState c)
    (LastHistorySysState c) (Finalized c) (LastFinalizedState c)
    (LastFinalizedSysState c) f (UnNotarizedNotOnFork c) (hashToBlock c)
    (hashToBP c) (hashToNtShare c) (bpToNtShares c) (bpNeedNotarize c).

Definition set_UnNotarizedNotOnFork (c : Chain) (u : list unNotarized) : Chain :=
  mkChain (cfg c) (chain_RandomBeacon c) (History c) (LastHistoryState c)
    (LastHistorySysState c) (Finalized c) (LastFinalizedState c)
    (LastFinalizedSysState c) (Fork c) u (hashToBlock c)
    (hashToBP c) (hashToNtShare c) (bpToNtShares c) (bpNeedNotarize c).

Definition set_hashToBlock (c : Chain) (m : gmap Hash Block) : Chain :=
  mkChain (cfg c) (chain_RandomBeacon c) (History c) (LastHistoryState c)
    (LastHistorySysState c) (Finalized c) (LastFinalizedState c)
    (LastFinalizedSysState c) (Fork c) (UnNotarizedNotOnFork c) m
    (hashToBP c) (hashToNtShare c) (bpToNtShares c) (bpNeedNotarize c).

Definition set_hashToBP (c : Chain) (m : gmap Hash BlockProposal) : Chain :=
  mkChain (cfg c) (chain_RandomBeacon c) (History c) (LastHistoryState c)
    (LastHistorySysState c) (Finalized c) (LastFinalizedState c)
    (LastFinalizedSysState c) (Fork c) (UnNotarizedNotOnFork c) (hashToBlock c)
    m (hashToNtShare c) (bpToNtShares c) (bpNeedNotarize c).

Definition set_hashToNtShare (c : Chain) (m : gmap Hash NtShare) : Chain :=
  mkChain (cfg c) (chain_RandomBeacon c) (History c) (LastHistoryState c)
    (LastHistorySysState c) (Finalized c) (LastFinalizedState c)
    (LastFinalizedSysState c) (Fork c) (UnNotarizedNotOnFork c) (hashToBlock c)
    (hashToBP c) m (bpToNtShares c) (bpNeedNotarize c).

Definition set_bpToNtShares (c : Chain) (m : gmap Hash (list NtShare)) : Chain :=
  mkChain (cfg c) (chain_RandomBeacon c) (History c) (LastHistoryState c)
    (LastHistorySysState c) (Finalized c) (LastFinalizedState c)
    (LastFinalizedSysState c) (Fork c) (UnNotarizedNotOnFork c) (hashToBlock c)
    (hashToBP c) (hashToNtShare c) m (bpNeedNotarize c).

Definition set_bpNeedNotarize (c : Chain) (m : gmap Hash bool) : Chain :=
  mkChain (cfg c) (chain_RandomBeacon c) (History c) (LastHistoryState c)
    (LastHistorySysState c) (Finalized c) (LastFinalizedState c)
    (LastFinalizedSysState c) (Fork c) (UnNotarizedNotOnFork c) (hashToBlock c)
    (hashToBP c) (hashToNtShare c) (bpToNtShares c) m.

(** [c.bpNeedNotarize[h]] and [c.bpToNtShares[h]]: a missing key reads as
    the zero value. *)
Definition NeedNotarize (c : Chain) (h : Hash) : bool :=
  default false (bpNeedNotarize c !! h).

Definition ntSharesOf (c : Chain) (h : Hash) : list NtShare :=
  default [] (bpToNtShares c !! h).

(** [s[len(s)-1]], which panics on an empty slice. *)
Definition lastOf {A} (l : list A) : option A := last l.

Definition addBP (c : Chain) (bp : BlockProposal) (weight : float64)
    : Chain * list signal * outcome (option error) :=
  let h := BP_Hash bp in
  match hashToBP c !! h with
  | Some _ => (c, [], Ret (Some errChainDataAlreadyExists))
  | None =>
    let notarized := findPrevBlock (bp_PrevBlock bp) (Fork c) in
    let attach (_ : unit) :=
      let c1 := set_hashToBP c (<[h := bp]> (hashToBP c)) in
      let u := mkUnNotarized h weight in
      let c2 :=
        match notarized with
        | Some _ =>
          set_Fork c1 (default (Fork c1)
            (updatePrevBlock (bp_PrevBlock bp) (appendNonNtChild u) (Fork c1)))
        | None => set_UnNotarizedNotOnFork c1 (UnNotarizedNotOnFork c1 ++ [u])
        end in
      let c3 := set_bpNeedNotarize c2 (<[h := true]> (bpNeedNotarize c2)) in
      (c3, [RecvBlockProposal bp], Ret None) in
    match notarized with
    | Some _ => attach ()
    | None =>
      let notFound := errParentNotFound (bp_PrevBlock bp) (bp_Round bp) in
      let checkHistory (_ : unit) :=
        match lastOf (History c) with
        | None => (c, [], Panic "index out of range")
        | Some hh =>
          if decide (hh <> bp_PrevBlock bp) then (c, [], Ret (Some notFound))
          else attach ()
        end in
      if 0 <? len (Finalized c) then
        match lastOf (Finalized c) with
        | Some f =>
          if decide (fin_Block f <> bp_PrevBlock bp)
          then (c, [], Ret (Some notFound))
          else checkHistory ()
        | None => checkHistory ()
        end
      else checkHistory ()
    end
  end.

Definition addNtShare (c : Chain) (n : NtShare) (groupID : Z)
    : Chain * outcome (option Block * option error) :=
  match hashToBP c !! nts_BP n with
  | None => (c, Ret (None, Some (errNew "block proposal not found")))
  | Some bp =>
    if negb (NeedNotarize c (nts_BP n))
    then (c, Ret (None, Some (errNew "block proposal do not need notarization")))
    else if existsb (fun s => bool_decide (nts_Owner s = nts_Owner n))
                    (ntSharesOf c (nts_BP n))
    then (c, Ret (None, Some (errNew "notarization share from the owner already received")))
    else
      let shares := ntSharesOf c (nts_BP n) ++ [n] in
      let c1 := set_bpToNtShares c (<[nts_BP n := shares]> (bpToNtShares c)) in
      if GroupThreshold (cfg c1) <=? len shares then
        match recoverNtSig shares with
        | None => (c1, Panic "recoverNtSig error")
        | Some sig =>
          match validateGroupSig c1 sig groupID bp with
          | Panic msg => (c1, Panic msg)
          | Ret false => (c1, Panic "impossible: group sig not valid")
          | Ret true =>
            let b := mkBlock zeroAddr (bp_Round bp) (nts_StateRoot n) (nts_BP n)
                       (bp_PrevBlock bp) (bp_SysTxns bp) (Sign_Serialize sig) in
            let c2 := set_bpNeedNotarize c1 (delete (nts_BP n) (bpNeedNotarize c1)) in
            let c3 := set_hashToNtShare c2
                        (fold_left (fun m share => delete (NtShare_Hash share) m)
                                   shares (hashToNtShare c2)) in
            let c4 := set_bpToNtShares c3 (delete (nts_BP n) (bpToNtShares c3)) in
            (c4, Ret (Some b, None))
          end
        end
      else
        (set_hashToNtShare c1 (<[NtShare_Hash n := n]> (hashToNtShare c1)),
         Ret (None, None))
  end.

Definition addBlock (c : Chain) (b : Block) (weight : float64)
    : Chain * list signal * outcome (option error) :=
  let prevRound := round c in
  let h := Block_Hash b in
  match hashToBlock c !! h with
  | Some _ => (c, [], Ret (Some (errNew "block already exists")))
  | None =>
    match hashToBP c !! blk_BlockProposal b with
    | None => (c, [], Ret (Some (errNew "block's proposal not found")))
    | Some _ =>
      let prev := findPrevBlock (blk_PrevBlock b) (Fork c) in
      let connect (prevState : option State) (prevSysState : option SysState) :=
        let nt := mkNotarized h weight [] [] (blk_BlockProposal b)
                    prevState prevSysState in
        let c1 :=
          match prev with
          | Some _ =>
            set_Fork c (default (Fork c)
              (updatePrevBlock (blk_PrevBlock b) (appendNtChild nt) (Fork c)))
          | None => set_Fork c (Fork c ++ [nt])
          end in
        let c2 := set_hashToBlock c1 (<[h := b]> (hashToBlock c1)) in
        let c3 := set_bpNeedNotarize c2
                    (delete (blk_BlockProposal b) (bpNeedNotarize c2)) in
        let c4 := set_bpToNtShares c3
                    (delete (blk_BlockProposal b) (bpToNtShares c3)) in
        let round := round c4 in
        let sigs :=
          if (round =? prevRound + 1)
             && (round =? RandomBeacon_Round (chain_RandomBeacon c4))
          then [StartRound round] else [] in
        (c4, sigs, Ret None) in
      match prev with
      | Some p => connect (nt_State p) (nt_SysState p)
      | None =>
        if (0 <? len (Finalized c))
           && match lastOf (Finalized c) with
              | Some f => bool_decide (fin_Block f = blk_PrevBlock b)
              | None => false
              end
        then connect (LastFinalizedState c) (LastFinalizedSysState c)
        else match lastOf (History c) with
             | None => (c, [], Panic "index out of range")
             | Some hh =>
               if decide (hh = blk_PrevBlock b)
               then connect (LastHistoryState c) (LastHistorySysState c)
               else (c, [], Ret (Some (errNew "can not connect block to the chain")))
             end
      end
    end
  end.

(** [heaviestFork] follows the first notarized child down from the first
    root; it panics on an empty fork. *)
Fixpoint firstBranchTip (n : notarized) : notarized :=
  match NtChildren n with
  | [] => n
  | c :: _ => firstBranchTip c
  end.

Definition heaviestFork (c : Chain) : outcome notarized :=
  match Fork c with
  | [] => Panic "index out of range"
  | n :: _ => Ret (firstBranchTip n)
  end.

Definition Leader (c : Chain)
    : outcome (option Block * option State * option SysState) :=
  match Fork c with
  | [] =>
    if len (Finalized c) =? 0 then
      match lastOf (History c) with
      | None => Panic "index out of range"
      | Some hh => Ret (hashToBlock c !! hh, LastHistoryState c, LastHistorySysState c)
      end
    else
      match lastOf (Finalized c) with
      | None => Panic "index out of range"
      | Some f => Ret (hashToBlock c !! fin_Block f, LastFinalizedState c,
                       LastFinalizedSysState c)
      end
  | _ :: _ =>
    match heaviestFork c with
    | Panic msg => Panic msg
    | Ret n => Ret (hashToBlock c !! nt_Block n, nt_State n, nt_SysState n)
    end
  end.

(** The hash of the block [Leader] looks up: the tip the next proposal is
    meant to extend. *)
Definition leaderTip (c : Chain) : option Hash :=
  match Fork c with
  | [] => if len (Finalized c) =? 0 then lastOf (History c)
          else fin_Block <$> lastOf (Finalized c)
  | n :: _ => Some (nt_Block (firstBranchTip n))
  end.

(** [NewChain], after the genesis system transactions have been applied:
    [sysState] is the resulting system state and [rb] the random beacon
    made from the seed and its groups. *)
Definition NewChain (genesis : Block) (genesisState : option State)
    (sysState : option SysState) (rb : RandomBeacon) (cfg : Config) : Chain :=
  let gh := Block_Hash genesis in
  mkChain cfg rb [gh] genesisState sysState [] None None [] []
    {[ gh := genesis ]} ∅ ∅ ∅ ∅.

(** The three mutating operations of the chain, as one alphabet. *)
Inductive op : Type :=
| OpAddBP (bp : BlockProposal) (weight : float64)
| OpAddNtShare (n : NtShare) (groupID : Z)
| OpAddBlock (b : Block) (weight : float64).

Definition step (c : Chain) (o : op) : Chain :=
  match o with
  | OpAddBP bp w => (addBP c bp w).1.1
  | OpAddNtShare n g => (addNtShare c n g).1
  | OpAddBlock b w => (addBlock c b w).1.1
  end.

Definition run (c : Chain) (os : list op) : Chain := fold_left step os c.

(** ** The random beacon's round information *)

Record RoundInfo := mkRoundInfo {
  nextRBCmteHistory : list Z;
  nextNtCmteHistory : list Z;
  nextBPCmteHistory : list Z;
  groups : list Group;
  rbRand : Rand;
  ntRand : Rand;
  bpRand : Rand;
  curRoundShares : list RandBeaconSigShare
}.

Definition NewRoundInfo (seed : Rand) (groups : list Group) : RoundInfo :=
  let rbRand := Rand_Derive seed (list_byte_of_string "random beacon committee rand seed") in
  let bpRand := Rand_Derive seed (list_byte_of_string "block proposer committee rand seed") in
  let ntRand := Rand_Derive seed (list_byte_of_string "notarization committee rand seed") in
  mkRoundInfo [Rand_Mod rbRand (len groups)]
              [Rand_Mod ntRand (len groups)]
              [Rand_Mod bpRand (len groups)]
              groups rbRand ntRand bpRand [].

Definition randRound (r : RoundInfo) : Z := len (nextRBCmteHistory r).

Definition set_curRoundShares (r : RoundInfo) (l : list RandBeaconSigShare)
    : RoundInfo :=
  mkRoundInfo (nextRBCmteHistory r) (nextNtCmteHistory r) (nextBPCmteHistory r)
    (groups r) (rbRand r) (ntRand r) (bpRand r) l.

Definition RecvRandBeaconSigShare (r : RoundInfo) (s : RandBeaconSigShare)
    (groupID : Z) : RoundInfo * outcome (option RandBeaconSig * option error) :=
  if decide (randRound r <> rbss_Round s)
  then (r, Ret (None, Some (errUnexpectedShareRound (rbss_Round s) (randRound r))))
  else
    let r1 := set_curRoundShares r (curRoundShares r ++ [s]) in
    if groupThreshold <=? len (curRoundShares r1) then
      let sig := recoverRandBeaconSig (curRoundShares r1) in
      let rbs := mkRandBeaconSig (rbss_Round s) (rbss_LastRandVal s) [] in
      let msg := RandBeaconSig_Encode rbs false in
      if groupID <? 0 then (r1, Panic "index out of range")
      else match groups r1 !! Z.to_nat groupID with
           | None => (r1, Panic "index out of range")
           | Some g =>
             if negb (Sign_Verify sig (Group_PK g) msg)
             then (r1, Panic "impossible: random beacon group signature verification failed")
             else (r1, Ret (Some (mkRandBeaconSig (rbss_Round s) (rbss_LastRandVal s)
                                    (Sign_Serialize sig)), None))
           end
    else (r1, Ret (None, None)).

Definition deriveRand (r : RoundInfo) (h : Hash) : RoundInfo :=
  let rb := Rand_Derive (rbRand r) (Hash_bytes h) in
  let rbH := nextRBCmteHistory r ++ [Rand_Mod rb (len (groups r))] in
  let nt := Rand_Derive (ntRand r) (Hash_bytes h) in
  let ntH := nextNtCmteHistory r ++ [Rand_Mod nt (len (groups r))] in
  let bp := Rand_Derive (bpRand r) (Hash_bytes h) in
  let bpH := nextBPCmteHistory r ++ [Rand_Mod bp (len (groups r))] in
  mkRoundInfo rbH ntH bpH (groups r) rb nt bp (curRoundShares r).

Definition RecvRandBeaconSig (r : RoundInfo) (s : RandBeaconSig)
    : RoundInfo * option error :=
  if decide (randRound r <> rbs_Round s)
  then (r, Some (errUnexpectedSigRound (rbs_Round s) (randRound r)))
  else (set_curRoundShares (deriveRand r (hash (rbs_Sig s))) [], None).

(** The two operations of the beacon, as one alphabet. *)
Inductive beaconOp : Type :=
| OpSigShare (s : RandBeaconSigShare) (groupID : Z)
| OpSig (s : RandBeaconSig).

Definition beaconStep (r : RoundInfo) (o : beaconOp) : RoundInfo :=
  match o with
  | OpSigShare s g => (RecvRandBeaconSigShare r s g).1
  | OpSig s => (RecvRandBeaconSig r s).1
  end.

Definition beaconRun (r : RoundInfo) (os : list beaconOp) : RoundInfo :=
  fold_left beaconStep os r.

Definition cmteHistories (r : RoundInfo) : list Z * list Z * list Z :=
  (nextRBCmteHistory r, nextNtCmteHistory r, nextBPCmteHistory r).

(** The aggregate signatures among the operations, in order. *)
Definition sigsOf (os : list beaconOp) : list RandBeaconSig :=
  omap (fun o => match o with OpSig s => Some s | OpSigShare _ _ => None end) os.

(** All of the round information but the shares collected for the round. *)
Definition beaconCore (r : RoundInfo)
    : list Z * list Z * list Z * list Group * Rand * Rand * Rand :=
  (nextRBCmteHistory r, nextNtCmteHistory r, nextBPCmteHistory r, groups r,
   rbRand r, ntRand r, bpRand r).

(** ** The notary *)

(** What the notary reads of its chain and of its store. *)
Record NotaryChain := mkNotaryChain {
  txnPool : TxnPool;
  randomBeacon_Rank : Addr -> Z -> option Z;   (* [None] is the error return *)
  BlockState : Hash -> option State
}.

Record storage := mkStorage {
  store_Block : Hash -> option Block
}.

Record Notary := mkNotary {
  owner : Addr;
  sk : bytes;
  share : bytes;
  chain : NotaryChain;
  store : storage
}.

(** The block [notarize] signs with the group key share. *)
Definition tentativeBlock (bp : BlockProposal) (stateRoot : Hash) : Block :=
  mkBlock (bp_Owner bp) (bp_Round bp) stateRoot (BP_Hash bp) (bp_PrevBlock bp) [] [].

(** [notarize]; the duration it also returns is wall-clock time and is
    left out. *)
Definition notarize (n : Notary) (bp : BlockProposal) : outcome NtShare :=
  let bpHash := BP_Hash bp in
  match store_Block (store n) (bp_PrevBlock bp) with
  | None => Panic "should not happen: can not find pre block"
  | Some _ =>
    match BlockState (chain n) (bp_PrevBlock bp) with
    | None => Panic "should not happen: can not find the state of pre block"
    | Some state =>
      match State_CommitTxns state (bp_Txns bp) (txnPool (chain n)) (bp_Round bp) with
      | None => Panic "should not happen, record block proposal transaction error"
      | Some newState =>
        let stateRoot := State_Hash newState in
        let blk := tentativeBlock bp stateRoot in
        let sigShare := SK_Sign (share n) (Block_Encode blk false) in
        let nts := mkNtShare (bp_Round bp) bpHash stateRoot sigShare (owner n) [] in
        Ret (mkNtShare (bp_Round bp) bpHash stateRoot sigShare (owner n)
               (SK_Sign (sk n) (NtShare_Encode nts false)))
      end
    end
  end.

(** One case of a [select] of [Notarize] being taken. *)
Inductive event : Type :=
| EvBP (bp : BlockProposal)      (* bp := <-bCh *)
| EvCtxDone                      (* <-ctx.Done() *)
| EvCancelDone                   (* <-cancel.Done() *)
| EvRecvBestRank.                (* <-recvBestRankCh *)

Inductive status : Type :=
| Returned                       (* Notarize returned *)
| Waiting                        (* blocked in a select *)
| Panicked (msg : string)
| NotEnabled.                    (* the case taken was not ready *)

Record collecting := mkCollecting {
  bestRankBPs : list BlockProposal;
  bestRank : Z;
  recvBestRank : bool
}.

Definition MaxUint16 : Z := 65535.

Definition collectInit : collecting := mkCollecting [] MaxUint16 false.

(** [n.chain.randomBeacon.Rank(bp.Owner, bp.Round)] *)
Definition rankOf (n : Notary) (bp : BlockProposal) : option Z :=
  randomBeacon_Rank (chain n) (bp_Owner bp) (bp_Round bp).

(** The [bp := <-bCh] case of the collecting loop. *)
Definition collectBP (n : Notary) (st : collecting) (bp : BlockProposal)
    : collecting :=
  match randomBeacon_Rank (chain n) (bp_Owner bp) (bp_Round bp) with
  | None => st
  | Some rank =>
    let recv := if (rank =? 0) && negb (recvBestRank st) then true
                else recvBestRank st in
    if len (bestRankBPs st) =? 0 then mkCollecting [bp] rank recv
    else if rank <? bestRank st then mkCollecting [bp] rank recv
    else if rank =? bestRank st then mkCollecting (bestRankBPs st ++ [bp]) (bestRank st) recv
    else mkCollecting (bestRankBPs st) (bestRank st) recv
  end.

(** The collecting loop over proposals received one after the other. *)
Definition collectAll (n : Notary) (bps : list BlockProposal) : collecting :=
  fold_left (collectBP n) bps collectInit.

(** The least of the ranks, none being above [MaxUint16]. *)
Definition minRank (ks : list Z) : Z := foldr Z.min MaxUint16 ks.

(** Ranks are [uint16] values. *)
Definition ranked (n : Notary) (bp : BlockProposal) (k : Z) : Prop :=
  rankOf n bp = Some k /\ 0 <= k <= MaxUint16.

(** The first loop of the closure: every collected proposal is signed and
    handed to [onNotarize], in order. *)
Fixpoint signAll (n : Notary) (bps : list BlockProposal) (emitted : list NtShare)
    : list NtShare * option string :=
  match bps with
  | [] => (emitted, None)
  | bp :: bps' =>
    match notarize n bp with
    | Panic msg => (emitted, Some msg)
    | Ret s => signAll n bps' (emitted ++ [s])
    end
  end.

(** The second loop of the closure. *)
Fixpoint keepNotarizing (n : Notary) (bestRank : Z) (evs : list event)
    (emitted : list NtShare) : list NtShare * status :=
  match evs with
  | [] => (emitted, Waiting)
  | EvCancelDone :: _ => (emitted, Returned)
  | EvBP bp :: evs' =>
    match randomBeacon_Rank (chain n) (bp_Owner bp) (bp_Round bp) with
    | None => keepNotarizing n bestRank evs' emitted
    | Some rank =>
      if rank <=? bestRank then
        match notarize n bp with
        | Panic msg => (emitted, Panicked msg)
        | Ret s => keepNotarizing n rank evs' (emitted ++ [s])
        end
      else keepNotarizing n bestRank evs' emitted
    end
  | _ :: _ => (emitted, NotEnabled)
  end.

Definition notarizeClosure (n : Notary) (st : collecting) (evs : list event)
    : list NtShare * status :=
  match signAll n (bestRankBPs st) [] with
  | (emitted, Some msg) => (emitted, Panicked msg)
  | (emitted, None) => keepNotarizing n (bestRank st) evs emitted
  end.

Fixpoint collect (n : Notary) (st : collecting) (evs : list event)
    : list NtShare * status :=
  match evs with
  | [] => ([], Waiting)
  | EvRecvBestRank :: evs' =>
    if recvBestRank st then notarizeClosure n st evs' else ([], NotEnabled)
  | EvCtxDone :: evs' => notarizeClosure n st evs'
  | EvBP bp :: evs' => collect n (collectBP n st bp) evs'
  | EvCancelDone :: _ => ([], Returned)
  end.

(** [Notarize] run against the cases its selects take, giving the shares
    handed to [onNotarize] in order. *)
Definition Notarize (n : Notary) (evs : list event) : list NtShare * status :=
  collect n collectInit evs.

(** ** Positions in the fork tree *)

(** The hashes of a forest in the order [findPrevBlock] visits them, each
    with its depth; the roots are at depth [d]. *)
Fixpoint nodeDepths (d : Z) (n : notarized) : list (Hash * Z) :=
  (nt_Block n, d) :: flat_map (nodeDepths (d + 1)) (NtChildren n).

Definition forestDepths (d : Z) (ns : list notarized) : list (Hash * Z) :=
  flat_map (nodeDepths d) ns.

Definition forestBlocks (ns : list notarized) : list Hash :=
  (forestDepths 1 ns).*1.

Definition maxOf (l : list Z) : Z := foldr Z.max 0 l.

Definition isPrev (prevBlock : Hash) (p : Hash * Z) : bool :=
  bool_decide (p.1 = prevBlock).

(** The depth of the node [findPrevBlock] returns. *)
Definition depthOfPrev (prevBlock : Hash) (d : Z) (ns : list notarized)
    : option Z :=
  snd <$> List.find (isPrev prevBlock) (forestDepths d ns).

(** Appending a leaf [h] under the parent [prev] adds one position, one
    below the parent's; the positions before it and after it stay. *)
Definition leafAdded (prev h : Hash) (old new : list (Hash * Z)) : Prop :=
  exists l1 l2 k, old = l1 ++ l2 /\ new = l1 ++ (h, k + 1) :: l2
                  /\ List.find (isPrev prev) old = Some (prev, k).

(** Where [addBlock] attaches a block whose parent is [prevBlock]: under a
    fork node at depth [k >= 1], or as a new root, which is depth 0 here,
    when the parent is the tail of the finalized blocks or of the history;
    [None] when [addBlock] cannot connect it. *)
Definition tipDepth (c : Chain) (prevBlock : Hash) : option Z :=
  match depthOfPrev prevBlock 1 (Fork c) with
  | Some k => Some k
  | None =>
    if (0 <? len (Finalized c))
       && match lastOf (Finalized c) with
          | Some f => bool_decide (fin_Block f = prevBlock)
          | None => false
          end
    then Some 0
    else match lastOf (History c) with
         | Some hh => if decide (hh = prevBlock) then Some 0 else None
         | None => None
         end
  end.

(** Each block extends the one before it, the first extends [tip]. *)
Fixpoint extendsTip (tip : Hash) (bs : list Block) : Prop :=
  match bs with
  | [] => True
  | b :: bs' => blk_PrevBlock b = tip /\ extendsTip (Block_Hash b) bs'
  end.

(** The same over a run of operations: every block given to [addBlock] is
    new, has a registered proposal and extends the block given before it,
    the first one extends [tip]; proposals and shares may come in
    between. *)
Fixpoint extending (c : Chain) (tip : Hash) (os : list op) : Prop :=
  match os with
  | [] => True
  | OpAddBlock b w :: os' =>
    blk_PrevBlock b = tip /\
    hashToBlock c !! Block_Hash b = None /\
    is_Some (hashToBP c !! blk_BlockProposal b) /\
    extending (step c (OpAddBlock b w)) (Block_Hash b) os'
  | o :: os' => extending (step c o) tip os'
  end.

Definition blocksOf (os : list op) : list Block :=
  omap (fun o => match o with OpAddBlock b _ => Some b | _ => None end) os.

(** [addBlock] for each block in turn, with the results of the calls. *)
Fixpoint addBlocks (c : Chain) (bws : list (Block * float64))
    : Chain * list (outcome (option error)) :=
  match bws with
  | [] => (c, [])
  | (b, w) :: rest =>
    let '(c1, _, r) := addBlock c b w in
    let '(c2, rs) := addBlocks c1 rest in
    (c2, r :: rs)
  end.

(** [addNtShare] for each share in turn, with the results of the calls. *)
Fixpoint addNtShares (c : Chain) (ns : list NtShare) (groupID : Z)
    : Chain * list (outcome (option Block * option error)) :=
  match ns with
  | [] => (c, [])
  | n :: rest =>
    let '(c1, r) := addNtShare c n groupID in
    let '(c2, rs) := addNtShares c1 rest groupID in
    (c2, r :: rs)
  end.

(** The block [addNtShare] returns when share [n] completes the
    notarization of [bp] with the recovered signature [sig]. *)
Definition notarizedBlock (bp : BlockProposal) (n : NtShare) (sig : Sign) : Block :=
  mkBlock zeroAddr (bp_Round bp) (nts_StateRoot n) (nts_BP n)
    (bp_PrevBlock bp) (bp_SysTxns bp) (Sign_Serialize sig).

Definition ownersOf (c : Chain) (h : Hash) : list Addr :=
  nts_Owner <$> ntSharesOf c h.

(** Every block of the fork tree is indexed by its hash, and the history
    is not empty: what [NewChain] sets up and the operations keep. *)
Definition chainOK (c : Chain) : Prop :=
  History c <> [] /\
  forall h, h ∈ forestBlocks (Fork c) -> is_Some (hashToBlock c !! h).

(** ** The rest of the chain's interface *)

(** [Block], [BlockProposal] and [NtShare] return the value and whether
    the key is there: [Some] of the value, or [None]. *)
Definition Chain_Block (c : Chain) (h : Hash) : option Block :=
  hashToBlock c !! h.

Definition Chain_BlockProposal (c : Chain) (h : Hash) : option BlockProposal :=
  hashToBP c !! h.

Definition Chain_NtShare (c : Chain) (h : Hash) : option NtShare :=
  hashToNtShare c !! h.

(** [FinalizedChain]: a hash without a block in [hashToBlock] gives a nil
    entry. *)
Definition FinalizedChain (c : Chain) : list (option Block) :=
  ((fun h => hashToBlock c !! h) <$> History c)
  ++ ((fun f => hashToBlock c !! fin_Block f) <$> Finalized c).

Definition NewNotary (owner : Addr) (sk share : bytes) (chain : NotaryChain)
    (store : storage) : Notary :=
  mkNotary owner sk share chain store.

(** A run of operations in which every block given to [addBlock] is new,
    has a registered proposal and extends the block [Leader] returns at
    that moment. *)
Fixpoint extendingLeader (c : Chain) (os : list op) : Prop :=
  match os with
  | [] => True
  | OpAddBlock b w :: os' =>
    leaderTip c = Some (blk_PrevBlock b) /\
    hashToBlock c !! Block_Hash b = None /\
    is_Some (hashToBP c !! blk_BlockProposal b) /\
    extendingLeader (step c (OpAddBlock b w)) os'
  | o :: os' => extendingLeader (step c o) os'
  end.

(** What the three indexes and the bookkeeping of the shares look like in
    a chain made by [NewChain] and the operations. *)
Record chainWF (c : Chain) : Prop := mkChainWF {
  wf_history : History c <> [];
  wf_history_indexed :
    forall h, h ∈ History c -> is_Some (hashToBlock c !! h);
  wf_finalized_indexed :
    forall f, f ∈ Finalized c -> is_Some (hashToBlock c !! fin_Block f);
  wf_block_keys :
    forall h b, hashToBlock c !! h = Some b -> Block_Hash b = h;
  wf_bp_keys :
    forall h bp, hashToBP c !! h = Some bp -> BP_Hash bp = h;
  wf_share_keys :
    forall h s, hashToNtShare c !! h = Some s -> NtShare_Hash s = h;
  wf_fork_nodup : NoDup (forestBlocks (Fork c));
  wf_fork_indexed :
    forall h, h ∈ forestBlocks (Fork c) -> is_Some (hashToBlock c !! h);
  wf_need_registered :
    forall h, NeedNotarize c h = true -> is_Some (hashToBP c !! h);
  wf_shares :
    forall h l, bpToNtShares c !! h = Some l ->
      NeedNotarize c h = true /\
      NoDup (nts_Owner <$> l) /\
      Forall (fun s => nts_BP s = h) l
}.

(** Where the parent of a block or of a proposal can be: a block of the
    fork tree, the last finalized block, the last block of the history. *)
Definition parentLocated (c : Chain) (prevBlock : Hash) : Prop :=
  prevBlock ∈ forestBlocks (Fork c)
  \/ (exists f, lastOf (Finalized c) = Some f /\ fin_Block f = prevBlock)
  \/ lastOf (History c) = Some prevBlock.

(** ** More on the round information *)

(** The three histories advance together, and the shares kept are shares
    for the expected round. *)
Definition beaconOK (r : RoundInfo) : Prop :=
  len (nextNtCmteHistory r) = randRound r /\
  len (nextBPCmteHistory r) = randRound r /\
  1 <= randRound r /\
  Forall (fun s => rbss_Round s = randRound r) (curRoundShares r).

(** Signatures for the rounds [k], [k + 1], ... in this order. *)
Fixpoint consecutive (k : Z) (sigs : list RandBeaconSig) : Prop :=
  match sigs with
  | [] => True
  | s :: sigs' => rbs_Round s = k /\ consecutive (k + 1) sigs'
  end.

(** The random values derived one after the other from [rand] with the
    hashes [hs]. *)
Fixpoint derivations (rand : Rand) (hs : list Hash) : list Rand :=
  match hs with
  | [] => []
  | h :: hs' => let r := Rand_Derive rand (Hash_bytes h) in r :: derivations r hs'
  end.

Definition sigHashes (sigs : list RandBeaconSig) : list Hash :=
  (fun s => hash (rbs_Sig s)) <$> sigs.

(** [RecvRandBeaconSigShare] for each share in turn, with the results. *)
Fixpoint recvShares (r : RoundInfo) (ss : list RandBeaconSigShare) (groupID : Z)
    : RoundInfo * list (outcome (option RandBeaconSig * option error)) :=
  match ss with
  | [] => (r, [])
  | s :: rest =>
    let '(r1, o) := RecvRandBeaconSigShare r s groupID in
    let '(r2, os) := recvShares r1 rest groupID in
    (r2, o :: os)
  end.

(** ** More on the notary *)

(** The proposals received in a trace, in order. *)
Definition received (evs : list event) : list BlockProposal :=
  omap (fun e => match e with EvBP bp => Some bp | _ => None end) evs.

(** A proposal whose rank cannot be looked up. *)
Definition rankFails (n : Notary) (e : event) : bool :=
  match e with
  | EvBP bp => match rankOf n bp with None => true | Some _ => false end
  | _ => false
  end.

(** The shares for the proposals [notarize] signs without a panic. *)
Definition sharesFor (n : Notary) (bps : list BlockProposal) : list NtShare :=
  omap (fun bp => match notarize n bp with Ret s => Some s | Panic _ => None end) bps.

(** What is emitted comes from [notarize] on a proposal at hand. *)
Definition signedFrom (n : Notary) (bps : list BlockProposal) (s : NtShare) : Prop :=
  exists bp, bp ∈ bps /\ notarize n bp = Ret s.

End Consensus.

(** ** A small instance, to run the definitions on *)

Module Toy.

Definition digest (l : bytes) : N :=
  fold_left (fun acc b => (acc * 257 + Byte.to_N b + 1)%N) l 0%N.

(** Digests and addresses are numbers, a group signature is the number of
    shares it was recovered from and verifies against a group key equal to
    it. *)
#[local] Instance env : Env := {|
  Hash := N;
  Addr := N;
  zeroAddr := 0%N;
  float64 := Z;
  SysTxn := N;
  State := N;
  SysState := N;
  TxnPool := unit;
  Rand := N;
  RandomBeacon := list N;
  Sign := N;
  PublicKey := N;
  Group := N;
  Group_PK := fun g => g;
  Sign_Verify := fun sig pk _ => N.eqb sig pk;
  Sign_Serialize := fun sig => [Byte.x00];
  SK_Sign := fun k msg => k ++ msg;
  Hash_bytes := fun h => repeat Byte.x01 (N.to_nat h);
  hash := digest;
  Rand_Derive := fun r b => (r * 31 + digest b)%N;
  Rand_Mod := fun r n => Z.of_N r mod n;
  State_CommitTxns := fun s txns _ _ => Some (s + digest txns)%N;
  State_Hash := fun s => s;
  RandomBeacon_groups := fun rb => rb;
  RandomBeacon_Round := fun rb => 0;
  groupThreshold := 2
|}.

#[local] Instance msgOps : MsgOps := {|
  BP_Hash := fun bp => (2 * digest (bp_Txns bp))%N;
  BP_Encode := fun bp _ => bp_Txns bp;
  Block_Hash := fun b => (2 * blk_BlockProposal b + 1)%N;
  Block_Encode := fun b _ => blk_NotarizationSig b;
  NtShare_Hash := fun s => (nts_BP s * 1000 + nts_Owner s)%N;
  NtShare_Encode := fun s _ => nts_SigShare s;
  recoverNtSig := fun l => Some (N.of_nat (length l));
  recoverRandBeaconSig := fun l => N.of_nat (length l);
  RandBeaconSig_Encode := fun s _ => rbs_Sig s
|}.

(** Proposals and blocks are told apart by their transaction bytes. *)
Definition prop (tag : byte) (prev : N) : BlockProposal :=
  mkBlockProposal 7%N 1 prev [tag] [].

Definition blockOf (bp : BlockProposal) : Block :=
  mkBlock 0%N (bp_Round bp) 0%N (BP_Hash bp) (bp_PrevBlock bp) [] [].

Definition genesis : Block := mkBlock 0%N 0 0%N 0%N 0%N [] [].

Definition chain0 : Chain :=
  NewChain genesis (Some 0%N) (Some 0%N) [3%N] (mkConfig 3).

Definition shareOf (bp : BlockProposal) (o : N) : NtShare :=
  mkNtShare (bp_Round bp) (BP_Hash bp) 5%N [] o [].

(** The genesis chain with proposals [pA] and [pB] extending genesis. *)
Definition pA : BlockProposal := prop Byte.x01 (Block_Hash genesis).
Definition pB : BlockProposal := prop Byte.x02 (Block_Hash genesis).

Definition chain1 : Chain :=
  run chain0 [OpAddBP pA 0; OpAddBP pB 0].

(** A block for [pB] that names the block of [pA] as its parent. *)
Definition blockAB : Block :=
  mkBlock 0%N 2 0%N (BP_Hash pB) (Block_Hash (blockOf pA)) [] [].

(** A fork with two roots, the second with a child: the first branch is
    not the deepest. *)
Definition pC : BlockProposal := prop Byte.x03 (Block_Hash (blockOf pB)).
Definition pD : BlockProposal := prop Byte.x04 (Block_Hash (blockOf pA)).

Definition forked : Chain :=
  run chain1 [OpAddBlock (blockOf pA) 0; OpAddBlock (blockOf pB) 0;
              OpAddBP pC 0; OpAddBlock (blockOf pC) 0; OpAddBP pD 0].





(** Round information with one group of key 2, and a share for round 1. *)
Definition seed0 : Rand := 11%N.
Definition groups0 : list Group := [2%N].
Definition roundInfo0 : RoundInfo := NewRoundInfo seed0 groups0.

Definition beaconShare : RandBeaconSigShare :=
  mkRandBeaconSigShare 7%N 1 0%N [] [].

Definition roundInfo1 : RoundInfo :=
  (RecvRandBeaconSigShare roundInfo0 beaconShare 0).1.

(** Aggregate signatures for round 1, the expected one, and for round 5. *)
Definition beaconSig : RandBeaconSig := mkRandBeaconSig 1 0%N [Byte.x07].
Definition lateSig : RandBeaconSig := mkRandBeaconSig 5 0%N [Byte.x07].

(** A notary for which the rank of a proposal is the address of its
    owner, and which knows the genesis block and its state. *)
Definition notary : Notary :=
  mkNotary 42%N [Byte.x0a] [Byte.x0b]
    (mkNotaryChain tt
       (fun owner _ => Some (Z.of_N owner))
       (fun h => if (h =? 1)%N then Some 0%N else None))
    (mkStorage (fun h => if (h =? 1)%N then Some genesis else None)).

Definition propBy (owner : N) (tag : byte) : BlockProposal :=
  mkBlockProposal owner 1 (Block_Hash genesis) [tag] [].

End Toy.

(** * Properties *)

Section TreeFacts.
Context {E : Env}.

Lemma running_max {A} (f : A -> Z) (l : list A) (a : Z) :
  0 <= a ->
  fold_left (fun max x => let h := f x in if max <? h then h else max) l a
  = Z.max a (maxOf (map f l)).
Proof.
  revert a. induction l as [|x l IH]; intros a Ha; simpl.
  - unfold maxOf; simpl. lia.
  - unfold maxOf; simpl. fold (maxOf (map f l)).
    destruct (Z.ltb_spec a (f x)); rewrite IH by lia; lia.
Qed.

Lemma maxOf_nonneg (l : list Z) : 0 <= maxOf l.
Proof. induction l; unfold maxOf in *; simpl; lia. Qed.

Lemma maxOf_app (l1 l2 : list Z) : maxOf (l1 ++ l2) = Z.max (maxOf l1) (maxOf l2).
Proof.
  induction l1 as [|x l1 IH]; unfold maxOf in *; simpl.
  - pose proof (maxOf_nonneg l2). unfold maxOf in *. lia.
  - rewrite IH. lia.
Qed.

Lemma maxHeight_maxOf (ns : list notarized) :
  maxHeight ns = maxOf (map nodeHeight ns).
Proof.
  unfold maxHeight. rewrite running_max by lia.
  pose proof (maxOf_nonneg (map nodeHeight ns)). lia.
Qed.

Lemma nodeHeight_eq (n : notarized) : nodeHeight n = maxHeight (NtChildren n) + 1.
Proof. destruct n; reflexivity. Qed.

Lemma maxHeight_nil : maxHeight [] = 0.
Proof. reflexivity. Qed.

Lemma maxHeight_cons (n : notarized) (ns : list notarized) :
  maxHeight (n :: ns) = Z.max (nodeHeight n) (maxHeight ns).
Proof. rewrite !maxHeight_maxOf. reflexivity. Qed.

Lemma maxHeight_app (ns ms : list notarized) :
  maxHeight (ns ++ ms) = Z.max (maxHeight ns) (maxHeight ms).
Proof. rewrite !maxHeight_maxOf, map_app. apply maxOf_app. Qed.

Lemma maxHeight_nonneg (ns : list notarized) : 0 <= maxHeight ns.
Proof. rewrite maxHeight_maxOf. apply maxOf_nonneg. Qed.

Lemma nodeHeight_pos (n : notarized) : 1 <= nodeHeight n.
Proof. rewrite nodeHeight_eq. pose proof (maxHeight_nonneg (NtChildren n)). lia. Qed.

Lemma nodeDepths_eq (d : Z) (n : notarized) :
  nodeDepths d n = (nt_Block n, d) :: forestDepths (d + 1) (NtChildren n).
Proof. destruct n; reflexivity. Qed.

Lemma forestDepths_cons (d : Z) (n : notarized) (ns : list notarized) :
  forestDepths d (n :: ns) = nodeDepths d n ++ forestDepths d ns.
Proof. reflexivity. Qed.

Lemma forestDepths_app (d : Z) (ns ms : list notarized) :
  forestDepths d (ns ++ ms) = forestDepths d ns ++ forestDepths d ms.
Proof. unfold forestDepths. apply flat_map_app. Qed.

(** The greatest depth listed is the height, counted from the depth of the
    roots. *)
Lemma maxOf_nodeDepths (n : notarized) :
  forall d, 0 <= d -> maxOf (nodeDepths d n).*2 = d + nodeHeight n - 1.
Proof.
  induction n as [b w ch nn bp st ss IH] using notarized_ind.
  intros d Hd. rewrite nodeDepths_eq, nodeHeight_eq. simpl.
  assert (Hch : forall k, 0 <= k ->
            maxOf (forestDepths k ch).*2
            = if maxHeight ch =? 0 then 0 else k + maxHeight ch - 1).
  { clear -IH. induction IH as [|c cs Hc _ IHcs]; intros k Hk.
    - reflexivity.
    - rewrite forestDepths_cons, fmap_app, maxOf_app, Hc, IHcs, maxHeight_cons by lia.
      pose proof (nodeHeight_pos c). pose proof (maxHeight_nonneg cs).
      destruct (Z.eqb_spec (maxHeight cs) 0), (Z.eqb_spec (Z.max (nodeHeight c) (maxHeight cs)) 0); lia. }
  unfold maxOf; simpl. fold (maxOf (forestDepths (d + 1) ch).*2).
  rewrite Hch by lia. pose proof (maxHeight_nonneg ch).
  destruct (Z.eqb_spec (maxHeight ch) 0); lia.
Qed.

Lemma maxHeight_depths (ns : list notarized) :
  maxHeight ns = maxOf (forestDepths 1 ns).*2.
Proof.
  induction ns as [|n ns IH].
  - reflexivity.
  - rewrite forestDepths_cons, fmap_app, maxOf_app, maxOf_nodeDepths, maxHeight_cons, IH by lia.
    lia.
Qed.

Lemma findInNode_eq (prev : Hash) (n : notarized) :
  findInNode prev n
  = if decide (nt_Block n = prev) then Some n
    else findPrevBlock prev (NtChildren n).
Proof.
  destruct n as [b w ch nn bp st ss]; simpl.
  destruct (decide (b = prev)); [reflexivity|].
  induction ch as [|c cs IH]; simpl; [reflexivity|].
  destruct (findInNode prev c); [reflexivity|apply IH].
Qed.

Lemma updateInNode_eq (prev : Hash) (f : notarized -> notarized) (n : notarized) :
  updateInNode prev f n
  = if decide (nt_Block n = prev) then Some (f n)
    else withNtChildren n <$> updatePrevBlock prev f (NtChildren n).
Proof.
  destruct n as [b w ch nn bp st ss]; simpl.
  destruct (decide (b = prev)); [reflexivity|].
  match goal with |- match ?x with _ => _ end = _ <$> ?y => assert (Hxy : x = y) end.
  { induction ch as [|c cs IH]; simpl; [reflexivity|].
    destruct (updateInNode prev f c); [reflexivity|]. by rewrite IH. }
  rewrite Hxy. by destruct (updatePrevBlock prev f ch).
Qed.

Lemma depthOfPrev_eq (prev : Hash) (d : Z) (ns : list notarized) :
  depthOfPrev prev d ns = snd <$> List.find (isPrev prev) (forestDepths d ns).
Proof. reflexivity. Qed.

Lemma find_app_l {A} (p : A -> bool) (l1 l2 : list A) (x : A) :
  List.find p l1 = Some x -> List.find p (l1 ++ l2) = Some x.
Proof.
  induction l1 as [|a l1 IH]; simpl; [discriminate|].
  destruct (p a); [auto|apply IH].
Qed.

Lemma find_app_r {A} (p : A -> bool) (l1 l2 : list A) :
  List.find p l1 = None -> List.find p (l1 ++ l2) = List.find p l2.
Proof.
  induction l1 as [|a l1 IH]; simpl; [reflexivity|].
  destruct (p a); [discriminate|apply IH].
Qed.

Lemma find_isPrev_None (prev : Hash) (l : list (Hash * Z)) :
  List.find (isPrev prev) l = None <-> prev ∉ l.*1.
Proof.
  induction l as [|[h k] l IH]; simpl.
  - split; [intros _; apply not_elem_of_nil|reflexivity].
  - unfold isPrev at 1; simpl. rewrite not_elem_of_cons.
    destruct (bool_decide_reflect (h = prev)) as [->|Hne].
    + split; [discriminate|intros [? _]; congruence].
    + rewrite IH. split; [intros ?; split; [congruence|done]|intros [_ ?]; done].
Qed.

(** The three traversals agree on whether the parent is in the tree. *)
Lemma update_None_find_list (prev : Hash) (f : notarized -> notarized)
    (ns : list notarized) :
  Forall (fun n => forall d, updateInNode prev f n = None ->
                   List.find (isPrev prev) (nodeDepths d n) = None) ns ->
  forall d, updatePrevBlock prev f ns = None ->
            List.find (isPrev prev) (forestDepths d ns) = None.
Proof.
  induction 1 as [|c cs Hc _ IHcs]; intros d; simpl; [reflexivity|].
  destruct (updateInNode prev f c) eqn:Hu; simpl; [discriminate|].
  intros Hrest. fold (forestDepths d cs).
  rewrite find_app_r by (apply Hc; reflexivity). apply IHcs.
  destruct (updatePrevBlock prev f cs); [discriminate|reflexivity].
Qed.

Lemma update_None_find (prev : Hash) (f : notarized -> notarized) (n : notarized) :
  forall d, updateInNode prev f n = None ->
            List.find (isPrev prev) (nodeDepths d n) = None.
Proof.
  induction n as [b w ch nn bp st ss IH] using notarized_ind.
  intros d. rewrite updateInNode_eq, nodeDepths_eq. simpl.
  unfold isPrev at 1; simpl.
  destruct (decide (b = prev)) as [->|Hne]; [discriminate|].
  rewrite bool_decide_eq_false_2 by done.
  intros Hu. apply (update_None_find_list prev f); [exact IH|].
  destruct (updatePrevBlock prev f ch); [discriminate|reflexivity].
Qed.

Lemma updatePrevBlock_None_find (prev : Hash) (f : notarized -> notarized)
    (ns : list notarized) (d : Z) :
  updatePrevBlock prev f ns = None -> depthOfPrev prev d ns = None.
Proof.
  intros Hu. rewrite depthOfPrev_eq, (update_None_find_list prev f); [reflexivity| |exact Hu].
  apply Forall_forall. intros n _ k. apply update_None_find.
Qed.

Lemma find_update_list (prev : Hash) (f : notarized -> notarized)
    (ns : list notarized) :
  Forall (fun n => match findInNode prev n with
                   | Some p => nt_Block p = prev /\ is_Some (updateInNode prev f n)
                   | None => updateInNode prev f n = None
                   end) ns ->
  match findPrevBlock prev ns with
  | Some p => nt_Block p = prev /\ is_Some (updatePrevBlock prev f ns)
  | None => updatePrevBlock prev f ns = None
  end.
Proof.
  induction 1 as [|c cs Hc _ IHcs]; simpl; [reflexivity|].
  destruct (findInNode prev c).
  - destruct Hc as [? [c' ->]]. split; [done|eauto].
  - rewrite Hc. destruct (findPrevBlock prev cs).
    + destruct IHcs as [? [x ->]]. split; [done|]. simpl. eauto.
    + rewrite IHcs. reflexivity.
Qed.

Lemma find_update_node (prev : Hash) (f : notarized -> notarized) (n : notarized) :
  match findInNode prev n with
  | Some p => nt_Block p = prev /\ is_Some (updateInNode prev f n)
  | None => updateInNode prev f n = None
  end.
Proof.
  induction n as [b w ch nn bp st ss IH] using notarized_ind.
  rewrite findInNode_eq, updateInNode_eq. simpl.
  destruct (decide (b = prev)) as [->|Hne]; [split; [reflexivity|eauto]|].
  pose proof (find_update_list prev f ch IH) as Hl.
  destruct (findPrevBlock prev ch).
  - destruct Hl as [? [x ->]]. split; [done|]. simpl. eauto.
  - rewrite Hl. reflexivity.
Qed.

Lemma find_update (prev : Hash) (f : notarized -> notarized) (ns : list notarized) :
  match findPrevBlock prev ns with
  | Some p => nt_Block p = prev /\ is_Some (updatePrevBlock prev f ns)
  | None => updatePrevBlock prev f ns = None
  end.
Proof.
  apply find_update_list, Forall_forall. intros n _. apply find_update_node.
Qed.

(** Appending an un-notarized child changes no position. *)
Lemma update_NonNt_list (prev : Hash) (u : unNotarized) (ns : list notarized) :
  Forall (fun n => forall d n', updateInNode prev (appendNonNtChild u) n = Some n' ->
                   nodeDepths d n' = nodeDepths d n) ns ->
  forall d ns', updatePrevBlock prev (appendNonNtChild u) ns = Some ns' ->
                forestDepths d ns' = forestDepths d ns.
Proof.
  induction 1 as [|c cs Hc _ IHcs]; intros d ns'; simpl; [discriminate|].
  destruct (updateInNode prev (appendNonNtChild u) c) as [c'|] eqn:Hu.
  - intros [= <-]. rewrite !forestDepths_cons. f_equal. by apply Hc.
  - destruct (updatePrevBlock prev (appendNonNtChild u) cs) as [cs'|]; simpl; [|discriminate].
    intros [= <-]. rewrite !forestDepths_cons. f_equal. by apply IHcs.
Qed.

Lemma update_NonNt_node (prev : Hash) (u : unNotarized) (n : notarized) :
  forall d n', updateInNode prev (appendNonNtChild u) n = Some n' ->
               nodeDepths d n' = nodeDepths d n.
Proof.
  induction n as [b w ch nn bp st ss IH] using notarized_ind.
  intros d n'. rewrite updateInNode_eq. simpl.
  destruct (decide (b = prev)) as [->|Hne]; [by intros [= <-]|].
  destruct (updatePrevBlock prev (appendNonNtChild u) ch) as [cs'|] eqn:Hu; simpl; [|discriminate].
  intros [= <-]. rewrite !nodeDepths_eq. simpl. f_equal.
  by apply (update_NonNt_list prev u ch IH).
Qed.

Lemma update_NonNt (prev : Hash) (u : unNotarized) (ns ns' : list notarized) (d : Z) :
  updatePrevBlock prev (appendNonNtChild u) ns = Some ns' ->
  forestDepths d ns' = forestDepths d ns.
Proof.
  apply update_NonNt_list, Forall_forall. intros n _. apply update_NonNt_node.
Qed.

Lemma update_leaf_list (prev : Hash) (nt : notarized) (ns : list notarized) :
  Forall (fun n => forall d n', updateInNode prev (appendNtChild nt) n = Some n' ->
                   leafAdded prev (nt_Block nt) (nodeDepths d n) (nodeDepths d n')) ns ->
  forall d ns', updatePrevBlock prev (appendNtChild nt) ns = Some ns' ->
                leafAdded prev (nt_Block nt) (forestDepths d ns) (forestDepths d ns').
Proof.
  induction 1 as [|c cs Hc _ IHcs]; intros d ns'; simpl; [discriminate|].
  destruct (updateInNode prev (appendNtChild nt) c) as [c'|] eqn:Hu.
  - intros [= <-]. destruct (Hc d c' eq_refl) as (l1 & l2 & k & H1 & H2 & H3).
    exists l1, (l2 ++ forestDepths d cs), k. rewrite !forestDepths_cons, H1, H2.
    rewrite <- !app_assoc. split; [reflexivity|split; [reflexivity|]].
    rewrite app_assoc, <- H1. by apply find_app_l.
  - destruct (updatePrevBlock prev (appendNtChild nt) cs) as [cs'|] eqn:Hcs; simpl; [|discriminate].
    intros [= <-]. destruct (IHcs d cs' eq_refl) as (l1 & l2 & k & H1 & H2 & H3).
    exists (nodeDepths d c ++ l1), l2, k. rewrite !forestDepths_cons, H1, H2.
    rewrite <- !app_assoc. split; [reflexivity|split; [reflexivity|]].
    rewrite find_app_r by (eapply update_None_find, Hu). rewrite <- H1. exact H3.
Qed.

Lemma update_leaf_node (prev : Hash) (nt : notarized) (n : notarized) :
  NtChildren nt = [] ->
  forall d n', updateInNode prev (appendNtChild nt) n = Some n' ->
               leafAdded prev (nt_Block nt) (nodeDepths d n) (nodeDepths d n').
Proof.
  intros Hleaf.
  induction n as [b w ch nn bp st ss IH] using notarized_ind.
  intros d n'. rewrite updateInNode_eq. simpl.
  destruct (decide (b = prev)) as [->|Hne].
  - intros [= <-]. unfold appendNtChild; simpl.
    exists ((prev, d) :: forestDepths (d + 1) ch), [], d.
    split; [by rewrite app_nil_r|split].
    + rewrite flat_map_app; simpl. rewrite nodeDepths_eq, Hleaf; simpl.
      reflexivity.
    + unfold isPrev; simpl. by rewrite bool_decide_eq_true_2.
  - destruct (updatePrevBlock prev (appendNtChild nt) ch) as [cs'|] eqn:Hu; simpl; [|discriminate].
    intros [= <-].
    destruct (update_leaf_list prev nt ch IH (d + 1) cs' Hu) as (l1 & l2 & k & H1 & H2 & H3).
    exists ((b, d) :: l1), l2, k. rewrite !nodeDepths_eq.
    cbn [NtChildren nt_Block withNtChildren]. rewrite H2.
    fold (forestDepths (d + 1) ch).
    split; [by rewrite H1|split; [reflexivity|]]. cbn [List.find].
    unfold isPrev at 1; simpl. by rewrite bool_decide_eq_false_2 by done.
Qed.

Lemma update_leaf (prev : Hash) (nt : notarized) (ns ns' : list notarized) (d : Z) :
  NtChildren nt = [] ->
  updatePrevBlock prev (appendNtChild nt) ns = Some ns' ->
  leafAdded prev (nt_Block nt) (forestDepths d ns) (forestDepths d ns').
Proof.
  intros Hleaf. apply update_leaf_list, Forall_forall. intros n _.
  by apply update_leaf_node.
Qed.

End TreeFacts.

Section ChainFacts.
Context {E : Env} {M : MsgOps}.

Lemma existsb_owner (o : Addr) (l : list NtShare) :
  existsb (fun s => bool_decide (nts_Owner s = o)) l = true <-> o ∈ nts_Owner <$> l.
Proof.
  induction l as [|s l IH]; simpl.
  - split; [discriminate|intros H; by apply elem_of_nil in H].
  - rewrite orb_true_iff, IH, elem_of_cons, bool_decide_eq_true.
    split; (intros [?|?]; [left|right]); done.
Qed.

(** What a call of [addNtShare] does to the chain, case by case. *)
Lemma addNtShare_effect (c : Chain) (n : NtShare) (g : Z) (c' : Chain)
    (r : outcome (option Block * option error)) :
  addNtShare c n g = (c', r) ->
  (c' = c /\ (exists e, r = Ret (None, Some e))) \/
  (exists bp, hashToBP c !! nts_BP n = Some bp /\
     NeedNotarize c (nts_BP n) = true /\
     (nts_Owner n ∉ ownersOf c (nts_BP n)) /\
     History c' = History c /\ Finalized c' = Finalized c /\ Fork c' = Fork c /\
     hashToBP c' = hashToBP c /\ hashToBlock c' = hashToBlock c /\
     cfg c' = cfg c /\ chain_RandomBeacon c' = chain_RandomBeacon c /\
     let shares := ntSharesOf c (nts_BP n) ++ [n] in
     ((r = Ret (None, None) /\ len shares < GroupThreshold (cfg c) /\
       bpToNtShares c' = <[nts_BP n := shares]> (bpToNtShares c) /\
       bpNeedNotarize c' = bpNeedNotarize c) \/
      (exists sig, r = Ret (Some (notarizedBlock bp n sig), None) /\
       recoverNtSig shares = Some sig /\
       GroupThreshold (cfg c) <= len shares /\
       bpToNtShares c' = delete (nts_BP n) (<[nts_BP n := shares]> (bpToNtShares c)) /\
       bpNeedNotarize c' = delete (nts_BP n) (bpNeedNotarize c)) \/
      (exists msg, r = Panic msg /\
       GroupThreshold (cfg c) <= len shares /\
       bpToNtShares c' = <[nts_BP n := shares]> (bpToNtShares c) /\
       bpNeedNotarize c' = bpNeedNotarize c))).
Proof.
  unfold addNtShare. intros H.
  destruct (hashToBP c !! nts_BP n) as [bp|] eqn:Hbp;
    [|simplify_eq; left; eauto].
  destruct (NeedNotarize c (nts_BP n)) eqn:Hneed; simpl in H;
    [|simplify_eq; left; eauto].
  destruct (existsb _ _) eqn:Hown; [simplify_eq; left; eauto|].
  right. exists bp.
  assert (nts_Owner n ∉ ownersOf c (nts_BP n)) as Hnotin.
  { unfold ownersOf. rewrite <- existsb_owner, Hown. discriminate. }
  destruct (GroupThreshold (cfg c) <=? _) eqn:Hthr;
    [apply Z.leb_le in Hthr|apply Z.leb_gt in Hthr].
  - destruct (recoverNtSig _) as [sig|] eqn:Hrec.
    + destruct (validateGroupSig _ sig g bp) as [[|]|msg] eqn:Hval; simplify_eq; simpl;
        repeat (split; [done|]).
      * right; left. exists sig. done.
      * right; right. eauto.
      * right; right. eauto.
    + simplify_eq; simpl. repeat (split; [done|]). right; right. eauto.
  - simplify_eq; simpl. repeat (split; [done|]). left. done.
Qed.

(** What a call of [addBP] does to the chain. *)
Lemma addBP_effect (c : Chain) (bp : BlockProposal) (w : float64) (c' : Chain)
    (sigs : list signal) (r : outcome (option error)) :
  addBP c bp w = (c', sigs, r) ->
  (c' = c /\ sigs = [] /\ r <> Ret None) \/
  (r = Ret None /\ sigs = [RecvBlockProposal bp] /\
   hashToBP c !! BP_Hash bp = None /\
   hashToBP c' = <[BP_Hash bp := bp]> (hashToBP c) /\
   bpNeedNotarize c' = <[BP_Hash bp := true]> (bpNeedNotarize c) /\
   bpToNtShares c' = bpToNtShares c /\ hashToBlock c' = hashToBlock c /\
   History c' = History c /\ Finalized c' = Finalized c /\ cfg c' = cfg c /\
   (forall d, forestDepths d (Fork c') = forestDepths d (Fork c)) /\
   let u := mkUnNotarized (BP_Hash bp) w in
   match findPrevBlock (bp_PrevBlock bp) (Fork c) with
   | Some _ => updatePrevBlock (bp_PrevBlock bp) (appendNonNtChild u) (Fork c)
               = Some (Fork c')
               /\ UnNotarizedNotOnFork c' = UnNotarizedNotOnFork c
   | None => Fork c' = Fork c
             /\ UnNotarizedNotOnFork c' = UnNotarizedNotOnFork c ++ [u]
   end).
Proof.
  unfold addBP. intros H.
  destruct (hashToBP c !! BP_Hash bp) eqn:Hdup; [simplify_eq; left; done|].
  pose proof (find_update (bp_PrevBlock bp)
                (appendNonNtChild (mkUnNotarized (BP_Hash bp) w)) (Fork c)) as Hfu.
  destruct (findPrevBlock (bp_PrevBlock bp) (Fork c)) as [p|] eqn:Hfind.
  - destruct Hfu as [_ [f' Hf']]. simpl in H. rewrite Hf' in H. simpl in H.
    simplify_eq. right. simpl. repeat (split; [done|]).
    split; [|done]. intros d. by apply (update_NonNt _ _ _ _ _ Hf').
  - repeat case_match; simplify_eq; try (left; done);
      right; simpl; done.
Qed.

(** What a call of [addBlock] does to the chain. *)
Lemma addBlock_effect (c : Chain) (b : Block) (w : float64) (c' : Chain)
    (sigs : list signal) (r : outcome (option error)) :
  addBlock c b w = (c', sigs, r) ->
  (c' = c /\ sigs = [] /\ r <> Ret None) \/
  (r = Ret None /\
   hashToBlock c !! Block_Hash b = None /\
   is_Some (hashToBP c !! blk_BlockProposal b) /\
   hashToBlock c' = <[Block_Hash b := b]> (hashToBlock c) /\
   hashToBP c' = hashToBP c /\
   bpNeedNotarize c' = delete (blk_BlockProposal b) (bpNeedNotarize c) /\
   bpToNtShares c' = delete (blk_BlockProposal b) (bpToNtShares c) /\
   History c' = History c /\ Finalized c' = Finalized c /\ cfg c' = cfg c /\
   exists k l1 l2,
     tipDepth c (blk_PrevBlock b) = Some k /\
     forestDepths 1 (Fork c) = l1 ++ l2 /\
     forestDepths 1 (Fork c') = l1 ++ (Block_Hash b, k + 1) :: l2).
Proof.
  unfold addBlock. intros H.
  destruct (hashToBlock c !! Block_Hash b) eqn:Hdup; [simplify_eq; left; done|].
  destruct (hashToBP c !! blk_BlockProposal b) eqn:Hbp; [|simplify_eq; left; done].
  pose (nt st ss := mkNotarized (Block_Hash b) w [] [] (blk_BlockProposal b) st ss).
  destruct (findPrevBlock (blk_PrevBlock b) (Fork c)) as [p|] eqn:Hfind.
  - pose proof (find_update (blk_PrevBlock b)
                  (appendNtChild (nt (nt_State p) (nt_SysState p))) (Fork c)) as Hfu.
    rewrite Hfind in Hfu. destruct Hfu as [_ [f' Hf']]. unfold nt in Hf'.
    simpl in H. rewrite Hf' in H. simpl in H. simplify_eq. right. simpl.
    repeat (split; [done|]).
    pose proof (fun Hl => update_leaf _ _ _ _ 1 Hl Hf') as Hadd.
    destruct (Hadd eq_refl) as (l1 & l2 & k & H1 & H2 & H3).
    exists k, l1, l2. split; [|done].
    unfold tipDepth, depthOfPrev. by rewrite H3.
  - pose proof (find_update (blk_PrevBlock b) (appendNtChild (nt None None)) (Fork c)) as Hfu.
    rewrite Hfind in Hfu.
    pose proof (updatePrevBlock_None_find _ _ _ 1 Hfu) as Hnone.
    unfold tipDepth. rewrite Hnone.
    destruct (_ && _) eqn:Htail.
    + simplify_eq. right. simpl. repeat (split; [done|]).
      exists 0, (forestDepths 1 (Fork c)), []. rewrite app_nil_r.
      split; [done|split; [done|]]. by rewrite forestDepths_app.
    + destruct (lastOf (History c)) as [hh|]; [|simplify_eq; left; done].
      destruct (decide (hh = blk_PrevBlock b)); [|simplify_eq; left; done].
      simplify_eq. right. simpl. repeat (split; [done|]).
      exists 0, (forestDepths 1 (Fork c)), []. rewrite app_nil_r.
      split; [done|split; [done|]]. by rewrite forestDepths_app.
Qed.

(** [addBlock] returns without an error whenever the block is new, its
    proposal is registered and its parent can be located. *)
Lemma addBlock_total (c : Chain) (b : Block) (w : float64) :
  hashToBlock c !! Block_Hash b = None ->
  is_Some (hashToBP c !! blk_BlockProposal b) ->
  is_Some (tipDepth c (blk_PrevBlock b)) ->
  exists c' sigs, addBlock c b w = (c', sigs, Ret None).
Proof.
  intros Hnew [bp Hbp] [k Hk]. unfold addBlock. rewrite Hnew, Hbp.
  destruct (findPrevBlock (blk_PrevBlock b) (Fork c)) as [p|] eqn:Hfind; [eauto|].
  pose proof (find_update (blk_PrevBlock b) id (Fork c)) as Hfu.
  rewrite Hfind in Hfu.
  pose proof (updatePrevBlock_None_find _ _ _ 1 Hfu) as Hnone.
  unfold tipDepth in Hk. rewrite Hnone in Hk.
  destruct (_ && _); [eauto|].
  destruct (lastOf (History c)) as [hh|]; [|discriminate].
  destruct (decide (hh = blk_PrevBlock b)); [eauto|discriminate].
Qed.

Lemma existsb_owner_false (o : Addr) (l : list NtShare) :
  o ∉ nts_Owner <$> l ->
  existsb (fun s => bool_decide (nts_Owner s = o)) l = false.
Proof.
  intros Hnot. destruct (existsb _ l) eqn:Hex; [|reflexivity].
  apply existsb_owner in Hex. contradiction.
Qed.

(** A share from a new owner that leaves the count below the threshold is
    stored and nothing is returned. *)
Lemma addNtShare_below (c : Chain) (n : NtShare) (g : Z) (bp : BlockProposal) :
  hashToBP c !! nts_BP n = Some bp ->
  NeedNotarize c (nts_BP n) = true ->
  nts_Owner n ∉ ownersOf c (nts_BP n) ->
  len (ntSharesOf c (nts_BP n) ++ [n]) < GroupThreshold (cfg c) ->
  exists c', addNtShare c n g = (c', Ret (None, None)) /\
    hashToBP c' = hashToBP c /\ bpNeedNotarize c' = bpNeedNotarize c /\
    cfg c' = cfg c /\ chain_RandomBeacon c' = chain_RandomBeacon c /\
    bpToNtShares c'
    = <[nts_BP n := ntSharesOf c (nts_BP n) ++ [n]]> (bpToNtShares c).
Proof.
  intros Hbp Hneed Hown Hlt. unfold addNtShare.
  rewrite Hbp, Hneed, existsb_owner_false by exact Hown. simpl.
  destruct (Z.leb_spec (GroupThreshold (cfg c)) (len (ntSharesOf c (nts_BP n) ++ [n])));
    [lia|].
  eexists. split; [reflexivity|]. simpl. done.
Qed.

(** A share from a new owner that brings the count to the threshold gives
    the block, provided the group signature is recovered and verifies. *)
Lemma addNtShare_reach (c : Chain) (n : NtShare) (g : Z) (bp : BlockProposal)
    (sig : Sign) :
  hashToBP c !! nts_BP n = Some bp ->
  NeedNotarize c (nts_BP n) = true ->
  nts_Owner n ∉ ownersOf c (nts_BP n) ->
  GroupThreshold (cfg c) <= len (ntSharesOf c (nts_BP n) ++ [n]) ->
  recoverNtSig (ntSharesOf c (nts_BP n) ++ [n]) = Some sig ->
  validateGroupSig c sig g bp = Ret true ->
  exists c', addNtShare c n g = (c', Ret (Some (notarizedBlock bp n sig), None)) /\
    hashToBP c' = hashToBP c /\
    bpNeedNotarize c' = delete (nts_BP n) (bpNeedNotarize c) /\
    bpToNtShares c' !! nts_BP n = None.
Proof.
  intros Hbp Hneed Hown Hge Hrec Hval. unfold addNtShare.
  rewrite Hbp, Hneed, existsb_owner_false by exact Hown. simpl.
  destruct (Z.leb_spec (GroupThreshold (cfg c)) (len (ntSharesOf c (nts_BP n) ++ [n])));
    [|lia].
  rewrite Hrec. unfold validateGroupSig in *. simpl. 
  destruct (g <? 0); [discriminate|].
  destruct (RandomBeacon_groups (chain_RandomBeacon c) !! Z.to_nat g); [|discriminate].
  injection Hval as ->.
  eexists. split; [reflexivity|]. simpl. repeat (split; [done|]).
  apply lookup_delete_eq.
Qed.

Lemma NeedNotarize_deleted (c : Chain) (h : Hash) :
  bpNeedNotarize c !! h = None -> NeedNotarize c h = false.
Proof. unfold NeedNotarize. by intros ->. Qed.

(** Once a registered proposal no longer needs notarization, no operation
    makes it need one again. *)
Lemma step_closed (c : Chain) (o : op) (h : Hash) :
  is_Some (hashToBP c !! h) ->
  is_Some (hashToBP (step c o) !! h) /\
  (NeedNotarize c h = false -> NeedNotarize (step c o) h = false) /\
  (forall a, a ∈ ownersOf c h ->
             NeedNotarize (step c o) h = false \/ a ∈ ownersOf (step c o) h).
Proof.
  intros Hreg. destruct o as [bp w|n g|b w]; unfold step.
  - destruct (addBP c bp w) as [[c' sigs] r] eqn:Hop. simpl.
    apply addBP_effect in Hop as [(-> & _)|(_ & _ & Hnew & HBP & Hneed & Hsh & _)];
      [by eauto|].
    assert (BP_Hash bp <> h) as Hne.
    { intros Heq. rewrite Heq in Hnew. rewrite Hnew in Hreg. by destruct Hreg. }
    unfold NeedNotarize, ownersOf, ntSharesOf.
    rewrite HBP, Hneed, Hsh, !lookup_insert_ne by done. eauto.
  - destruct (addNtShare c n g) as [c' r] eqn:Hop. simpl.
    apply addNtShare_effect in Hop
      as [(-> & _)|(bp & _ & _ & _ & _ & _ & _ & HBP & _ & _ & _ & Hcases)];
      [by eauto|].
    rewrite HBP. split; [done|].
    unfold NeedNotarize, ownersOf, ntSharesOf in *.
    destruct (decide (nts_BP n = h)) as [Heq|Hne].
    + rewrite Heq in Hcases. destruct Hcases as [(_ & _ & -> & ->)|[(sig & _ & _ & _ & -> & ->)|(msg & _ & _ & -> & ->)]].
      * rewrite lookup_insert_eq. simpl. split; [done|].
        intros a Ha. right. rewrite fmap_app, elem_of_app. by left.
      * rewrite lookup_delete_eq. simpl. split; [done|]. by left.
      * rewrite lookup_insert_eq. simpl. split; [done|].
        intros a Ha. right. rewrite fmap_app, elem_of_app. by left.
    + destruct Hcases as [(_ & _ & -> & ->)|[(sig & _ & _ & _ & -> & ->)|(msg & _ & _ & -> & ->)]];
        rewrite ?lookup_delete_ne, ?lookup_insert_ne by done; eauto.
  - destruct (addBlock c b w) as [[c' sigs] r] eqn:Hop. simpl.
    apply addBlock_effect in Hop
      as [(-> & _)|(_ & _ & _ & _ & HBP & Hneed & Hsh & _)]; [by eauto|].
    rewrite HBP. split; [done|].
    unfold NeedNotarize, ownersOf, ntSharesOf. rewrite Hneed, Hsh.
    destruct (decide (blk_BlockProposal b = h)) as [Heq|Hne].
    + rewrite Heq, !lookup_delete_eq. simpl. split; [done|]. by left.
    + rewrite !lookup_delete_ne by done. eauto.
Qed.

Lemma run_closed (os : list op) (c : Chain) (h : Hash) :
  is_Some (hashToBP c !! h) ->
  is_Some (hashToBP (run c os) !! h) /\
  (NeedNotarize c h = false -> NeedNotarize (run c os) h = false) /\
  (forall a, NeedNotarize c h = false \/ a ∈ ownersOf c h ->
             NeedNotarize (run c os) h = false \/ a ∈ ownersOf (run c os) h).
Proof.
  revert c. induction os as [|o os IH]; intros c Hreg; simpl; [done|].
  destruct (step_closed c o h Hreg) as (Hreg' & Hdone & Hown).
  destruct (IH (step c o) Hreg') as (Hreg'' & Hdone' & Hown').
  split; [done|]. split; [by auto|].
  intros a [Hd|Ha]; apply Hown'; [by auto|by apply Hown].
Qed.

(** A share for a proposal that is registered but does not need
    notarization, or that already has a share of the same owner, is
    rejected and the chain stays as it is. *)
Lemma addNtShare_rejected (c : Chain) (n : NtShare) (g : Z) :
  is_Some (hashToBP c !! nts_BP n) ->
  NeedNotarize c (nts_BP n) = false \/ nts_Owner n ∈ ownersOf c (nts_BP n) ->
  exists e, addNtShare c n g = (c, Ret (None, Some e)).
Proof.
  intros [bp Hbp] Hcl. unfold addNtShare. rewrite Hbp.
  destruct (NeedNotarize c (nts_BP n)); simpl; [|eauto].
  destruct Hcl as [?|Hin]; [discriminate|].
  apply existsb_owner in Hin. rewrite Hin. eauto.
Qed.

Lemma addNtShare_not_needed (c : Chain) (n : NtShare) (g : Z) :
  is_Some (hashToBP c !! nts_BP n) ->
  NeedNotarize c (nts_BP n) = false ->
  addNtShare c n g
  = (c, Ret (None, Some (errNew "block proposal do not need notarization"))).
Proof. intros [bp Hbp] Hneed. unfold addNtShare. by rewrite Hbp, Hneed. Qed.

Lemma ntSharesOf_insert (c c' : Chain) (h : Hash) (l : list NtShare) :
  bpToNtShares c' = <[h := l]> (bpToNtShares c) -> ntSharesOf c' h = l.
Proof. unfold ntSharesOf. intros ->. by rewrite lookup_insert_eq. Qed.

(** Shares of distinct owners that stay below the threshold are all stored
    without a block and without an error. *)
Lemma addNtShares_below (ss : list NtShare) (c : Chain) (h : Hash)
    (bp : BlockProposal) (g : Z) :
  hashToBP c !! h = Some bp ->
  NeedNotarize c h = true ->
  Forall (fun s => nts_BP s = h) ss ->
  NoDup (nts_Owner <$> (ntSharesOf c h ++ ss)) ->
  len (ntSharesOf c h ++ ss) < GroupThreshold (cfg c) ->
  exists c1, addNtShares c ss g = (c1, replicate (length ss) (Ret (None, None))) /\
    hashToBP c1 = hashToBP c /\ bpNeedNotarize c1 = bpNeedNotarize c /\
    cfg c1 = cfg c /\ chain_RandomBeacon c1 = chain_RandomBeacon c /\
    ntSharesOf c1 h = ntSharesOf c h ++ ss.
Proof.
  revert c. induction ss as [|s ss IH]; intros c Hbp Hneed Hall Hnd Hlt; simpl.
  - exists c. by rewrite app_nil_r.
  - apply Forall_cons in Hall as [Hs Hall].
    rewrite cons_middle, app_assoc in Hnd, Hlt.
    assert (Hnd1 : NoDup (nts_Owner <$> (ntSharesOf c h ++ [s]))).
    { rewrite fmap_app in Hnd. by apply NoDup_app in Hnd as [? _]. }
    assert (Hown : nts_Owner s ∉ ownersOf c (nts_BP s)).
    { rewrite Hs. unfold ownersOf. rewrite fmap_app in Hnd1.
      apply NoDup_app in Hnd1 as (_ & Hdisj & _). intros Hin.
      apply (Hdisj _ Hin). simpl. apply list_elem_of_singleton. reflexivity. }
    assert (Hlt1 : len (ntSharesOf c (nts_BP s) ++ [s]) < GroupThreshold (cfg c)).
    { rewrite Hs. unfold len in *. rewrite length_app in Hlt. lia. }
    rewrite <- Hs in Hbp, Hneed.
    destruct (addNtShare_below c s g bp Hbp Hneed Hown Hlt1)
      as (c' & -> & HBP & HN & Hcfg & Hrb & Hsh).
    apply ntSharesOf_insert in Hsh. rewrite Hs in *.
    destruct (IH c') as (c1 & -> & HBP1 & HN1 & Hcfg1 & Hrb1 & Hsh1).
    + by rewrite HBP.
    + unfold NeedNotarize in *. by rewrite HN.
    + done.
    + by rewrite Hsh.
    + by rewrite Hsh, Hcfg.
    + exists c1. split; [done|]. rewrite Hsh1, Hsh, <- app_assoc. simpl.
      repeat split; congruence.
Qed.

(** C1: for a registered proposal that needs notarization and has no
    share yet, shares of distinct owners, fewer than the group threshold,
    each return no block and no error; the share of a further owner that
    brings the count to the threshold returns the block (zero owner, the
    proposal's round, previous block and system transactions, the share's
    state root and proposal hash, the serialized recovered signature),
    where the signature is recovered and verifies for the group; from then
    on, whatever else is done to the chain, every share for the proposal is
    refused because the proposal does not need notarization. *)
Theorem addNtShare_threshold (c : Chain) (h : Hash) (bp : BlockProposal)
    (ss : list NtShare) (g : Z) :
  hashToBP c !! h = Some bp ->
  NeedNotarize c h = true ->
  ntSharesOf c h = [] ->
  Forall (fun s => nts_BP s = h) ss ->
  NoDup (nts_Owner <$> ss) ->
  len ss < GroupThreshold (cfg c) ->
  exists c1,
    addNtShares c ss g = (c1, replicate (length ss) (Ret (None, None))) /\
    forall (n : NtShare) (sig : Sign),
      nts_BP n = h ->
      nts_Owner n ∉ nts_Owner <$> ss ->
      len ss + 1 = GroupThreshold (cfg c) ->
      recoverNtSig (ss ++ [n]) = Some sig ->
      validateGroupSig c sig g bp = Ret true ->
      exists c2,
        addNtShare c1 n g = (c2, Ret (Some (notarizedBlock bp n sig), None)) /\
        forall (os : list op) (n' : NtShare) (g' : Z),
          nts_BP n' = h ->
          addNtShare (run c2 os) n' g'
          = (run c2 os,
             Ret (None, Some (errNew "block proposal do not need notarization"))).
Proof.
  intros Hbp Hneed Hnone Hall Hnd Hlt.
  destruct (addNtShares_below ss c h bp g Hbp Hneed Hall)
    as (c1 & Hrun & HBP & HN & Hcfg & Hrb & Hsh).
  { by rewrite Hnone. }
  { by rewrite Hnone. }
  exists c1. split; [exact Hrun|].
  rewrite Hnone in Hsh. simpl in Hsh.
  intros n sig Hn Hnew Hthr Hrec Hval.
  destruct (addNtShare_reach c1 n g bp sig) as (c2 & Hcall & HBP2 & HN2 & _).
  - by rewrite Hn, HBP.
  - unfold NeedNotarize in *. by rewrite Hn, HN.
  - unfold ownersOf. by rewrite Hn, Hsh.
  - rewrite Hn, Hsh, Hcfg. unfold len in *. rewrite length_app. simpl. lia.
  - by rewrite Hn, Hsh.
  - unfold validateGroupSig in *. by rewrite Hrb.
  - exists c2. split; [exact Hcall|].
    intros os n' g' Hn'.
    assert (Hreg : is_Some (hashToBP c2 !! h)) by (rewrite HBP2, HBP, Hbp; eauto).
    destruct (run_closed os c2 h Hreg) as (Hreg' & Hdone & _).
    apply addNtShare_not_needed; rewrite Hn'; [done|].
    apply Hdone, NeedNotarize_deleted. rewrite HN2, Hn. apply lookup_delete_eq.
Qed.

(** C4: once a share of an owner for a proposal has been accepted (the
    call returned no error, with or without the block), every later share
    of that owner for that proposal, after any further operations on the
    chain, returns an error and leaves the chain, its share lists
    included, as it was. *)
Theorem addNtShare_owner_once (c : Chain) (n : NtShare) (g : Z) (c1 : Chain)
    (res : option Block) :
  addNtShare c n g = (c1, Ret (res, None)) ->
  forall (os : list op) (n' : NtShare) (g' : Z),
    nts_BP n' = nts_BP n ->
    nts_Owner n' = nts_Owner n ->
    exists e,
      addNtShare (run c1 os) n' g' = (run c1 os, Ret (None, Some e)) /\
      ntSharesOf (addNtShare (run c1 os) n' g').1 (nts_BP n)
      = ntSharesOf (run c1 os) (nts_BP n).
Proof.
  intros Hacc os n' g' HBP Hown.
  assert (Hcl : is_Some (hashToBP c1 !! nts_BP n) /\
                (NeedNotarize c1 (nts_BP n) = false \/
                 nts_Owner n ∈ ownersOf c1 (nts_BP n))).
  { apply addNtShare_effect in Hacc
      as [(_ & e & He)|(bp & Hbp & _ & _ & _ & _ & _ & HBP1 & _ & _ & _ & Hcases)];
      [discriminate|].
    split; [rewrite HBP1, Hbp; eauto|].
    destruct Hcases as [(_ & _ & Hsh & _)|[(sig & _ & _ & _ & _ & Hneed)|(msg & ? & _)]];
      [right|left|discriminate].
    - unfold ownersOf. rewrite (ntSharesOf_insert _ _ _ _ Hsh), fmap_app, elem_of_app.
      right. simpl. apply list_elem_of_singleton. reflexivity.
    - apply NeedNotarize_deleted. rewrite Hneed. apply lookup_delete_eq. }
  destruct Hcl as [Hreg Hcl].
  destruct (run_closed os c1 (nts_BP n) Hreg) as (Hreg' & _ & Hcl').
  specialize (Hcl' (nts_Owner n) Hcl).
  destruct (addNtShare_rejected (run c1 os) n' g') as [e He].
  - by rewrite HBP.
  - by rewrite HBP, Hown.
  - exists e. by rewrite He.
Qed.

(** ** The round *)

Lemma maxOf_insert (l1 l2 : list Z) (x : Z) :
  maxOf (l1 ++ x :: l2) = Z.max x (maxOf (l1 ++ l2)).
Proof.
  rewrite !maxOf_app. unfold maxOf at 2; simpl. fold (maxOf l2). lia.
Qed.

Lemma maxOf_elem (l : list Z) (x : Z) : x ∈ l -> x <= maxOf l.
Proof.
  induction l as [|y l IH]; intros Hin.
  - by apply elem_of_nil in Hin.
  - unfold maxOf; simpl. fold (maxOf l).
    apply elem_of_cons in Hin as [->|Hin]; [lia|]. specialize (IH Hin). lia.
Qed.

Lemma find_isPrev_Some (prev : Hash) (l : list (Hash * Z)) (p : Hash * Z) :
  List.find (isPrev prev) l = Some p -> p.1 = prev /\ p ∈ l.
Proof.
  intros Hf. apply find_some in Hf as [Hin Hp]. split.
  - unfold isPrev in Hp. by apply bool_decide_eq_true in Hp.
  - by apply list_elem_of_In.
Qed.

Lemma nodeDepths_ge (n : notarized) :
  forall z p, p ∈ nodeDepths z n -> z <= p.2.
Proof.
  induction n as [b w ch nn bp st ss IH] using notarized_ind.
  intros z p. rewrite nodeDepths_eq. cbn [nt_Block NtChildren]. intros Hp.
  apply elem_of_cons in Hp as [->|Hp]; [simpl; lia|].
  apply list_elem_of_In, in_flat_map in Hp as (x & Hx & Hp).
  rewrite Forall_forall in IH. apply list_elem_of_In in Hx, Hp.
  specialize (IH x Hx _ _ Hp). lia.
Qed.

Lemma forestDepths_ge (ns : list notarized) (z : Z) (p : Hash * Z) :
  p ∈ forestDepths z ns -> z <= p.2.
Proof.
  intros Hin. apply list_elem_of_In, in_flat_map in Hin as (x & Hx & Hp).
  apply list_elem_of_In in Hp. by apply (nodeDepths_ge x).
Qed.

(** A parent is never deeper than the tree. *)
Lemma tipDepth_bounds (c : Chain) (prev : Hash) (k : Z) :
  tipDepth c prev = Some k -> 0 <= k <= maxHeight (Fork c).
Proof.
  unfold tipDepth, depthOfPrev. pose proof (maxHeight_nonneg (Fork c)).
  destruct (List.find _ _) as [[h d]|] eqn:Hf; simpl.
  - intros [= <-]. apply find_isPrev_Some in Hf as [_ Hin].
    pose proof (forestDepths_ge _ _ _ Hin) as Hge. simpl in Hge.
    assert (Hd : d ∈ (forestDepths 1 (Fork c)).*2).
    { apply list_elem_of_fmap. by exists (h, d). }
    apply maxOf_elem in Hd. rewrite <- maxHeight_depths in Hd. lia.
  - repeat case_match; intros; simplify_eq; lia.
Qed.

(** A block that [addBlock] accepts raises the height of the fork to its
    own depth when that is greater. *)
Lemma addBlock_round (c : Chain) (b : Block) (w : float64) (c' : Chain)
    (sigs : list signal) :
  addBlock c b w = (c', sigs, Ret None) ->
  exists k, tipDepth c (blk_PrevBlock b) = Some k /\
            Round c' = len (History c) + len (Finalized c)
                       + Z.max (k + 1) (maxHeight (Fork c)).
Proof.
  intros Hop. apply addBlock_effect in Hop
    as [(_ & _ & Hr)|(_ & _ & _ & _ & _ & _ & _ & HH & HF & _ & k & l1 & l2 & Hk & H1 & H2)];
    [done|].
  exists k. split; [done|]. unfold Round, round.
  rewrite HH, HF, !maxHeight_depths, H1, H2, !fmap_app, fmap_cons, maxOf_insert.
  reflexivity.
Qed.

Lemma step_round (c : Chain) (o : op) : Round c <= Round (step c o).
Proof.
  destruct o as [bp w|n g|b w]; unfold step.
  - destruct (addBP c bp w) as [[c' sigs] r] eqn:Hop. simpl.
    apply addBP_effect in Hop
      as [(-> & _)|(_ & _ & _ & _ & _ & _ & _ & HH & HF & _ & Hd & _)]; [lia|].
    unfold Round, round. rewrite HH, HF, !maxHeight_depths, Hd. lia.
  - destruct (addNtShare c n g) as [c' r] eqn:Hop. simpl.
    apply addNtShare_effect in Hop
      as [(-> & _)|(bp & _ & _ & _ & HH & HF & HK & _)]; [lia|].
    unfold Round, round. rewrite HH, HF, HK. lia.
  - destruct (addBlock c b w) as [[c' sigs] r] eqn:Hop. simpl.
    pose proof Hop as Hop'.
    apply addBlock_effect in Hop as [(-> & _)|(-> & _)]; [lia|].
    apply addBlock_round in Hop' as (k & _ & ->). unfold Round, round. lia.
Qed.

Lemma run_round (os : list op) (c : Chain) : Round c <= Round (run c os).
Proof.
  revert c. induction os as [|o os IH]; intros c; simpl; [lia|].
  pose proof (step_round c o). specialize (IH (step c o)). lia.
Qed.

Lemma addBlock_round_deepest (c : Chain) (b : Block) (w : float64) (c' : Chain)
    (sigs : list signal) :
  addBlock c b w = (c', sigs, Ret None) ->
  tipDepth c (blk_PrevBlock b) = Some (maxHeight (Fork c)) ->
  Round c' = Round c + 1.
Proof.
  intros Hop Htip. apply addBlock_round in Hop as (k & Hk & ->).
  rewrite Htip in Hk. injection Hk as <-. unfold Round, round. lia.
Qed.

(** C3: the round is the length of the history plus the number of
    finalized blocks plus the greatest depth of a block in the fork tree
    (roots at depth 1, nothing for an empty fork); no sequence of
    [addBP], [addNtShare] and [addBlock] lowers it; a block that
    [addBlock] accepts under a parent at the greatest depth (the tail of
    the finalized blocks or of the history when the fork is empty) raises
    it by exactly one. *)
Theorem Round_depth_monotone (c : Chain) :
  Round c = len (History c) + len (Finalized c)
            + maxOf (forestDepths 1 (Fork c)).*2
  /\ (forall os : list op, Round c <= Round (run c os))
  /\ (forall (b : Block) (w : float64) (c' : Chain) (sigs : list signal),
        addBlock c b w = (c', sigs, Ret None) ->
        tipDepth c (blk_PrevBlock b) = Some (maxHeight (Fork c)) ->
        Round c' = Round c + 1).
Proof.
  split; [|split].
  - unfold Round, round. by rewrite maxHeight_depths.
  - intros os. apply run_round.
  - intros b w c' sigs. apply addBlock_round_deepest.
Qed.

(** An accepted block keeps the chain well indexed and becomes the
    deepest position when its parent was. *)
Lemma addBlock_deepest (c : Chain) (b : Block) (w : float64) (c' : Chain)
    (sigs : list signal) :
  chainOK c ->
  tipDepth c (blk_PrevBlock b) = Some (maxHeight (Fork c)) ->
  addBlock c b w = (c', sigs, Ret None) ->
  chainOK c' /\
  tipDepth c' (Block_Hash b) = Some (maxHeight (Fork c')) /\
  Round c' = Round c + 1 /\
  hashToBP c' = hashToBP c /\
  hashToBlock c' = <[Block_Hash b := b]> (hashToBlock c).
Proof.
  intros [Hhist Hidx] Htip Hop.
  pose proof (addBlock_round_deepest c b w c' sigs Hop Htip) as Hround.
  apply addBlock_effect in Hop
    as [(_ & _ & Hr)|(_ & Hnew & _ & HB & HBP & _ & _ & HH & HF & _ & k & l1 & l2 & Hk & H1 & H2)];
    [done|].
  rewrite Htip in Hk. injection Hk as <-.
  assert (Hfresh : Block_Hash b ∉ l1.*1).
  { intros Hin. destruct (Hidx (Block_Hash b)) as [x Hx]; [|congruence].
    unfold forestBlocks. rewrite H1, fmap_app, elem_of_app. by left. }
  assert (Hmax : maxHeight (Fork c') = maxHeight (Fork c) + 1).
  { rewrite (maxHeight_depths (Fork c')), H2, fmap_app, fmap_cons, maxOf_insert.
    rewrite <- fmap_app, <- H1, <- maxHeight_depths. simpl. lia. }
  repeat split; try done.
  - by rewrite HH.
  - intros h. unfold forestBlocks. rewrite H2, HB, fmap_app, fmap_cons.
    rewrite elem_of_app, elem_of_cons. simpl. intros Hin.
    apply lookup_insert_is_Some'.
    destruct Hin as [Hin|[->|Hin]]; [right|by left|right];
      apply Hidx; unfold forestBlocks; rewrite H1, fmap_app, elem_of_app; auto.
  - unfold tipDepth, depthOfPrev. rewrite H2.
    rewrite find_app_r by (by apply find_isPrev_None).
    simpl. unfold isPrev at 1; simpl. rewrite bool_decide_eq_true_2 by done.
    simpl. by rewrite Hmax.
Qed.

(** C8: in a well indexed chain, blocks that are new, pairwise distinct,
    with registered proposals, each extending the one before it and the
    first extending a parent at the greatest depth of the fork tree (the
    tail of the finalized blocks or of the history when the fork is
    empty), are all accepted by [addBlock], and the round afterwards is
    the round before plus their number. *)
Theorem addBlocks_round (bws : list (Block * float64)) (c : Chain) (tip : Hash) :
  chainOK c ->
  tipDepth c tip = Some (maxHeight (Fork c)) ->
  extendsTip tip bws.*1 ->
  Forall (fun b => is_Some (hashToBP c !! blk_BlockProposal b)) bws.*1 ->
  NoDup (Block_Hash <$> bws.*1) ->
  Forall (fun b => hashToBlock c !! Block_Hash b = None) bws.*1 ->
  exists c', addBlocks c bws = (c', replicate (length bws) (Ret None))
             /\ Round c' = Round c + len bws.
Proof.
  revert c tip.
  induction bws as [|[b w] bws IH]; intros c tip Hok Htip Hext Hreg Hnd Hnew.
  - exists c. split; [done|]. unfold len; simpl. lia.
  - simpl in *. destruct Hext as [Hprev Hext].
    apply Forall_cons in Hreg as [Hreg1 Hreg], Hnew as [Hnew1 Hnew].
    apply NoDup_cons in Hnd as [Hnotin Hnd]. subst tip.
    destruct (addBlock_total c b w Hnew1 Hreg1) as (c1 & sigs & Hop);
      [by rewrite Htip|].
    rewrite Hop.
    destruct (addBlock_deepest c b w c1 sigs Hok Htip Hop)
      as (Hok1 & Htip1 & Hround & HBP & HB).
    destruct (IH c1 (Block_Hash b)) as (c' & -> & Hround'); try done.
    + by rewrite HBP.
    + rewrite HB. apply Forall_forall. intros b' Hb'.
      rewrite Forall_forall in Hnew.
      rewrite lookup_insert_ne; [by apply Hnew|].
      intros Heq. apply Hnotin. rewrite Heq. apply list_elem_of_fmap. by exists b'.
    + exists c'. split; [done|]. rewrite Hround', Hround.
      unfold len. simpl length. lia.
Qed.

(** A proposal or a share moves no block of the fork tree. *)
Lemma step_other (c : Chain) (o : op) :
  match o with OpAddBlock _ _ => False | _ => True end ->
  forestDepths 1 (Fork (step c o)) = forestDepths 1 (Fork c) /\
  History (step c o) = History c /\ Finalized (step c o) = Finalized c /\
  hashToBlock (step c o) = hashToBlock c.
Proof.
  destruct o as [bp w|n g|b w]; intros Hkind; [| |done]; unfold step.
  - destruct (addBP c bp w) as [[c' sigs] r] eqn:Hop. simpl.
    apply addBP_effect in Hop
      as [(-> & _)|(_ & _ & _ & _ & _ & _ & HB & HH & HF & _ & Hd & _)]; [done|].
    by rewrite Hd.
  - destruct (addNtShare c n g) as [c' r] eqn:Hop. simpl.
    apply addNtShare_effect in Hop
      as [(-> & _)|(bp & _ & _ & _ & HH & HF & HK & _ & HB & _)]; [done|].
    by rewrite HK.
Qed.

Lemma step_other_tip (c : Chain) (o : op) (tip : Hash) :
  match o with OpAddBlock _ _ => False | _ => True end ->
  tipDepth (step c o) tip = tipDepth c tip /\
  maxHeight (Fork (step c o)) = maxHeight (Fork c) /\
  Round (step c o) = Round c.
Proof.
  intros Hkind. destruct (step_other c o Hkind) as (Hd & HH & HF & _).
  unfold tipDepth, depthOfPrev, Round, round.
  by rewrite !maxHeight_depths, Hd, HH, HF.
Qed.

(** ** Reachable chains are well indexed *)

Lemma NewChain_ok (genesis : Block) (st : option State) (ss : option SysState)
    (rb : RandomBeacon) (cf : Config) :
  chainOK (NewChain genesis st ss rb cf).
Proof.
  split; [done|]. simpl. intros h Hin. by apply elem_of_nil in Hin.
Qed.

Lemma step_ok (c : Chain) (o : op) : chainOK c -> chainOK (step c o).
Proof.
  intros [Hhist Hidx]. destruct o as [bp w|n g|b w]; unfold step.
  - destruct (addBP c bp w) as [[c' sigs] r] eqn:Hop. simpl.
    apply addBP_effect in Hop
      as [(-> & _)|(_ & _ & _ & _ & _ & _ & HB & HH & _ & _ & Hd & _)]; [done|].
    split; [by rewrite HH|]. unfold forestBlocks. by rewrite Hd, HB.
  - destruct (addNtShare c n g) as [c' r] eqn:Hop. simpl.
    apply addNtShare_effect in Hop
      as [(-> & _)|(bp & _ & _ & _ & HH & _ & HK & _ & HB & _)]; [done|].
    split; [by rewrite HH|]. by rewrite HK, HB.
  - destruct (addBlock c b w) as [[c' sigs] r] eqn:Hop. simpl.
    apply addBlock_effect in Hop
      as [(-> & _)|(_ & _ & _ & HB & _ & _ & _ & HH & _ & _ & k & l1 & l2 & _ & H1 & H2)];
      [done|].
    split; [by rewrite HH|].
    intros h. unfold forestBlocks. rewrite H2, HB, fmap_app, fmap_cons.
    rewrite elem_of_app, elem_of_cons. simpl. intros Hin.
    apply lookup_insert_is_Some'.
    destruct Hin as [Hin|[->|Hin]]; [right|by left|right];
      apply Hidx; unfold forestBlocks; rewrite H1, fmap_app, elem_of_app; auto.
Qed.

Lemma run_ok (os : list op) (c : Chain) : chainOK c -> chainOK (run c os).
Proof.
  revert c. induction os as [|o os IH]; intros c Hok; simpl; [done|].
  by apply IH, step_ok.
Qed.

(** ** Locating the parent of a proposal *)

Lemma tipDepth_not_in_fork (c : Chain) (prev : Hash) :
  findPrevBlock prev (Fork c) = None -> depthOfPrev prev 1 (Fork c) = None.
Proof.
  intros Hfind. pose proof (find_update prev id (Fork c)) as Hfu.
  rewrite Hfind in Hfu. by apply (updatePrevBlock_None_find prev id).
Qed.

Lemma depthOfPrev_found (prev : Hash) (ns : list notarized) (p : notarized) (d : Z) :
  findPrevBlock prev ns = Some p -> is_Some (depthOfPrev prev d ns).
Proof.
  intros Hfind.
  pose proof (find_update prev (appendNtChild (withNtChildren p [])) ns) as Hfu.
  rewrite Hfind in Hfu. destruct Hfu as [_ [f' Hf']].
  pose proof (fun Hl => update_leaf prev (withNtChildren p []) ns f' d Hl Hf') as Hadd.
  destruct (Hadd eq_refl) as (l1 & l2 & k & _ & _ & H3).
  unfold depthOfPrev. rewrite H3. simpl. eauto.
Qed.

Lemma len_nil_iff {A} (l : list A) : (0 <? len l) = false <-> l = [].
Proof.
  unfold len. destruct l; simpl; [done|]. split; [|done].
  intros H. apply Z.ltb_ge in H. lia.
Qed.

(** While nothing is finalized, [addBP] does what is asked of it: a new
    proposal whose parent is in the fork tree or is the tail of the
    history is stored, attached and marked; any other new proposal is
    refused. *)
Lemma addBP_nothing_finalized (c : Chain) (bp : BlockProposal) (w : float64) :
  Finalized c = [] ->
  History c <> [] ->
  hashToBP c !! BP_Hash bp = None ->
  match tipDepth c (bp_PrevBlock bp) with
  | Some _ =>
    exists c', addBP c bp w = (c', [RecvBlockProposal bp], Ret None) /\
      hashToBP c' !! BP_Hash bp = Some bp /\
      NeedNotarize c' (BP_Hash bp) = true
  | None =>
    addBP c bp w
    = (c, [], Ret (Some (errParentNotFound (bp_PrevBlock bp) (bp_Round bp))))
  end.
Proof.
  intros Hfin Hhist Hnew. unfold tipDepth, addBP. rewrite Hnew, Hfin. simpl.
  destruct (findPrevBlock (bp_PrevBlock bp) (Fork c)) as [p|] eqn:Hfind.
  - pose proof (find_update (bp_PrevBlock bp)
                  (appendNonNtChild (mkUnNotarized (BP_Hash bp) w)) (Fork c)) as Hfu.
    rewrite Hfind in Hfu. destruct Hfu as [_ [f' Hf']].
    destruct (depthOfPrev_found _ _ _ 1 Hfind) as [k ->]. eexists. split; [reflexivity|]. simpl.
    unfold NeedNotarize. simpl. by rewrite !lookup_insert_eq.
  - rewrite (tipDepth_not_in_fork _ _ Hfind).
    destruct (lastOf (History c)) as [hh|] eqn:Hlast.
    + destruct (decide (hh = bp_PrevBlock bp)) as [->|Hne].
      * rewrite decide_False by (intros Hx; by apply Hx).
        eexists. split; [reflexivity|]. simpl.
        unfold NeedNotarize. simpl. by rewrite !lookup_insert_eq.
      * by rewrite decide_True.
    + unfold lastOf in Hlast. apply last_None in Hlast. contradiction.
Qed.


(** The same with proposals and shares coming in between the blocks, as
    they do when each proposal is registered once its parent block is in
    the fork tree. *)
Lemma run_extending_round (os : list op) :
  forall (c : Chain) (tip : Hash),
    chainOK c ->
    tipDepth c tip = Some (maxHeight (Fork c)) ->
    extending c tip os ->
    Round (run c os) = Round c + len (blocksOf os).
Proof.
  induction os as [|o os IH]; intros c tip Hok Htip Hext.
  - unfold len; simpl. lia.
  - change (run c (o :: os)) with (run (step c o) os).
    destruct o as [bp w|n g|b w].
    + destruct (step_other_tip c (OpAddBP bp w) tip I) as (Ht & Hm & Hr).
      change (blocksOf (OpAddBP bp w :: os)) with (blocksOf os).
      rewrite <- Hr. apply (IH _ tip); [by apply step_ok| |done].
      by rewrite Ht, Hm.
    + destruct (step_other_tip c (OpAddNtShare n g) tip I) as (Ht & Hm & Hr).
      change (blocksOf (OpAddNtShare n g :: os)) with (blocksOf os).
      rewrite <- Hr. apply (IH _ tip); [by apply step_ok| |done].
      by rewrite Ht, Hm.
    + destruct Hext as (Hprev & Hnew & Hreg & Hext). subst tip.
      destruct (addBlock_total c b w Hnew Hreg) as (c1 & sigs & Hop);
        [by rewrite Htip|].
      destruct (addBlock_deepest c b w c1 sigs Hok Htip Hop)
        as (Hok1 & Htip1 & Hround & _).
      assert (Hstep : step c (OpAddBlock b w) = c1) by (unfold step; by rewrite Hop).
      rewrite Hstep in *. rewrite (IH c1 (Block_Hash b)) by done.
      rewrite Hround.
      change (blocksOf (OpAddBlock b w :: os)) with (b :: blocksOf os).
      unfold len. simpl length. lia.
Qed.

End ChainFacts.

Section BeaconFacts.
Context {E : Env} {M : MsgOps}.

Lemma share_keeps_core (r : RoundInfo) (s : RandBeaconSigShare) (g : Z) :
  beaconCore (RecvRandBeaconSigShare r s g).1 = beaconCore r.
Proof.
  unfold RecvRandBeaconSigShare. repeat case_match; reflexivity.
Qed.

Lemma sig_on_core (r1 r2 : RoundInfo) (s : RandBeaconSig) :
  beaconCore r1 = beaconCore r2 ->
  beaconCore (RecvRandBeaconSig r1 s).1 = beaconCore (RecvRandBeaconSig r2 s).1.
Proof.
  unfold beaconCore. intros [= H1 H2 H3 H4 H5 H6 H7].
  unfold RecvRandBeaconSig, randRound. rewrite H1.
  destruct (decide _); simpl; [congruence|].
  unfold deriveRand; simpl. by rewrite H1, H2, H3, H4, H5, H6, H7.
Qed.

Lemma run_on_core (os1 : list beaconOp) :
  forall (os2 : list beaconOp) (r1 r2 : RoundInfo),
    beaconCore r1 = beaconCore r2 ->
    sigsOf os1 = sigsOf os2 ->
    beaconCore (beaconRun r1 os1) = beaconCore (beaconRun r2 os2).
Proof.
  induction os1 as [|o1 os1 IH1].
  - induction os2 as [|o2 os2 IH2]; intros r1 r2 Hcore Hsigs; [done|].
    destruct o2 as [sh g|s]; [|discriminate]. simpl.
    apply IH2; [|done]. by rewrite share_keeps_core.
  - intros os2 r1 r2 Hcore Hsigs. destruct o1 as [sh g|s]; simpl.
    + apply IH1; [|done]. by rewrite share_keeps_core.
    + revert r2 Hcore Hsigs. induction os2 as [|o2 os2 IH2]; intros r2 Hcore Hsigs;
        [discriminate|].
      destruct o2 as [sh g|s2]; simpl.
      * apply IH2; [|done]. by rewrite share_keeps_core.
      * injection Hsigs as <- Hsigs. apply IH1; [|done]. by apply sig_on_core.
Qed.

(** C5: two runs from round informations made of the same seed and the
    same groups, given the same aggregate signatures in the same order,
    end with the same three committee histories, whatever signature
    shares each run is given in between; run on every prefix of the
    signatures, this is the agreement after every step. *)
Theorem committee_histories_deterministic (seed : Rand) (gs : list Group)
    (os1 os2 : list beaconOp) :
  sigsOf os1 = sigsOf os2 ->
  cmteHistories (beaconRun (NewRoundInfo seed gs) os1)
  = cmteHistories (beaconRun (NewRoundInfo seed gs) os2).
Proof.
  intros Hsigs.
  pose proof (run_on_core os1 os2 (NewRoundInfo seed gs) (NewRoundInfo seed gs)
                eq_refl Hsigs) as Hcore.
  unfold beaconCore in Hcore. unfold cmteHistories. congruence.
Qed.

(** C7: [RecvRandBeaconSig] returns an error and leaves the round
    information as it is when the round of the signature is not the
    expected one, the length of the committee history; when it is, the
    hash of the signature is folded into the three random values, each of
    the three committee histories gets one more entry, the new random
    value modulo the number of groups, the shares of the round are
    dropped and no error is returned; the round then is one more, and
    [RecvRandBeaconSigShare] never changes the round. *)
Theorem RecvRandBeaconSig_spec (r : RoundInfo) (s : RandBeaconSig) :
  (rbs_Round s <> randRound r ->
   RecvRandBeaconSig r s
   = (r, Some (errUnexpectedSigRound (rbs_Round s) (randRound r))))
  /\ (rbs_Round s = randRound r ->
      let h := Hash_bytes (hash (rbs_Sig s)) in
      let n := len (groups r) in
      RecvRandBeaconSig r s
      = (mkRoundInfo
           (nextRBCmteHistory r ++ [Rand_Mod (Rand_Derive (rbRand r) h) n])
           (nextNtCmteHistory r ++ [Rand_Mod (Rand_Derive (ntRand r) h) n])
           (nextBPCmteHistory r ++ [Rand_Mod (Rand_Derive (bpRand r) h) n])
           (groups r)
           (Rand_Derive (rbRand r) h) (Rand_Derive (ntRand r) h)
           (Rand_Derive (bpRand r) h) [],
         None)
      /\ randRound (RecvRandBeaconSig r s).1 = randRound r + 1)
  /\ (forall (sh : RandBeaconSigShare) (g : Z),
        randRound (RecvRandBeaconSigShare r sh g).1 = randRound r).
Proof.
  split; [|split].
  - intros Hne. unfold RecvRandBeaconSig. rewrite decide_True; [done|congruence].
  - intros Heq. unfold RecvRandBeaconSig. rewrite decide_False by congruence.
    split; [reflexivity|]. simpl. unfold randRound, len. simpl.
    rewrite length_app. simpl. lia.
  - intros sh g. pose proof (share_keeps_core r sh g) as Hcore.
    unfold beaconCore in Hcore. unfold randRound. congruence.
Qed.

(** C9: a share of the expected round that is already among the shares of
    the round is added to them once more and is never answered with an
    error; when it brings their number to the threshold, a signature is
    recovered from them all the same. *)
Theorem RecvRandBeaconSigShare_duplicate (r : RoundInfo) (s : RandBeaconSigShare)
    (g : Z) :
  rbss_Round s = randRound r ->
  s ∈ curRoundShares r ->
  curRoundShares (RecvRandBeaconSigShare r s g).1 = curRoundShares r ++ [s]
  /\ (forall e, (RecvRandBeaconSigShare r s g).2 <> Ret (None, Some e))
  /\ (groupThreshold <= len (curRoundShares r) + 1 ->
      (RecvRandBeaconSigShare r s g).2 <> Ret (None, None)).
Proof.
  intros Hround _. unfold RecvRandBeaconSigShare.
  rewrite decide_False by congruence. simpl.
  assert (Hlen : len (curRoundShares r ++ [s]) = len (curRoundShares r) + 1).
  { unfold len. rewrite length_app. simpl. lia. }
  rewrite Hlen.
  destruct (Z.leb_spec groupThreshold (len (curRoundShares r) + 1)).
  - repeat case_match; simpl; (split; [reflexivity|]); split; intros; congruence.
  - simpl. split; [reflexivity|]. split; [congruence|lia].
Qed.

End BeaconFacts.

Section NotaryFacts.
Context {E : Env} {M : MsgOps}.

(** The proposals kept while collecting are those of the least rank seen,
    in the order they came. *)
Lemma collectBP_first (n : Notary) (bp : BlockProposal) (k : Z) :
  rankOf n bp = Some k ->
  collectBP n collectInit bp
  = mkCollecting [bp] k (if k =? 0 then true else false).
Proof.
  unfold rankOf, collectBP. intros ->. simpl.
  by destruct (k =? 0).
Qed.

Lemma collectBP_next (n : Notary) (st : collecting) (bp : BlockProposal) (k : Z) :
  rankOf n bp = Some k ->
  bestRankBPs st <> [] ->
  bestRankBPs (collectBP n st bp)
  = (if k <? bestRank st then [bp]
     else if k =? bestRank st then bestRankBPs st ++ [bp]
     else bestRankBPs st)
  /\ bestRank (collectBP n st bp) = Z.min k (bestRank st).
Proof.
  unfold rankOf, collectBP. intros -> Hne.
  destruct (bestRankBPs st) as [|x l] eqn:Hl; [done|].
  unfold len. simpl length.
  destruct (Z.eqb_spec (Z.of_nat (S (length l))) 0); [lia|].
  destruct (Z.ltb_spec k (bestRank st)); simpl; [split; [done|lia]|].
  destruct (Z.eqb_spec k (bestRank st)); simpl; (split; [done|lia]).
Qed.

Lemma minRank_le (ks : list Z) (k : Z) : k ∈ ks -> minRank ks <= k.
Proof.
  induction ks as [|x ks IH]; intros Hin; [by apply elem_of_nil in Hin|].
  unfold minRank; simpl. fold (minRank ks).
  apply elem_of_cons in Hin as [->|Hin]; [lia|]. specialize (IH Hin). lia.
Qed.

Lemma minRank_snoc (ks : list Z) (k : Z) :
  k <= MaxUint16 -> minRank (ks ++ [k]) = Z.min (minRank ks) k.
Proof.
  intros Hk. induction ks as [|x ks IH]; unfold minRank in *; simpl; [lia|].
  rewrite IH. lia.
Qed.

Lemma filter_none {A} (P : A -> Prop) `{forall x, Decision (P x)} (l : list A) :
  Forall (fun x => ~ P x) l -> filter P l = [].
Proof. induction 1; [done|]. by rewrite filter_cons_False. Qed.

(** After any proposals have been received, those kept for signing are
    the ones of the least rank among them, in the order they came. *)
Lemma collectAll_best (n : Notary) (bps : list BlockProposal) :
  forall ks : list Z,
    Forall2 (ranked n) bps ks ->
    bps <> [] ->
    bestRank (collectAll n bps) = minRank ks /\
    bestRankBPs (collectAll n bps)
    = filter (fun bp => rankOf n bp = Some (minRank ks)) bps /\
    bestRankBPs (collectAll n bps) <> [].
Proof.
  induction bps as [|x l IH] using rev_ind; intros ks Hranks Hne; [done|].
  apply Forall2_app_inv_l in Hranks as (ks' & kx & Hl & Hx & ->).
  apply Forall2_cons_inv_l in Hx as (k & nil' & [Hk Hrange] & Hnil & ->).
  apply Forall2_nil_inv_l in Hnil as ->.
  unfold collectAll. rewrite fold_left_app. simpl. fold (collectAll n l).
  rewrite minRank_snoc, filter_app by lia.
  destruct l as [|y l'].
  - apply Forall2_nil_inv_l in Hl as ->.
    unfold collectAll; simpl. rewrite (collectBP_first n x k Hk). simpl.
    unfold minRank; simpl.
    replace (Z.min MaxUint16 k) with k by lia.
    rewrite filter_cons_True by done. done.
  - destruct (IH ks' Hl) as (Hbest & Hlist & Hnonnil); [done|].
    destruct (collectBP_next n (collectAll n (y :: l')) x k Hk Hnonnil) as [Hl' Hb'].
    rewrite Hb', Hl', Hbest.
    split; [lia|].
    destruct (Z.ltb_spec k (minRank ks')) as [Hlt|Hge].
    + replace (Z.min (minRank ks') k) with k by lia.
      assert (filter (fun bp => rankOf n bp = Some k) [x] = [x]) as ->
        by (by rewrite filter_cons_True).
      split; [|done].
      assert (Hnone : filter (fun bp => rankOf n bp = Some k) (y :: l') = []).
      { apply filter_none, Forall_forall. intros bp Hbp Hrank.
        apply list_elem_of_lookup in Hbp as [i Hi].
        destruct (Forall2_lookup_l _ _ _ _ _ Hl Hi) as (kb & Hkb & [Hrb _]).
        assert (kb = k) as -> by congruence.
        apply list_elem_of_lookup_2, minRank_le in Hkb. lia. }
      by rewrite Hnone.
    + replace (Z.min (minRank ks') k) with (minRank ks') by lia.
      destruct (Z.eqb_spec k (minRank ks')) as [Heq|Hneq].
      * assert (filter (fun bp => rankOf n bp = Some (minRank ks')) [x] = [x]) as ->
          by (rewrite filter_cons_True; [done|congruence]).
        rewrite Hlist. split; [done|]. by destruct (filter _ (y :: l')).
      * assert (filter (fun bp => rankOf n bp = Some (minRank ks')) [x] = []) as ->
          by (rewrite filter_cons_False; [done|congruence]).
        rewrite Hlist, app_nil_r. by rewrite Hlist in Hnonnil.
Qed.

(** When the soft deadline fires, the closure starts from whatever the
    collecting loop kept. *)
Lemma Notarize_collect (n : Notary) (bps : list BlockProposal) (rest : list event) :
  Notarize n ((EvBP <$> bps) ++ EvCtxDone :: rest)
  = notarizeClosure n (collectAll n bps) rest.
Proof.
  unfold Notarize, collectAll. generalize collectInit.
  induction bps as [|bp bps IH]; intros st; simpl; [done|]. apply IH.
Qed.

(** C6: two proposals of ranks 3 and 5 received, in either order, before
    the soft deadline: when it fires only the share for the one of rank 3
    is emitted; two proposals both of rank 3: the shares for both are
    emitted, in the order the proposals were received.  Either way
    [Notarize] goes on in its second loop with best rank 3, and returns
    when the cancellation fires. *)
Theorem Notarize_best_rank (n : Notary) (a b a' : BlockProposal)
    (sa sa' : NtShare) (rest : list event) :
  rankOf n a = Some 3 ->
  rankOf n b = Some 5 ->
  rankOf n a' = Some 3 ->
  notarize n a = Ret sa ->
  notarize n a' = Ret sa' ->
  Notarize n ([EvBP a; EvBP b; EvCtxDone] ++ rest) = keepNotarizing n 3 rest [sa]
  /\ Notarize n ([EvBP b; EvBP a; EvCtxDone] ++ rest) = keepNotarizing n 3 rest [sa]
  /\ Notarize n ([EvBP a; EvBP a'; EvCtxDone] ++ rest)
     = keepNotarizing n 3 rest [sa; sa']
  /\ Notarize n [EvBP a; EvBP b; EvCtxDone; EvCancelDone] = ([sa], Returned)
  /\ Notarize n [EvBP a; EvBP a'; EvCtxDone; EvCancelDone] = ([sa; sa'], Returned).
Proof.
  intros Ha Hb Ha' Hsa Hsa'.
  unfold Notarize, rankOf in *. simpl.
  unfold collectBP, notarizeClosure. rewrite ?Ha, ?Hb, ?Ha'. simpl.
  rewrite ?Ha, ?Hb, ?Ha'. simpl. rewrite ?Hsa, ?Hsa'. simpl.
  rewrite ?Hsa, ?Hsa'. done.
Qed.

(** C10: the block [addNtShare] returns has the zero owner, while the
    block a notary signs with its key share for the same proposal has the
    owner of the proposal; they differ in the owner whenever the proposal
    has an owner other than the zero address. *)
Theorem notarized_block_owner (c : Chain) (n : NtShare) (g : Z) (c' : Chain)
    (b : Block) :
  addNtShare c n g = (c', Ret (Some b, None)) ->
  exists bp,
    hashToBP c !! nts_BP n = Some bp /\
    blk_Owner b = zeroAddr /\
    forall (nt : Notary) (s : NtShare),
      notarize nt bp = Ret s ->
      let blk := tentativeBlock bp (nts_StateRoot s) in
      nts_SigShare s = SK_Sign (share nt) (Block_Encode blk false) /\
      blk_Owner blk = bp_Owner bp /\
      (bp_Owner bp <> zeroAddr -> blk_Owner b <> blk_Owner blk).
Proof.
  intros Hop. apply addNtShare_effect in Hop
    as [(_ & e & He)|(bp & Hbp & _ & _ & _ & _ & _ & _ & _ & _ & _ & Hcases)];
    [discriminate|].
  exists bp. split; [done|].
  destruct Hcases as [(Hr & _)|[(sig & Hr & _)|(msg & Hr & _)]]; try discriminate.
  injection Hr as ->. split; [reflexivity|].
  intros nt s. unfold notarize.
  destruct (store_Block _ _); [|discriminate].
  destruct (BlockState _ _); [|discriminate].
  destruct (State_CommitTxns _ _ _ _); [|discriminate].
  intros [= <-]. simpl. split; [reflexivity|]. split; [reflexivity|]. congruence.
Qed.

End NotaryFacts.

(** * The properties on the small instance *)

Section ToyRuns.
#[local] Existing Instance Toy.env.
#[local] Existing Instance Toy.msgOps.
Import Toy.

Lemma addNtShare_threshold_witness :
  exists c1 c2,
    addNtShares chain1 [shareOf pA 1%N; shareOf pA 2%N] 0
    = (c1, [Ret (None, None); Ret (None, None)])
    /\ addNtShare c1 (shareOf pA 3%N) 0
       = (c2, Ret (Some (notarizedBlock pA (shareOf pA 3%N) 3%N), None))
    /\ addNtShare c2 (shareOf pA 4%N) 0
       = (c2, Ret (None, Some (errNew "block proposal do not need notarization"))).
Proof.
  destruct (addNtShare_threshold chain1 (BP_Hash pA) pA
              [shareOf pA 1%N; shareOf pA 2%N] 0) as (c1 & Hrun & Hnext).
  - vm_compute; reflexivity.
  - vm_compute; reflexivity.
  - vm_compute; reflexivity.
  - repeat constructor.
  - apply (bool_decide_unpack _). vm_compute. exact I.
  - vm_compute; reflexivity.
  - destruct (Hnext (shareOf pA 3%N) 3%N) as (c2 & Hcall & Hlater).
    + reflexivity.
    + apply (bool_decide_unpack _). vm_compute. exact I.
    + vm_compute; reflexivity.
    + vm_compute; reflexivity.
    + vm_compute; reflexivity.
    + exists c1, c2. split; [exact Hrun|]. split; [exact Hcall|].
      exact (Hlater [] (shareOf pA 4%N) 0 eq_refl).
Defined.

Lemma addNtShare_owner_once_witness :
  exists e,
    addNtShare (addNtShare chain1 (shareOf pA 1%N) 0).1 (shareOf pA 1%N) 0
    = ((addNtShare chain1 (shareOf pA 1%N) 0).1, Ret (None, Some e)).
Proof.
  destruct (addNtShare_owner_once chain1 (shareOf pA 1%N) 0
              (addNtShare chain1 (shareOf pA 1%N) 0).1 None)
    with (os := @nil op) (n' := shareOf pA 1%N) (g' := 0) as (e & He & _).
  - vm_compute; reflexivity.
  - reflexivity.
  - reflexivity.
  - exists e. exact He.
Defined.

Lemma Round_depth_monotone_witness :
  Round (addBlock chain1 (blockOf pA) 0).1.1 = Round chain1 + 1.
Proof.
  apply (proj2 (proj2 (Round_depth_monotone chain1)) (blockOf pA) 0 _
           (addBlock chain1 (blockOf pA) 0).1.2).
  - vm_compute; reflexivity.
  - vm_compute; reflexivity.
Defined.

Lemma addBlocks_round_witness :
  exists c', addBlocks chain1 [(blockOf pA, 0); (blockAB, 0)]
             = (c', [Ret None; Ret None])
             /\ Round c' = Round chain1 + 2.
Proof.
  apply (addBlocks_round [(blockOf pA, 0); (blockAB, 0)] chain1 (Block_Hash genesis)).
  - apply run_ok, NewChain_ok.
  - vm_compute; reflexivity.
  - simpl. auto.
  - repeat constructor; vm_compute; eauto.
  - apply (bool_decide_unpack _). vm_compute. exact I.
  - repeat constructor; vm_compute; reflexivity.
Defined.

(** The first branch of [forked] ends at depth 1 while the fork is 2 deep:
    the block of [pD] extends the leader tip and is accepted, and the
    round stays 3. *)
Lemma leader_tip_round_counterexample :
  leaderTip forked = Some (blk_PrevBlock (blockOf pD))
  /\ exists c', addBlocks forked [(blockOf pD, 0)] = (c', [Ret None])
                /\ Round c' = Round forked
                /\ Round c' <> Round forked + len [(blockOf pD, 0)].
Proof.
  split; [vm_compute; reflexivity|].
  eexists. split; [vm_compute; reflexivity|].
  split; [vm_compute; reflexivity|]. vm_compute. discriminate.
Qed.


Lemma committee_histories_deterministic_witness :
  cmteHistories (beaconRun roundInfo0 [OpSigShare beaconShare 0; OpSig beaconSig])
  = cmteHistories (beaconRun roundInfo0 [OpSig beaconSig; OpSigShare beaconShare 0]).
Proof.
  apply (committee_histories_deterministic seed0 groups0
           [OpSigShare beaconShare 0; OpSig beaconSig]
           [OpSig beaconSig; OpSigShare beaconShare 0]).
  reflexivity.
Defined.

Lemma RecvRandBeaconSig_spec_witness :
  randRound (RecvRandBeaconSig roundInfo0 beaconSig).1 = randRound roundInfo0 + 1
  /\ RecvRandBeaconSig roundInfo0 lateSig
     = (roundInfo0, Some (errUnexpectedSigRound 5 (randRound roundInfo0))).
Proof.
  split.
  - apply (proj1 (proj2 (RecvRandBeaconSig_spec roundInfo0 beaconSig))).
    reflexivity.
  - apply (proj1 (RecvRandBeaconSig_spec roundInfo0 lateSig)).
    vm_compute. discriminate.
Defined.

Lemma RecvRandBeaconSigShare_duplicate_witness :
  curRoundShares (RecvRandBeaconSigShare roundInfo1 beaconShare 0).1
  = [beaconShare; beaconShare]
  /\ (RecvRandBeaconSigShare roundInfo1 beaconShare 0).2 <> Ret (None, None).
Proof.
  destruct (RecvRandBeaconSigShare_duplicate roundInfo1 beaconShare 0)
    as (Hshares & _ & Hrec).
  - reflexivity.
  - apply list_elem_of_here.
  - split; [exact Hshares|]. apply Hrec. vm_compute. discriminate.
Defined.

Lemma Notarize_best_rank_witness :
  exists sa sa',
    Notarize notary [EvBP (propBy 3 Byte.x01); EvBP (propBy 5 Byte.x02);
                     EvCtxDone; EvCancelDone] = ([sa], Returned)
    /\ Notarize notary [EvBP (propBy 3 Byte.x01); EvBP (propBy 3 Byte.x03);
                        EvCtxDone; EvCancelDone] = ([sa; sa'], Returned).
Proof.
  destruct (notarize notary (propBy 3 Byte.x01)) as [sa|] eqn:Hsa;
    [|vm_compute in Hsa; discriminate].
  destruct (notarize notary (propBy 3 Byte.x03)) as [sa'|] eqn:Hsa';
    [|vm_compute in Hsa'; discriminate].
  exists sa, sa'.
  destruct (Notarize_best_rank notary (propBy 3 Byte.x01) (propBy 5 Byte.x02)
              (propBy 3 Byte.x03) sa sa' [])
    as (_ & _ & _ & H35 & H33);
    [reflexivity|reflexivity|reflexivity|exact Hsa|exact Hsa'|].
  split; [exact H35|exact H33].
Defined.

Lemma notarized_block_owner_witness :
  exists b s,
    (addNtShare (addNtShares chain1 [shareOf pA 1%N; shareOf pA 2%N] 0).1
       (shareOf pA 3%N) 0).2 = Ret (Some b, None)
    /\ notarize notary pA = Ret s
    /\ blk_Owner b <> blk_Owner (tentativeBlock pA (nts_StateRoot s)).
Proof.
  destruct (addNtShare (addNtShares chain1 [shareOf pA 1%N; shareOf pA 2%N] 0).1
              (shareOf pA 3%N) 0) as [c' r] eqn:Hop.
  destruct r as [[[b|] [e|]]|msg]; try (vm_compute in Hop; discriminate).
  destruct (notarize notary pA) as [s|] eqn:Hs; [|vm_compute in Hs; discriminate].
  destruct (notarized_block_owner _ _ _ _ _ Hop) as (bp & Hbp & _ & Hnot).
  vm_compute in Hbp. injection Hbp as <-.
  destruct (Hnot notary s Hs) as (_ & _ & Hdiff).
  exists b, s. split; [reflexivity|]. split; [reflexivity|].
  apply Hdiff. vm_compute. discriminate.
Defined.

End ToyRuns.

(** * Further properties of the chain *)

Section ChainMore.
Context {E : Env} {M : MsgOps}.

Lemma forestBlocks_find (prev : Hash) (ns : list notarized) :
  depthOfPrev prev 1 ns = None <-> prev ∉ forestBlocks ns.
Proof.
  unfold depthOfPrev, forestBlocks. rewrite <- find_isPrev_None.
  destruct (List.find _ _); simpl; split; congruence.
Qed.

(** X1: [findPrevBlock] finds a block of the given hash exactly when
    there is one in the forest, and what it returns has that hash. *)
Theorem findPrevBlock_spec (prev : Hash) (ns : list notarized) :
  match findPrevBlock prev ns with
  | Some p => nt_Block p = prev /\ prev ∈ forestBlocks ns
  | None => prev ∉ forestBlocks ns
  end.
Proof.
  pose proof (find_update prev id ns) as Hfu.
  destruct (findPrevBlock prev ns) as [p|] eqn:Hfind.
  - destruct Hfu as [Hp _]. split; [done|].
    destruct (depthOfPrev_found prev ns p 1 Hfind) as [k Hk].
    destruct (decide (prev ∈ forestBlocks ns)) as [|Hnot]; [done|].
    apply forestBlocks_find in Hnot. congruence.
  - apply forestBlocks_find. by apply (updatePrevBlock_None_find prev id).
Qed.

Lemma tipDepth_located (c : Chain) (prev : Hash) :
  is_Some (tipDepth c prev) <-> parentLocated c prev.
Proof.
  unfold tipDepth, parentLocated.
  destruct (depthOfPrev prev 1 (Fork c)) as [k|] eqn:Hd.
  - split; [intros _; left|eauto].
    destruct (decide (prev ∈ forestBlocks (Fork c))) as [|Hnot]; [done|].
    apply forestBlocks_find in Hnot. congruence.
  - apply forestBlocks_find in Hd.
    destruct (lastOf (Finalized c)) as [f|] eqn:Hf.
    + assert (Hlen : (0 <? len (Finalized c)) = true).
      { destruct (0 <? len (Finalized c)) eqn:Hl; [done|].
        apply len_nil_iff in Hl. rewrite Hl in Hf. discriminate. }
      rewrite Hlen. simpl.
      destruct (bool_decide_reflect (fin_Block f = prev)) as [Heq|Hne].
      * split; [intros _; right; left; eauto|eauto].
      * destruct (lastOf (History c)) as [hh|]; [destruct (decide (hh = prev))|].
        -- subst. split; [intros _; by right; right|eauto].
        -- split; [intros [? ?]; discriminate|].
           intros [?|[(f' & [= <-] & ?)|[= ?]]]; done.
        -- split; [intros [? ?]; discriminate|].
           intros [?|[(f' & [= <-] & ?)|?]]; done.
    + rewrite andb_false_r.
      destruct (lastOf (History c)) as [hh|]; [destruct (decide (hh = prev))|].
      * subst. split; [intros _; by right; right|eauto].
      * split; [intros [? ?]; discriminate|].
        intros [?|[(f' & ? & ?)|[= ?]]]; done.
      * split; [intros [? ?]; discriminate|].
        intros [?|[(f' & ? & ?)|?]]; done.
Qed.

(** Registered proposals and stored blocks stay as they are. *)
Lemma step_lookups (c : Chain) (o : op) :
  (forall h bp, hashToBP c !! h = Some bp -> hashToBP (step c o) !! h = Some bp) /\
  (forall h b, hashToBlock c !! h = Some b -> hashToBlock (step c o) !! h = Some b).
Proof.
  destruct o as [bp w|n g|b w]; unfold step.
  - destruct (addBP c bp w) as [[c' sigs] r] eqn:Hop. simpl.
    apply addBP_effect in Hop
      as [(-> & _)|(_ & _ & Hnew & HBP & _ & _ & HB & _)]; [done|].
    rewrite HBP, HB. split; [|done]. intros h bp' Hh.
    rewrite lookup_insert_ne; [done|congruence].
  - destruct (addNtShare c n g) as [c' r] eqn:Hop. simpl.
    apply addNtShare_effect in Hop
      as [(-> & _)|(bp & _ & _ & _ & _ & _ & _ & HBP & HB & _)]; [done|].
    by rewrite HBP, HB.
  - destruct (addBlock c b w) as [[c' sigs] r] eqn:Hop. simpl.
    apply addBlock_effect in Hop
      as [(-> & _)|(_ & Hnew & _ & HB & HBP & _)]; [done|].
    rewrite HBP, HB. split; [done|]. intros h b' Hh.
    rewrite lookup_insert_ne; [done|congruence].
Qed.

(** X2: no operation removes or replaces a registered proposal or a
    stored block: what [BlockProposal] and [Block] return for a hash
    stays the same for ever. *)
Theorem lookups_stable (os : list op) (c : Chain) (h : Hash) :
  (forall bp, Chain_BlockProposal c h = Some bp ->
              Chain_BlockProposal (run c os) h = Some bp) /\
  (forall b, Chain_Block c h = Some b -> Chain_Block (run c os) h = Some b).
Proof.
  unfold Chain_BlockProposal, Chain_Block.
  revert c. induction os as [|o os IH]; intros c; simpl; [done|].
  destruct (step_lookups c o) as [HBP HB]. destruct (IH (step c o)) as [IH1 IH2].
  split; eauto.
Qed.

(** X3: an operation that returns an error has changed nothing in the
    chain and has started nothing. *)
Theorem errors_leave_chain (c : Chain) :
  (forall bp w c' sigs e,
     addBP c bp w = (c', sigs, Ret (Some e)) -> c' = c /\ sigs = []) /\
  (forall n g c' ob e,
     addNtShare c n g = (c', Ret (ob, Some e)) -> c' = c /\ ob = None) /\
  (forall b w c' sigs e,
     addBlock c b w = (c', sigs, Ret (Some e)) -> c' = c /\ sigs = []).
Proof.
  split; [|split].
  - intros bp w c' sigs e Hop.
    apply addBP_effect in Hop as [(-> & -> & _)|(? & _)]; [done|discriminate].
  - intros n g c' ob e Hop.
    apply addNtShare_effect in Hop
      as [(-> & e' & [= -> ->])|(bp & _ & _ & _ & _ & _ & _ & _ & _ & _ & _ & Hcases)];
      [done|].
    destruct Hcases as [(? & _)|[(sig & ? & _)|(msg & ? & _)]]; discriminate.
  - intros b w c' sigs e Hop.
    apply addBlock_effect in Hop as [(-> & -> & _)|(? & _)]; [done|discriminate].
Qed.

(** X4: a proposal [addBP] accepts can be looked up by its hash and needs
    notarization; the proposals registered before, their need of
    notarization, the blocks and the round are as before. *)
Theorem addBP_lookup (c : Chain) (bp : BlockProposal) (w : float64) (c' : Chain)
    (sigs : list signal) :
  addBP c bp w = (c', sigs, Ret None) ->
  Chain_BlockProposal c' (BP_Hash bp) = Some bp /\
  NeedNotarize c' (BP_Hash bp) = true /\
  Chain_BlockProposal c (BP_Hash bp) = None /\
  (forall h, h <> BP_Hash bp ->
     Chain_BlockProposal c' h = Chain_BlockProposal c h /\
     NeedNotarize c' h = NeedNotarize c h) /\
  (forall h, Chain_Block c' h = Chain_Block c h) /\
  Round c' = Round c.
Proof.
  intros Hop. pose proof (step_other_tip c (OpAddBP bp w) (BP_Hash bp) I) as (_ & _ & Hr).
  unfold step in Hr. rewrite Hop in Hr. simpl in Hr.
  apply addBP_effect in Hop
    as [(_ & _ & ?)|(_ & _ & Hnew & HBP & Hneed & _ & HB & _)]; [done|].
  unfold Chain_BlockProposal, Chain_Block, NeedNotarize.
  rewrite HBP, Hneed, HB, !lookup_insert_eq. repeat split; try done.
  - by rewrite lookup_insert_ne.
  - by rewrite lookup_insert_ne.
Qed.

(** X5: once a proposal has been accepted, [addBP] refuses every
    proposal of the same hash as a duplicate, whatever has been done to
    the chain in between, and leaves the chain as it is. *)
Theorem addBP_twice (c : Chain) (bp : BlockProposal) (w : float64) (c1 : Chain)
    (sigs : list signal) :
  addBP c bp w = (c1, sigs, Ret None) ->
  forall (os : list op) (bp' : BlockProposal) (w' : float64),
    BP_Hash bp' = BP_Hash bp ->
    addBP (run c1 os) bp' w'
    = (run c1 os, [], Ret (Some errChainDataAlreadyExists)).
Proof.
  intros Hop os bp' w' Hhash.
  apply addBP_lookup in Hop as (Hreg & _).
  apply (proj1 (lookups_stable os c1 (BP_Hash bp))) in Hreg.
  unfold Chain_BlockProposal in Hreg. unfold addBP. by rewrite Hhash, Hreg.
Qed.

(** X6: with a history that is not empty, [addBlock] never panics, and it
    accepts a block exactly when the block is new, its proposal is
    registered and its parent is a block of the fork tree, the last
    finalized block or the last block of the history. *)
Theorem addBlock_accepts_iff (c : Chain) (b : Block) (w : float64) :
  History c <> [] ->
  (exists c' sigs oe, addBlock c b w = (c', sigs, Ret oe)) /\
  ((exists c' sigs, addBlock c b w = (c', sigs, Ret None)) <->
   Chain_Block c (Block_Hash b) = None /\
   is_Some (Chain_BlockProposal c (blk_BlockProposal b)) /\
   parentLocated c (blk_PrevBlock b)).
Proof.
  intros Hhist. split.
  - unfold addBlock. repeat case_match; eauto;
      match goal with H : lastOf (History c) = None |- _ =>
        unfold lastOf in H; apply last_None in H; contradiction end.
  - unfold Chain_Block, Chain_BlockProposal. rewrite <- tipDepth_located. split.
    + intros (c' & sigs & Hop).
      apply addBlock_effect in Hop
        as [(_ & _ & ?)|(_ & Hnew & Hreg & _ & _ & _ & _ & _ & _ & _ & k & _ & _ & Hk & _)];
        [done|].
      rewrite Hk. eauto.
    + intros (Hnew & Hreg & Hloc). by apply addBlock_total.
Qed.

Lemma forestBlocks_added (c c' : Chain) (h : Hash) (k : Z) (l1 l2 : list (Hash * Z)) :
  forestDepths 1 (Fork c) = l1 ++ l2 ->
  forestDepths 1 (Fork c') = l1 ++ (h, k) :: l2 ->
  forall x, x ∈ forestBlocks (Fork c') <-> x = h \/ x ∈ forestBlocks (Fork c).
Proof.
  intros H1 H2 x. unfold forestBlocks.
  rewrite H1, H2, !fmap_app, fmap_cons, !elem_of_app, elem_of_cons. simpl.
  tauto.
Qed.

(** X7: a block [addBlock] accepts can be looked up by its hash and is a
    block of the fork tree; its proposal no longer needs notarization and
    has no shares; the blocks stored before are as before; from then on
    [addBlock] refuses every block of the same hash as already there. *)
Theorem addBlock_lookup (c : Chain) (b : Block) (w : float64) (c1 : Chain)
    (sigs : list signal) :
  addBlock c b w = (c1, sigs, Ret None) ->
  Chain_Block c1 (Block_Hash b) = Some b /\
  Block_Hash b ∈ forestBlocks (Fork c1) /\
  NeedNotarize c1 (blk_BlockProposal b) = false /\
  ntSharesOf c1 (blk_BlockProposal b) = [] /\
  (forall h, h <> Block_Hash b -> Chain_Block c1 h = Chain_Block c h) /\
  forall (os : list op) (b' : Block) (w' : float64),
    Block_Hash b' = Block_Hash b ->
    addBlock (run c1 os) b' w'
    = (run c1 os, [], Ret (Some (errNew "block already exists"))).
Proof.
  intros Hop.
  apply addBlock_effect in Hop
    as [(_ & _ & ?)|(_ & Hnew & Hreg & HB & _ & Hneed & Hsh & _ & _ & _ & k & l1 & l2 & _ & H1 & H2)];
    [done|].
  unfold Chain_Block, NeedNotarize, ntSharesOf.
  rewrite HB, Hneed, Hsh, lookup_insert_eq, !lookup_delete_eq.
  split; [done|]. split; [apply (forestBlocks_added c c1 _ _ _ _ H1 H2); by left|].
  split; [done|]. split; [done|]. split.
  - intros h Hne. by rewrite lookup_insert_ne.
  - intros os b' w' Hhash.
    assert (Hin : Chain_Block c1 (Block_Hash b) = Some b).
    { unfold Chain_Block. by rewrite HB, lookup_insert_eq. }
    apply (proj2 (lookups_stable os c1 (Block_Hash b))) in Hin.
    unfold Chain_Block in Hin. unfold addBlock. by rewrite Hhash, Hin.
Qed.

(** X8: a proposal that needs notarization stops needing it at exactly
    two occasions: the share that completes its notarization, and a block
    for it being accepted. *)
Theorem need_until (c : Chain) (o : op) (h : Hash) :
  NeedNotarize c h = true ->
  (NeedNotarize (step c o) h = false <->
   (exists n g b, o = OpAddNtShare n g /\ nts_BP n = h /\
                  (addNtShare c n g).2 = Ret (Some b, None)) \/
   (exists b w, o = OpAddBlock b w /\ blk_BlockProposal b = h /\
                (addBlock c b w).2 = Ret None)).
Proof.
  intros Hneed. destruct o as [bp w|n g|b w]; unfold step.
  - destruct (addBP c bp w) as [[c' sigs] r] eqn:Hop. simpl.
    assert (NeedNotarize c' h = true) as ->.
    { apply addBP_effect in Hop
        as [(-> & _)|(_ & _ & _ & _ & HN & _)]; [done|].
      unfold NeedNotarize in *. rewrite HN.
      destruct (decide (BP_Hash bp = h)) as [->|Hne];
        [by rewrite lookup_insert_eq|by rewrite lookup_insert_ne]. }
    split; [done|]. intros [(? & ? & ? & ? & _)|(? & ? & ? & _)]; discriminate.
  - destruct (addNtShare c n g) as [c' r] eqn:Hop. simpl.
    match goal with |- _ <-> ?R =>
      assert (Hrhs : R <-> nts_BP n = h /\ exists b, r = Ret (Some b, None)) end.
    { split.
      - intros [(n0 & g0 & b0 & [= <- <-] & ? & Hr)|(? & ? & ? & _)]; [|discriminate].
        rewrite Hop in Hr. eauto.
      - intros [? [b0 ->]]. left. exists n, g, b0. by rewrite Hop. }
    rewrite Hrhs. clear Hrhs.
    apply addNtShare_effect in Hop
      as [(-> & e & ->)|(bp & _ & _ & _ & _ & _ & _ & _ & _ & _ & _ & Hcases)].
    + rewrite Hneed. split; [done|]. intros [_ [? ?]]; discriminate.
    + unfold NeedNotarize in *.
      destruct Hcases as [(-> & _ & _ & ->)|[(sig & -> & _ & _ & _ & ->)|(msg & -> & _ & _ & ->)]].
      * rewrite Hneed. split; [done|]. intros [_ [? ?]]; discriminate.
      * destruct (decide (nts_BP n = h)) as [Heq|Hne].
        -- rewrite Heq, lookup_delete_eq. simpl. split; [eauto|done].
        -- rewrite lookup_delete_ne, Hneed by done. split; [done|]. by intros [? _].
      * rewrite Hneed. split; [done|]. intros [_ [? ?]]; discriminate.
  - destruct (addBlock c b w) as [[c' sigs] r] eqn:Hop. simpl.
    match goal with |- _ <-> ?R =>
      assert (Hrhs : R <-> blk_BlockProposal b = h /\ r = Ret None) end.
    { split.
      - intros [(? & ? & ? & ? & _)|(b0 & w0 & [= <- <-] & ? & Hr)]; [discriminate|].
        rewrite Hop in Hr. eauto.
      - intros [? ->]. right. exists b, w. by rewrite Hop. }
    rewrite Hrhs. clear Hrhs.
    apply addBlock_effect in Hop
      as [(-> & _ & Hr)|(-> & _ & _ & _ & _ & HN & _)].
    + rewrite Hneed. split; [done|]. by intros [_ ?].
    + unfold NeedNotarize in *. rewrite HN.
      destruct (decide (blk_BlockProposal b = h)) as [Heq|Hne].
      * rewrite Heq, lookup_delete_eq. simpl. split; [eauto|done].
      * rewrite lookup_delete_ne, Hneed by done. split; [done|]. by intros [? _].
Qed.

Lemma fold_delete_None (l : list NtShare) (m : gmap Hash NtShare) (k : Hash) :
  m !! k = None ->
  fold_left (fun m share => delete (NtShare_Hash share) m) l m !! k = None.
Proof.
  revert m. induction l as [|s l IH]; intros m Hk; simpl; [done|].
  apply IH. destruct (decide (NtShare_Hash s = k)) as [->|Hne];
    [apply lookup_delete_eq|by rewrite lookup_delete_ne].
Qed.

Lemma fold_delete_elem (l : list NtShare) (m : gmap Hash NtShare) (s : NtShare) :
  s ∈ l ->
  fold_left (fun m share => delete (NtShare_Hash share) m) l m
  !! NtShare_Hash s = None.
Proof.
  revert m. induction l as [|x l IH]; intros m Hin; [by apply elem_of_nil in Hin|].
  simpl. apply elem_of_cons in Hin as [->|Hin]; [|by apply IH].
  apply fold_delete_None, lookup_delete_eq.
Qed.

Lemma fold_delete_sub (l : list NtShare) (m : gmap Hash NtShare) (k : Hash)
    (s : NtShare) :
  fold_left (fun m share => delete (NtShare_Hash share) m) l m !! k = Some s ->
  m !! k = Some s.
Proof.
  revert m. induction l as [|x l IH]; intros m; simpl; [done|].
  intros Hk. apply IH in Hk. by apply lookup_delete_Some in Hk as [_ ?].
Qed.

(** X9: a share that is stored can be looked up by its hash and is the
    last of the shares of its proposal; when a share completes the
    notarization, none of the shares of the proposal can be looked up any
    more, the proposal has no shares and does not need notarization. *)
Theorem addNtShare_index (c : Chain) (n : NtShare) (g : Z) (c' : Chain)
    (ob : option Block) :
  addNtShare c n g = (c', Ret (ob, None)) ->
  match ob with
  | None =>
    Chain_NtShare c' (NtShare_Hash n) = Some n /\
    ntSharesOf c' (nts_BP n) = ntSharesOf c (nts_BP n) ++ [n] /\
    NeedNotarize c' (nts_BP n) = true
  | Some _ =>
    (forall s, s ∈ ntSharesOf c (nts_BP n) ++ [n] ->
               Chain_NtShare c' (NtShare_Hash s) = None) /\
    ntSharesOf c' (nts_BP n) = [] /\
    NeedNotarize c' (nts_BP n) = false
  end.
Proof.
  unfold addNtShare, Chain_NtShare. intros H.
  destruct (hashToBP c !! nts_BP n) as [bp|] eqn:Hbp; [|discriminate].
  destruct (NeedNotarize c (nts_BP n)) eqn:Hneed; simpl in H; [|discriminate].
  destruct (existsb _ _) eqn:Hown; [discriminate|].
  destruct (GroupThreshold (cfg c) <=? _) eqn:Hthr.
  - destruct (recoverNtSig _) as [sig|] eqn:Hrec; [|discriminate].
    destruct (validateGroupSig _ sig g bp) as [[|]|msg] eqn:Hval; try discriminate.
    simplify_eq. simpl. split; [|split].
    + intros s Hs. by apply fold_delete_elem.
    + unfold ntSharesOf. simpl. by rewrite lookup_delete_eq.
    + unfold NeedNotarize. simpl. by rewrite lookup_delete_eq.
  - simplify_eq. simpl. split; [apply lookup_insert_eq|]. split.
    + unfold ntSharesOf at 1. simpl. by rewrite lookup_insert_eq.
    + done.
Qed.

Lemma addNtShare_shareIndex (c : Chain) (n : NtShare) (g : Z) (c' : Chain)
    (r : outcome (option Block * option error)) (k : Hash) (s : NtShare) :
  addNtShare c n g = (c', r) ->
  hashToNtShare c' !! k = Some s ->
  hashToNtShare c !! k = Some s \/ (k = NtShare_Hash n /\ s = n).
Proof.
  unfold addNtShare. intros H.
  repeat case_match; simplify_eq; simpl; auto.
  - intros Hk. left. by apply fold_delete_sub in Hk.
  - intros Hk. apply lookup_insert_Some in Hk as [[<- <-]|[_ ?]]; auto.
Qed.

Lemma addBP_shareIndex (c : Chain) (bp : BlockProposal) (w : float64) (c' : Chain)
    (sigs : list signal) (r : outcome (option error)) :
  addBP c bp w = (c', sigs, r) ->
  hashToNtShare c' = hashToNtShare c /\ chain_RandomBeacon c' = chain_RandomBeacon c.
Proof. unfold addBP. intros H. repeat case_match; by simplify_eq. Qed.

Lemma addBlock_shareIndex (c : Chain) (b : Block) (w : float64) (c' : Chain)
    (sigs : list signal) (r : outcome (option error)) :
  addBlock c b w = (c', sigs, r) ->
  hashToNtShare c' = hashToNtShare c /\ chain_RandomBeacon c' = chain_RandomBeacon c.
Proof. unfold addBlock. intros H. repeat case_match; by simplify_eq. Qed.

(** ** What every reachable chain looks like *)

Lemma NewChain_wf (genesis : Block) (st : option State) (ss : option SysState)
    (rb : RandomBeacon) (cf : Config) :
  chainWF (NewChain genesis st ss rb cf).
Proof.
  split; simpl; try done.
  - intros h Hh. apply list_elem_of_singleton in Hh as ->.
    rewrite lookup_singleton_eq. eauto.
  - intros f Hf. by apply elem_of_nil in Hf.
  - intros h b Hb. by apply lookup_singleton_Some in Hb as [<- <-].
  - apply NoDup_nil_2.
  - intros h Hh. by apply elem_of_nil in Hh.
Qed.

Lemma addBP_wf (c : Chain) (bp : BlockProposal) (w : float64) :
  chainWF c -> chainWF (addBP c bp w).1.1.
Proof.
  intros [W1 W2 W3 W4 W5 W6 W7 W8 W9 W10].
  destruct (addBP c bp w) as [[c' sigs] r] eqn:Hop. simpl.
  destruct (addBP_shareIndex _ _ _ _ _ _ Hop) as [HS _].
  apply addBP_effect in Hop
    as [(-> & _)|(_ & _ & Hnew & HBP & HN & Hsh & HB & HH & HF & _ & Hd & _)]; [done|].
  assert (Hneed : forall h, NeedNotarize c h = true -> NeedNotarize c' h = true).
  { intros h Hh. unfold NeedNotarize in *. rewrite HN.
    destruct (decide (BP_Hash bp = h)) as [->|Hne];
      [by rewrite lookup_insert_eq|by rewrite lookup_insert_ne]. }
  split; rewrite ?HH, ?HF, ?HB, ?HS, ?Hsh; try done.
  - intros h bp'. rewrite HBP. intros Hl.
    apply lookup_insert_Some in Hl as [[<- <-]|[_ ?]]; [done|by apply W5].
  - unfold forestBlocks. by rewrite Hd.
  - unfold forestBlocks. rewrite Hd. apply W8.
  - intros h. rewrite HBP. unfold NeedNotarize. rewrite HN. intros Hh.
    apply lookup_insert_is_Some'.
    destruct (decide (BP_Hash bp = h)) as [|Hne]; [by left|right].
    rewrite lookup_insert_ne in Hh by done. by apply W9.
  - intros h l Hl. destruct (W10 h l Hl) as (? & ? & ?). auto.
Qed.

Lemma addNtShare_wf (c : Chain) (n : NtShare) (g : Z) :
  chainWF c -> chainWF (addNtShare c n g).1.
Proof.
  intros [W1 W2 W3 W4 W5 W6 W7 W8 W9 W10].
  destruct (addNtShare c n g) as [c' r] eqn:Hop. simpl.
  pose proof (fun k s => addNtShare_shareIndex c n g c' r k s Hop) as HS.
  apply addNtShare_effect in Hop
    as [(-> & _)|(bp & Hbp & Hneed & Hown & HH & HF & HK & HBP & HB & _ & _ & Hcases)];
    [done|].
  assert (Hold : NoDup (nts_Owner <$> ntSharesOf c (nts_BP n)) /\
                 Forall (fun s => nts_BP s = nts_BP n) (ntSharesOf c (nts_BP n))).
  { unfold ntSharesOf. destruct (bpToNtShares c !! nts_BP n) as [l|] eqn:Hl; simpl.
    - by destruct (W10 _ _ Hl) as (_ & ? & ?).
    - split; [apply NoDup_nil_2|done]. }
  destruct Hold as [Hnd Hall].
  assert (Hnew : NoDup (nts_Owner <$> ntSharesOf c (nts_BP n) ++ [n]) /\
                 Forall (fun s => nts_BP s = nts_BP n) (ntSharesOf c (nts_BP n) ++ [n])).
  { split.
    - rewrite fmap_app. apply NoDup_app. split; [done|]. split.
      + intros a Ha Hin. simpl in Hin. apply list_elem_of_singleton in Hin as ->.
        by apply Hown.
      + simpl. apply NoDup_singleton.
    - apply Forall_app. split; [done|]. by apply Forall_singleton. }
  split; rewrite ?HH, ?HF, ?HK, ?HB, ?HBP; try done.
  - intros k s Hk. destruct (HS k s Hk) as [?|[-> ->]]; [by apply W6|done].
  - intros h. unfold NeedNotarize.
    destruct Hcases as [(_ & _ & _ & ->)|[(sig & _ & _ & _ & _ & ->)|(msg & _ & _ & _ & ->)]];
      [apply W9| |apply W9].
    intros Hh. apply W9. unfold NeedNotarize.
    destruct (decide (nts_BP n = h)) as [<-|Hne];
      [by rewrite lookup_delete_eq in Hh|by rewrite lookup_delete_ne in Hh].
  - intros h l. unfold NeedNotarize in *.
    destruct Hcases as [(_ & _ & -> & ->)|[(sig & _ & _ & _ & -> & ->)|(msg & _ & _ & -> & ->)]].
    + intros Hl. apply lookup_insert_Some in Hl as [[<- <-]|[_ Hl]]; [done|by apply W10].
    + intros Hl. apply lookup_delete_Some in Hl as [Hne Hl].
      rewrite lookup_insert_ne in Hl by done. rewrite lookup_delete_ne by done.
      by apply W10.
    + intros Hl. apply lookup_insert_Some in Hl as [[<- <-]|[_ Hl]]; [done|by apply W10].
Qed.

Lemma addBlock_wf (c : Chain) (b : Block) (w : float64) :
  chainWF c -> chainWF (addBlock c b w).1.1.
Proof.
  intros [W1 W2 W3 W4 W5 W6 W7 W8 W9 W10].
  destruct (addBlock c b w) as [[c' sigs] r] eqn:Hop. simpl.
  destruct (addBlock_shareIndex _ _ _ _ _ _ Hop) as [HS _].
  apply addBlock_effect in Hop
    as [(-> & _)|(_ & Hnew & Hreg & HB & HBP & HN & Hsh & HH & HF & _ & k & l1 & l2 & _ & H1 & H2)];
    [done|].
  pose proof (forestBlocks_added c c' _ _ _ _ H1 H2) as Hblocks.
  assert (Hfresh : Block_Hash b ∉ forestBlocks (Fork c)).
  { intros Hin. destruct (W8 _ Hin) as [x Hx]. congruence. }
  split; rewrite ?HH, ?HF, ?HS, ?HBP; try done.
  - intros h Hh. rewrite HB. apply lookup_insert_is_Some'. right. by apply W2.
  - intros f Hf. rewrite HB. apply lookup_insert_is_Some'. right. by apply W3.
  - intros h b'. rewrite HB. intros Hl.
    apply lookup_insert_Some in Hl as [[<- <-]|[_ ?]]; [done|by apply W4].
  - unfold forestBlocks in *. rewrite H2, fmap_app, fmap_cons. simpl.
    rewrite H1, fmap_app in W7, Hfresh.
    apply NoDup_app in W7 as (Hn1 & Hdisj & Hn2).
    rewrite elem_of_app in Hfresh.
    apply NoDup_app. split; [done|]. split.
    + intros x Hx Hin. apply elem_of_cons in Hin as [->|Hin]; [tauto|].
      by apply (Hdisj x).
    + apply NoDup_cons. split; [tauto|done].
  - intros h Hh. rewrite HB. apply lookup_insert_is_Some'.
    apply Hblocks in Hh as [->|Hh]; [by left|right; by apply W8].
  - intros h. unfold NeedNotarize. rewrite HN. intros Hh. apply W9.
    unfold NeedNotarize.
    destruct (decide (blk_BlockProposal b = h)) as [<-|Hne];
      [by rewrite lookup_delete_eq in Hh|by rewrite lookup_delete_ne in Hh].
  - intros h l. rewrite Hsh. unfold NeedNotarize in *. rewrite HN. intros Hl.
    apply lookup_delete_Some in Hl as [Hne Hl]. rewrite lookup_delete_ne by done.
    by apply W10.
Qed.

Lemma step_wf (c : Chain) (o : op) : chainWF c -> chainWF (step c o).
Proof.
  destruct o; unfold step;
    [apply addBP_wf|apply addNtShare_wf|apply addBlock_wf].
Qed.

(** X10: in every chain made by [NewChain] and any operations, a stored
    block, proposal or share is stored under its own hash; the blocks of
    the fork tree are pairwise different and all stored; what needs
    notarization is registered; the shares kept for a proposal are for
    that proposal, of pairwise different owners, and the proposal still
    needs notarization. *)
Theorem reachable_wf (genesis : Block) (st : option State) (ss : option SysState)
    (rb : RandomBeacon) (cf : Config) (os : list op) :
  chainWF (run (NewChain genesis st ss rb cf) os).
Proof.
  generalize (NewChain_wf genesis st ss rb cf).
  generalize (NewChain genesis st ss rb cf).
  induction os as [|o os IH]; intros c Hwf; simpl; [done|].
  by apply IH, step_wf.
Qed.

Lemma step_fixed (c : Chain) (o : op) :
  History (step c o) = History c /\ Finalized (step c o) = Finalized c.
Proof.
  destruct o as [bp w|n g|b w]; unfold step.
  - destruct (addBP c bp w) as [[c' sigs] r] eqn:Hop. simpl.
    by apply addBP_effect in Hop
      as [(-> & _)|(_ & _ & _ & _ & _ & _ & _ & ? & ? & _)].
  - destruct (addNtShare c n g) as [c' r] eqn:Hop. simpl.
    by apply addNtShare_effect in Hop
      as [(-> & _)|(bp & _ & _ & _ & ? & ? & _)].
  - destruct (addBlock c b w) as [[c' sigs] r] eqn:Hop. simpl.
    by apply addBlock_effect in Hop
      as [(-> & _)|(_ & _ & _ & _ & _ & _ & _ & ? & ? & _)].
Qed.

Lemma run_fixed (os : list op) (c : Chain) :
  History (run c os) = History c /\ Finalized (run c os) = Finalized c.
Proof.
  revert c. induction os as [|o os IH]; intros c; simpl; [done|].
  destruct (IH (step c o)) as [-> ->]. apply step_fixed.
Qed.

(** X11: in a chain made by [NewChain] and any operations, [addBP] never
    panics, and it accepts a proposal exactly when the proposal is new
    and its parent is a block of the fork tree or the genesis block. *)
Theorem addBP_reachable_iff (genesis : Block) (st : option State)
    (ss : option SysState) (rb : RandomBeacon) (cf : Config) (os : list op)
    (bp : BlockProposal) (w : float64) :
  let c := run (NewChain genesis st ss rb cf) os in
  (exists c' sigs oe, addBP c bp w = (c', sigs, Ret oe)) /\
  ((exists c', addBP c bp w = (c', [RecvBlockProposal bp], Ret None)) <->
   Chain_BlockProposal c (BP_Hash bp) = None /\
   (bp_PrevBlock bp ∈ forestBlocks (Fork c)
    \/ bp_PrevBlock bp = Block_Hash genesis)).
Proof.
  intros c.
  destruct (run_fixed os (NewChain genesis st ss rb cf)) as [HH HF].
  fold c in HH, HF. simpl in HH, HF.
  assert (Hhist : History c <> []) by (by rewrite HH).
  assert (Hloc : is_Some (tipDepth c (bp_PrevBlock bp)) <->
                 bp_PrevBlock bp ∈ forestBlocks (Fork c)
                 \/ bp_PrevBlock bp = Block_Hash genesis).
  { rewrite tipDepth_located. unfold parentLocated. rewrite HH, HF. simpl.
    split.
    - intros [?|[(f & ? & _)|[= ?]]]; [by left|discriminate|by right].
    - intros [?| ->]; [by left|by right; right]. }
  unfold Chain_BlockProposal.
  destruct (hashToBP c !! BP_Hash bp) as [old|] eqn:Hdup.
  - unfold addBP. rewrite Hdup. split; [eauto|].
    split; [intros [c' ?]; discriminate|intros [? _]; discriminate].
  - pose proof (addBP_nothing_finalized c bp w HF Hhist Hdup) as Hbp.
    destruct (tipDepth c (bp_PrevBlock bp)) as [k|] eqn:Hk.
    + destruct Hbp as (c' & Hop & _). split; [eauto|].
      split; [intros _; split; [done|]; apply Hloc; eauto|eauto].
    + split; [eauto|]. rewrite Hbp.
      split; [intros [c' ?]; discriminate|].
      intros [_ Hl]. apply Hloc in Hl as [? ?]. discriminate.
Qed.

(** X12: a proposal and a share leave the round as it is; an accepted
    block raises it by one when its parent is at the greatest depth and
    leaves it as it is otherwise; the next round is started exactly when
    the round has gone up and is the round of the random beacon. *)
Theorem round_and_signal (c : Chain) :
  (forall bp w, Round (addBP c bp w).1.1 = Round c) /\
  (forall n g, Round (addNtShare c n g).1 = Round c) /\
  (forall b w c' sigs,
     addBlock c b w = (c', sigs, Ret None) ->
     let deepest :=
       bool_decide (tipDepth c (blk_PrevBlock b) = Some (maxHeight (Fork c))) in
     Round c' = (if deepest then Round c + 1 else Round c) /\
     sigs = if deepest
               && (Round c + 1 =? RandomBeacon_Round (chain_RandomBeacon c))
            then [StartRound (Round c + 1)] else []).
Proof.
  split; [|split].
  - intros bp w. by destruct (step_other_tip c (OpAddBP bp w) (BP_Hash bp) I) as (_ & _ & ?).
  - intros n g. by destruct (step_other_tip c (OpAddNtShare n g) (nts_BP n) I) as (_ & _ & ?).
  - intros b w c' sigs Hop deepest.
    assert (Hround : Round c' = if deepest then Round c + 1 else Round c).
    { destruct (addBlock_round c b w c' sigs Hop) as (k & Hk & ->).
      pose proof (tipDepth_bounds c _ _ Hk) as Hb.
      unfold deepest, Round, round. rewrite Hk.
      destruct (bool_decide_reflect (Some k = Some (maxHeight (Fork c)))) as [[= ->]|Hne];
        [lia|].
      assert (k <> maxHeight (Fork c)) by congruence. lia. }
    split; [done|].
    assert (Hsig : sigs = if (Round c' =? Round c + 1)
                             && (Round c' =? RandomBeacon_Round (chain_RandomBeacon c))
                          then [StartRound (Round c')] else []).
    { revert Hop. unfold addBlock.
      destruct (hashToBlock c !! _); [discriminate|].
      destruct (hashToBP c !! _); [|discriminate].
      destruct (findPrevBlock _ _) as [p|].
      - intros [= <- <-]. reflexivity.
      - destruct (_ && _).
        + intros [= <- <-]. reflexivity.
        + destruct (lastOf (History c)); [|discriminate].
          destruct (decide _); [|discriminate].
          intros [= <- <-]. reflexivity. }
    rewrite Hsig, Hround. destruct deepest; simpl.
    + by rewrite Z.eqb_refl.
    + destruct (Z.eqb_spec (Round c) (Round c + 1)); [lia|done].
Qed.

(** ** The leader *)

Lemma firstBranchTip_eq (n : notarized) :
  firstBranchTip n = match NtChildren n with
                     | [] => n
                     | c :: _ => firstBranchTip c
                     end.
Proof. by destruct n. Qed.

Lemma firstBranchTip_leaf (n : notarized) : NtChildren (firstBranchTip n) = [].
Proof.
  induction n as [b w ch nn bp st ss IH] using notarized_ind.
  rewrite firstBranchTip_eq. simpl. destruct ch as [|c cs]; [done|].
  by apply Forall_cons in IH as [? _].
Qed.

Lemma firstBranchTip_in (n : notarized) :
  forall d, nt_Block (firstBranchTip n) ∈ (nodeDepths d n).*1.
Proof.
  induction n as [b w ch nn bp st ss IH] using notarized_ind.
  intros d. rewrite firstBranchTip_eq, nodeDepths_eq. simpl.
  destruct ch as [|c cs]; [apply list_elem_of_here|].
  apply Forall_cons in IH as [Hc _]. apply list_elem_of_further.
  fold (forestDepths (d + 1) (c :: cs)).
  rewrite forestDepths_cons, fmap_app, elem_of_app. left. apply Hc.
Qed.

Lemma last_elem {A} (l : list A) (x : A) : last l = Some x -> x ∈ l.
Proof.
  intros Hl. apply last_Some in Hl as [l' ->]. rewrite elem_of_app. right.
  apply list_elem_of_here.
Qed.

(** X13: in a well indexed chain [Leader] does not panic and returns a
    block that is stored; with a fork it is the block at the end of the
    first branch, which has no notarized child; without a fork it is the
    last finalized block, or the last block of the history when nothing
    is finalized, with the state kept for it. *)
Theorem Leader_block (c : Chain) :
  chainWF c ->
  exists b st ss,
    Leader c = Ret (Some b, st, ss) /\
    leaderTip c = Some (Block_Hash b) /\
    Chain_Block c (Block_Hash b) = Some b /\
    match heaviestFork c with
    | Ret n => nt_Block n = Block_Hash b /\ NtChildren n = []
               /\ st = nt_State n /\ ss = nt_SysState n
    | Panic _ =>
      Fork c = [] /\
      if len (Finalized c) =? 0
      then lastOf (History c) = Some (Block_Hash b)
           /\ st = LastHistoryState c /\ ss = LastHistorySysState c
      else (fin_Block <$> lastOf (Finalized c)) = Some (Block_Hash b)
           /\ st = LastFinalizedState c /\ ss = LastFinalizedSysState c
    end.
Proof.
  intros [W1 W2 W3 W4 _ _ _ W8 _ _].
  unfold Leader, leaderTip, heaviestFork, Chain_Block.
  destruct (Fork c) as [|n ns] eqn:Hfork.
  - destruct (len (Finalized c) =? 0) eqn:Hlen.
    + destruct (lastOf (History c)) as [hh|] eqn:Hlast;
        [|unfold lastOf in Hlast; apply last_None in Hlast; contradiction].
      destruct (W2 hh (last_elem _ _ Hlast)) as [b Hb].
      pose proof (W4 _ _ Hb) as Hkey. subst hh.
      exists b, (LastHistoryState c), (LastHistorySysState c). by rewrite Hb.
    + destruct (lastOf (Finalized c)) as [f|] eqn:Hlast.
      * destruct (W3 f (last_elem _ _ Hlast)) as [b Hb].
        pose proof (W4 _ _ Hb) as Hkey.
        exists b, (LastFinalizedState c), (LastFinalizedSysState c).
        rewrite Hb. simpl. by rewrite Hkey.
      * unfold lastOf in Hlast. apply last_None in Hlast.
        rewrite Hlast in Hlen. discriminate.
  - assert (Hin : nt_Block (firstBranchTip n) ∈ forestBlocks (n :: ns)).
    { unfold forestBlocks. rewrite forestDepths_cons, fmap_app, elem_of_app.
      left. apply firstBranchTip_in. }
    destruct (W8 _ Hin) as [b Hb]. pose proof (W4 _ _ Hb) as Hkey.
    exists b, (nt_State (firstBranchTip n)), (nt_SysState (firstBranchTip n)).
    rewrite Hb, Hkey. repeat split; try done.
    apply firstBranchTip_leaf.
Qed.

(** Appending a leaf under the end of the first branch makes it the end
    of the first branch. *)
Lemma update_tip_node (prev : Hash) (nt : notarized) (n : notarized) :
  NtChildren nt = [] ->
  forall d, NoDup (nodeDepths d n).*1 ->
    nt_Block (firstBranchTip n) = prev ->
    exists n', updateInNode prev (appendNtChild nt) n = Some n'
               /\ firstBranchTip n' = nt.
Proof.
  intros Hleaf.
  induction n as [b w ch nn bp st ss IH] using notarized_ind.
  intros d Hnd Htip. rewrite updateInNode_eq.
  rewrite firstBranchTip_eq in Htip. rewrite nodeDepths_eq in Hnd.
  cbn [NtChildren nt_Block] in *.
  destruct ch as [|c cs].
  - simpl in Htip. rewrite decide_True by done. eexists. split; [done|].
    unfold appendNtChild. rewrite firstBranchTip_eq. simpl.
    rewrite firstBranchTip_eq, Hleaf. done.
  - rewrite forestDepths_cons, fmap_cons, fmap_app in Hnd. simpl in Hnd.
    apply NoDup_cons in Hnd as [Hb Hnd].
    apply NoDup_app in Hnd as (Hndc & _ & _).
    apply Forall_cons in IH as [IHc _].
    rewrite decide_False.
    2:{ intros ->. apply Hb. rewrite elem_of_app. left. rewrite <- Htip.
        apply firstBranchTip_in. }
    destruct (IHc (d + 1) Hndc Htip) as (c' & Hc' & Htip').
    simpl. rewrite Hc'. simpl. eexists. split; [done|].
    rewrite firstBranchTip_eq. done.
Qed.

(** A change of a node that keeps its block and its notarized children
    keeps the end of the first branch. *)
Lemma update_keeps_tip (prev : Hash) (f : notarized -> notarized) (n : notarized) :
  (forall m, nt_Block (f m) = nt_Block m /\ NtChildren (f m) = NtChildren m) ->
  forall n', updateInNode prev f n = Some n' ->
             nt_Block (firstBranchTip n') = nt_Block (firstBranchTip n).
Proof.
  intros Hf.
  induction n as [b w ch nn bp st ss IH] using notarized_ind.
  intros n'. rewrite updateInNode_eq. cbn [nt_Block NtChildren].
  destruct (decide (b = prev)) as [_|Hne].
  - intros [= <-]. rewrite (firstBranchTip_eq (f _)), (firstBranchTip_eq (mkNotarized _ _ _ _ _ _ _)).
    destruct (Hf (mkNotarized b w ch nn bp st ss)) as [Hb ->]. simpl.
    by destruct ch.
  - destruct ch as [|c cs]; [discriminate|]. simpl.
    apply Forall_cons in IH as [IHc _].
    destruct (updateInNode prev f c) as [c'|] eqn:Hc; simpl.
    + intros [= <-]. simpl. by apply IHc.
    + destruct (updatePrevBlock prev f cs) as [cs'|]; simpl; [|discriminate].
      by intros [= <-].
Qed.

Lemma addBlock_leaderTip (c : Chain) (b : Block) (w : float64) (c' : Chain)
    (sigs : list signal) :
  NoDup (forestBlocks (Fork c)) ->
  leaderTip c = Some (blk_PrevBlock b) ->
  addBlock c b w = (c', sigs, Ret None) ->
  leaderTip c' = Some (Block_Hash b).
Proof.
  intros Hnd Htip. unfold addBlock.
  destruct (hashToBlock c !! _); [discriminate|].
  destruct (hashToBP c !! _); [|discriminate].
  unfold leaderTip in Htip.
  destruct (Fork c) as [|n ns] eqn:Hfork.
  - simpl. destruct (_ && _).
    + intros [= <- <-]. unfold leaderTip. simpl. by rewrite ?Hfork.
    + destruct (lastOf (History c)); [|discriminate].
      destruct (decide _); [|discriminate].
      intros [= <- <-]. unfold leaderTip. simpl. by rewrite ?Hfork.
  - injection Htip as Htip.
    unfold forestBlocks in Hnd. rewrite forestDepths_cons, fmap_app in Hnd.
    apply NoDup_app in Hnd as (Hndn & _ & _).
    pose proof (fun nt Hl => update_tip_node (blk_PrevBlock b) nt n Hl 1 Hndn Htip) as Hup.
    pose proof (find_update (blk_PrevBlock b) id (n :: ns)) as Hfu.
    destruct (findPrevBlock (blk_PrevBlock b) (n :: ns)) as [p|] eqn:Hfind.
    + destruct (Hup (mkNotarized (Block_Hash b) w [] [] (blk_BlockProposal b)
                       (nt_State p) (nt_SysState p)) eq_refl) as (n' & Hn' & Htip').
      intros [= <- <-]. unfold leaderTip. simpl. rewrite ?Hfork. simpl.
      rewrite Hn'. simpl. by rewrite Htip'.
    + exfalso. simpl in Hfu.
      destruct (Hup (withNtChildren n []) eq_refl) as (n' & Hn' & _).
      pose proof (find_update_node (blk_PrevBlock b) (appendNtChild (withNtChildren n [])) n) as Hnode.
      simpl in Hfind. destruct (findInNode (blk_PrevBlock b) n); [discriminate|].
      congruence.
Qed.

Lemma step_other_leaderTip (c : Chain) (o : op) :
  match o with OpAddBlock _ _ => False | _ => True end ->
  leaderTip (step c o) = leaderTip c.
Proof.
  destruct o as [bp w|n g|b w]; intros Hkind; [| |done]; unfold step.
  - destruct (addBP c bp w) as [[c' sigs] r] eqn:Hop. simpl.
    apply addBP_effect in Hop
      as [(-> & _)|(_ & _ & _ & _ & _ & _ & _ & HH & HF & _ & _ & Hfork)]; [done|].
    unfold leaderTip. rewrite HH, HF. simpl in Hfork.
    destruct (findPrevBlock (bp_PrevBlock bp) (Fork c)) as [p|]; [|by destruct Hfork as [-> _]].
    destruct Hfork as [Hup _].
    destruct (Fork c) as [|n ns]; [discriminate|]. simpl in Hup.
    destruct (updateInNode _ _ n) as [n'|] eqn:Hn.
    + injection Hup as <-.
      by rewrite (update_keeps_tip (bp_PrevBlock bp) (appendNonNtChild _) n
                    (fun m => conj eq_refl eq_refl) n' Hn).
    + destruct (updatePrevBlock _ _ ns); simpl in Hup; [|discriminate].
      by injection Hup as <-.
  - destruct (addNtShare c n g) as [c' r] eqn:Hop. simpl.
    apply addNtShare_effect in Hop
      as [(-> & _)|(bp & _ & _ & _ & HH & HF & HK & _)]; [done|].
    unfold leaderTip. by rewrite HH, HF, HK.
Qed.

Lemma wf_ok (c : Chain) : chainWF c -> chainOK c.
Proof. intros W. split; [apply W|apply (wf_fork_indexed c W)]. Qed.

Lemma run_extendingLeader (os : list op) :
  forall (c : Chain) (tip : Hash),
    chainWF c ->
    leaderTip c = Some tip ->
    tipDepth c tip = Some (maxHeight (Fork c)) ->
    extendingLeader c os ->
    Round (run c os) = Round c + len (blocksOf os) /\
    leaderTip (run c os)
    = Some (default tip (last (Block_Hash <$> blocksOf os))).
Proof.
  induction os as [|o os IH]; intros c tip Hwf Hlead Htip Hext.
  - unfold len; simpl. split; [lia|done].
  - change (run c (o :: os)) with (run (step c o) os).
    destruct o as [bp w|n g|b w].
    + destruct (step_other_tip c (OpAddBP bp w) tip I) as (Ht & Hm & Hr).
      change (blocksOf (OpAddBP bp w :: os)) with (blocksOf os).
      rewrite <- Hr. apply (IH _ tip); [by apply step_wf| | |done].
      * by rewrite step_other_leaderTip.
      * by rewrite Ht, Hm.
    + destruct (step_other_tip c (OpAddNtShare n g) tip I) as (Ht & Hm & Hr).
      change (blocksOf (OpAddNtShare n g :: os)) with (blocksOf os).
      rewrite <- Hr. apply (IH _ tip); [by apply step_wf| | |done].
      * by rewrite step_other_leaderTip.
      * by rewrite Ht, Hm.
    + destruct Hext as (Hprev & Hnew & Hreg & Hext).
      rewrite Hlead in Hprev. injection Hprev as ->.
      destruct (addBlock_total c b w Hnew Hreg) as (c1 & sigs & Hop);
        [by rewrite Htip|].
      destruct (addBlock_deepest c b w c1 sigs (wf_ok c Hwf) Htip Hop)
        as (_ & Htip1 & Hround & _).
      pose proof (addBlock_leaderTip c b w c1 sigs (wf_fork_nodup c Hwf) Hlead Hop)
        as Hlead1.
      pose proof (step_wf c (OpAddBlock b w) Hwf) as Hwf1.
      assert (Hstep : step c (OpAddBlock b w) = c1) by (unfold step; by rewrite Hop).
      rewrite Hstep in *.
      destruct (IH c1 (Block_Hash b) Hwf1 Hlead1 Htip1 Hext) as [-> ->].
      change (blocksOf (OpAddBlock b w :: os)) with (b :: blocksOf os).
      rewrite Hround, fmap_cons, last_cons. unfold len. simpl length.
      split; [lia|]. by destruct (last (Block_Hash <$> blocksOf os)).
Qed.

(** X14: from the genesis chain, when every block given to [addBlock] is
    new, has a registered proposal and extends the block [Leader] returns
    at that moment, with proposals and shares coming in between, every
    block is accepted, the round is one plus the number of blocks, and
    the leader is the last of them. *)
Theorem leader_chain_round (genesis : Block) (st : option State)
    (ss : option SysState) (rb : RandomBeacon) (cf : Config) (os : list op) :
  let c := NewChain genesis st ss rb cf in
  extendingLeader c os ->
  Round (run c os) = 1 + len (blocksOf os) /\
  leaderTip (run c os)
  = Some (default (Block_Hash genesis) (last (Block_Hash <$> blocksOf os))).
Proof.
  intros c Hext.
  destruct (run_extendingLeader os c (Block_Hash genesis)) as [Hr Hl]; try done.
  - apply NewChain_wf.
  - unfold tipDepth. simpl. by rewrite decide_True.
Qed.

Lemma fmap_agree {A B} (f g : A -> B) (l : list A) :
  (forall x, x ∈ l -> f x = g x) -> f <$> l = g <$> l.
Proof.
  induction l as [|x l IH]; intros H; [done|]. rewrite !fmap_cons.
  rewrite H by apply list_elem_of_here. f_equal. apply IH.
  intros y Hy. apply H. by apply list_elem_of_further.
Qed.

(** X15: in a well indexed chain [FinalizedChain] has no nil entry, the
    round is its length plus the height of the fork, and no operation
    changes what it returns. *)
Theorem FinalizedChain_fixed (c : Chain) (os : list op) :
  chainWF c ->
  FinalizedChain (run c os) = FinalizedChain c /\
  Forall is_Some (FinalizedChain c) /\
  Round c = len (FinalizedChain c) + maxHeight (Fork c).
Proof.
  intros Hwf. split; [|split].
  - destruct (run_fixed os c) as [HH HF]. unfold FinalizedChain.
    rewrite HH, HF. f_equal; apply fmap_agree.
    + intros h Hh. destruct (wf_history_indexed c Hwf h Hh) as [b Hb].
      rewrite Hb. apply (proj2 (lookups_stable os c h)), Hb.
    + intros f Hf. destruct (wf_finalized_indexed c Hwf f Hf) as [b Hb].
      rewrite Hb. apply (proj2 (lookups_stable os c (fin_Block f))), Hb.
  - unfold FinalizedChain. apply Forall_app. split; apply Forall_fmap, Forall_forall.
    + intros h Hh. apply (wf_history_indexed c Hwf h Hh).
    + intros f Hf. apply (wf_finalized_indexed c Hwf f Hf).
  - unfold Round, round, FinalizedChain, len.
    rewrite length_app, !length_fmap. lia.
Qed.

(** ** From a proposal to its block *)

Lemma addBP_accepted_located (c : Chain) (bp : BlockProposal) (w : float64)
    (c' : Chain) (sigs : list signal) :
  addBP c bp w = (c', sigs, Ret None) -> parentLocated c (bp_PrevBlock bp).
Proof.
  unfold addBP. destruct (hashToBP c !! _); [discriminate|].
  pose proof (findPrevBlock_spec (bp_PrevBlock bp) (Fork c)) as Hspec.
  destruct (findPrevBlock (bp_PrevBlock bp) (Fork c)) as [p|].
  - intros _. left. apply Hspec.
  - intros H. right; right.
    destruct (lastOf (History c)) as [hh|]; [|repeat case_match; discriminate].
    destruct (decide (hh <> bp_PrevBlock bp)) as [|Heq];
      [repeat case_match; discriminate|].
    apply dec_stable in Heq. by rewrite Heq.
Qed.

Lemma step_located (c : Chain) (o : op) (prev : Hash) :
  parentLocated c prev -> parentLocated (step c o) prev.
Proof.
  unfold parentLocated. destruct (step_fixed c o) as [-> ->].
  intros [Hin|?]; [left|by right].
  destruct o as [bp w|n g|b w].
  - destruct (step_other c (OpAddBP bp w) I) as (Hd & _).
    unfold forestBlocks. by rewrite Hd.
  - destruct (step_other c (OpAddNtShare n g) I) as (Hd & _).
    unfold forestBlocks. by rewrite Hd.
  - unfold step. destruct (addBlock c b w) as [[c' sigs] r] eqn:Hop. simpl.
    apply addBlock_effect in Hop
      as [(-> & _)|(_ & _ & _ & _ & _ & _ & _ & _ & _ & _ & k & l1 & l2 & _ & H1 & H2)];
      [done|].
    apply (forestBlocks_added c c' _ _ _ _ H1 H2). by right.
Qed.

Lemma run_located (os : list op) (c : Chain) (prev : Hash) :
  parentLocated c prev -> parentLocated (run c os) prev.
Proof.
  revert c. induction os as [|o os IH]; intros c Hl; simpl; [done|].
  by apply IH, step_located.
Qed.

(** X16: the block that [addNtShare] returns for a proposal [addBP] has
    accepted names the proposal and the parent and round of the proposal,
    and [addBlock] accepts it, whatever has been done to the chain between
    the proposal and its last share, unless a block of the same hash is
    there already. *)
Theorem notarized_block_connects (c0 : Chain) (bp : BlockProposal) (w : float64)
    (c1 : Chain) (sigs : list signal) (os : list op) (n : NtShare) (g : Z)
    (c3 : Chain) (b : Block) (w' : float64) :
  addBP c0 bp w = (c1, sigs, Ret None) ->
  nts_BP n = BP_Hash bp ->
  addNtShare (run c1 os) n g = (c3, Ret (Some b, None)) ->
  Chain_Block c3 (Block_Hash b) = None ->
  blk_BlockProposal b = BP_Hash bp /\
  blk_PrevBlock b = bp_PrevBlock bp /\
  blk_Round b = bp_Round bp /\
  exists c4 sigs',
    addBlock c3 b w' = (c4, sigs', Ret None) /\
    Chain_Block c4 (Block_Hash b) = Some b.
Proof.
  intros Hbp Hn Hshare Hnew.
  pose proof (addBP_accepted_located _ _ _ _ _ Hbp) as Hloc.
  pose proof (step_located c0 (OpAddBP bp w) _ Hloc) as Hloc1.
  unfold step in Hloc1. rewrite Hbp in Hloc1. simpl in Hloc1.
  apply (run_located os) in Hloc1.
  pose proof (step_located (run c1 os) (OpAddNtShare n g) _ Hloc1) as Hloc3.
  unfold step in Hloc3. rewrite Hshare in Hloc3. simpl in Hloc3.
  apply addBP_lookup in Hbp as (Hreg & _).
  apply (proj1 (lookups_stable os c1 (BP_Hash bp))) in Hreg.
  unfold Chain_BlockProposal in Hreg.
  apply addNtShare_effect in Hshare
    as [(_ & e & ?)|(bp' & Hbp' & _ & _ & _ & _ & _ & HBP & _ & _ & _ & Hcases)];
    [discriminate|].
  rewrite Hn, Hreg in Hbp'. injection Hbp' as <-.
  destruct Hcases as [(? & _)|[(sig & [= ->] & _)|(msg & ? & _)]]; try discriminate.
  unfold notarizedBlock in *. simpl in *.
  repeat split; try done.
  destruct (addBlock_total c3 (notarizedBlock bp n sig) w') as (c4 & sigs' & Hop).
  - exact Hnew.
  - unfold notarizedBlock. simpl. rewrite HBP, Hn, Hreg. eauto.
  - apply tipDepth_located. exact Hloc3.
  - exists c4, sigs'. split; [exact Hop|].
    by apply addBlock_lookup in Hop as (? & _).
Qed.

End ChainMore.

(** * Further properties of the round information *)

Section BeaconMore.
Context {E : Env} {M : MsgOps}.

Lemma len_app_one {A} (l : list A) (x : A) : len (l ++ [x]) = len l + 1.
Proof. unfold len. rewrite length_app. simpl. lia. Qed.

Lemma NewRoundInfo_ok (seed : Rand) (gs : list Group) :
  beaconOK (NewRoundInfo seed gs).
Proof. unfold beaconOK, randRound, len. simpl. repeat split; try lia. done. Qed.

Lemma beaconStep_ok (r : RoundInfo) (o : beaconOp) :
  beaconOK r -> beaconOK (beaconStep r o).
Proof.
  intros (Hnt & Hbp & Hpos & Hsh). destruct o as [s g|s]; simpl.
  - pose proof (share_keeps_core r s g) as Hcore.
    unfold beaconCore in Hcore. injection Hcore as H1 H2 H3 _ _ _ _.
    unfold beaconOK, randRound in *. rewrite H1, H2, H3.
    repeat split; try done.
    unfold RecvRandBeaconSigShare, randRound.
    destruct (decide _) as [|Heq]; [done|]. apply dec_stable in Heq.
    assert (Forall (fun s0 => rbss_Round s0 = len (nextRBCmteHistory r))
              (curRoundShares r ++ [s])).
    { apply Forall_app. split; [done|]. by apply Forall_singleton. }
    repeat case_match; done.
  - unfold RecvRandBeaconSig. destruct (decide _); simpl; [done|].
    unfold beaconOK, randRound in *. simpl. rewrite !len_app_one.
    repeat split; try lia. done.
Qed.

(** X17: in every round information made by [NewRoundInfo] and any
    operations, the three committee histories have the same length, the
    round, which is at least one, and every share kept is a share for
    that round. *)
Theorem beacon_lockstep (seed : Rand) (gs : list Group) (os : list beaconOp) :
  let r := beaconRun (NewRoundInfo seed gs) os in
  len (nextRBCmteHistory r) = randRound r /\
  len (nextNtCmteHistory r) = randRound r /\
  len (nextBPCmteHistory r) = randRound r /\
  1 <= randRound r /\
  Forall (fun s => rbss_Round s = randRound r) (curRoundShares r).
Proof.
  intros r. split; [done|]. subst r.
  generalize (NewRoundInfo_ok seed gs). generalize (NewRoundInfo seed gs).
  induction os as [|o os IH]; intros r Hok; simpl; [exact Hok|].
  by apply IH, beaconStep_ok.
Qed.

Lemma beaconStep_grows (r : RoundInfo) (o : beaconOp) :
  nextRBCmteHistory r `prefix_of` nextRBCmteHistory (beaconStep r o) /\
  nextNtCmteHistory r `prefix_of` nextNtCmteHistory (beaconStep r o) /\
  nextBPCmteHistory r `prefix_of` nextBPCmteHistory (beaconStep r o) /\
  groups (beaconStep r o) = groups r.
Proof.
  destruct o as [s g|s]; simpl.
  - pose proof (share_keeps_core r s g) as Hcore.
    unfold beaconCore in Hcore. injection Hcore as -> -> -> -> _ _ _. done.
  - unfold RecvRandBeaconSig. destruct (decide _); simpl; [done|].
    repeat split; by apply prefix_app_r.
Qed.

(** X18: the committees chosen for the rounds so far are never changed:
    after any operations each committee history starts with what it was,
    and the groups are the same. *)
Theorem beacon_histories_grow (os : list beaconOp) (r : RoundInfo) :
  nextRBCmteHistory r `prefix_of` nextRBCmteHistory (beaconRun r os) /\
  nextNtCmteHistory r `prefix_of` nextNtCmteHistory (beaconRun r os) /\
  nextBPCmteHistory r `prefix_of` nextBPCmteHistory (beaconRun r os) /\
  groups (beaconRun r os) = groups r.
Proof.
  revert r. induction os as [|o os IH]; intros r; simpl; [done|].
  destruct (beaconStep_grows r o) as (H1 & H2 & H3 & H4).
  destruct (IH (beaconStep r o)) as (I1 & I2 & I3 & I4).
  rewrite I4, H4. repeat split; try done; by etrans.
Qed.

Lemma randRound_mono (os : list beaconOp) (r : RoundInfo) :
  randRound r <= randRound (beaconRun r os).
Proof.
  destruct (beacon_histories_grow os r) as (Hp & _).
  apply prefix_length in Hp. unfold randRound, len. lia.
Qed.

(** X19: once the signature of a round has been received, every
    signature for that round or an earlier one is refused, whatever is
    received in between, and the round information stays as it is. *)
Theorem beacon_sig_once (r : RoundInfo) (s : RandBeaconSig) (r' : RoundInfo) :
  RecvRandBeaconSig r s = (r', None) ->
  forall (os : list beaconOp) (s' : RandBeaconSig),
    rbs_Round s' <= rbs_Round s ->
    RecvRandBeaconSig (beaconRun r' os) s'
    = (beaconRun r' os,
       Some (errUnexpectedSigRound (rbs_Round s') (randRound (beaconRun r' os)))).
Proof.
  unfold RecvRandBeaconSig at 1. destruct (decide _) as [|Heq]; [discriminate|].
  apply dec_stable in Heq. intros [= <-] os s' Hle.
  pose proof (randRound_mono os
                (set_curRoundShares (deriveRand r (hash (rbs_Sig s))) [])) as Hm.
  assert (Hnext : randRound (set_curRoundShares (deriveRand r (hash (rbs_Sig s))) [])
                  = randRound r + 1).
  { unfold randRound. simpl. apply len_app_one. }
  unfold RecvRandBeaconSig. rewrite decide_True; [done|lia].
Qed.

Lemma sigs_closed_form (sigs : list RandBeaconSig) :
  forall r : RoundInfo,
    consecutive (randRound r) sigs ->
    let r' := beaconRun r (OpSig <$> sigs) in
    let n := len (groups r) in
    let idx rand := (fun x => Rand_Mod x n) <$> derivations rand (sigHashes sigs) in
    nextRBCmteHistory r' = nextRBCmteHistory r ++ idx (rbRand r) /\
    nextNtCmteHistory r' = nextNtCmteHistory r ++ idx (ntRand r) /\
    nextBPCmteHistory r' = nextBPCmteHistory r ++ idx (bpRand r) /\
    groups r' = groups r.
Proof.
  induction sigs as [|s sigs IH]; intros r Hcons; simpl.
  - by rewrite !app_nil_r.
  - destruct Hcons as [Hs Hcons].
    unfold RecvRandBeaconSig. rewrite decide_False by congruence. simpl.
    set (r1 := set_curRoundShares (deriveRand r (hash (rbs_Sig s))) []).
    assert (Hr1 : randRound r1 = randRound r + 1).
    { unfold randRound. simpl. apply len_app_one. }
    rewrite <- Hr1 in Hcons.
    destruct (IH r1 Hcons) as (H1 & H2 & H3 & H4).
    change (list_fmap RandBeaconSig beaconOp OpSig sigs) with (OpSig <$> sigs).
    rewrite H1, H2, H3, H4. subst r1. simpl. by rewrite <- !app_assoc.
Qed.

(** X20: the committee histories are made from the seed and the
    signatures alone: after [NewRoundInfo] and operations whose
    signatures are for the rounds 1, 2, 3, ... in this order, each history
    is the first random value of its kind and the values derived from it
    with the hashes of the signatures one after the other, each taken
    modulo the number of groups; the signature shares received in between
    change nothing. *)
Theorem beacon_histories_closed_form (seed : Rand) (gs : list Group)
    (os : list beaconOp) :
  consecutive 1 (sigsOf os) ->
  let r := beaconRun (NewRoundInfo seed gs) os in
  let idx rand :=
    (fun x => Rand_Mod x (len gs)) <$> (rand :: derivations rand (sigHashes (sigsOf os))) in
  nextRBCmteHistory r
  = idx (Rand_Derive seed (list_byte_of_string "random beacon committee rand seed")) /\
  nextNtCmteHistory r
  = idx (Rand_Derive seed (list_byte_of_string "notarization committee rand seed")) /\
  nextBPCmteHistory r
  = idx (Rand_Derive seed (list_byte_of_string "block proposer committee rand seed")) /\
  randRound r = 1 + len (sigsOf os).
Proof.
  intros Hcons r idx.
  assert (Hsame : sigsOf os = sigsOf (OpSig <$> sigsOf os)).
  { generalize (sigsOf os). intros l. induction l as [|x l IH]; [done|].
    unfold sigsOf. simpl. f_equal. exact IH. }
  pose proof (run_on_core os (OpSig <$> sigsOf os) (NewRoundInfo seed gs)
                (NewRoundInfo seed gs) eq_refl Hsame) as Hcore.
  destruct (sigs_closed_form (sigsOf os) (NewRoundInfo seed gs) Hcons)
    as (H1 & H2 & H3 & _).
  unfold beaconCore in Hcore. injection Hcore as C1 C2 C3 _ _ _ _.
  fold r in C1, C2, C3. rewrite C1, C2, C3, H1, H2, H3. simpl.
  repeat split; try done.
  assert (forall rand l, length (derivations rand l) = length l) as Hlen.
  { intros rand l. revert rand. induction l; intros; simpl; [done|]. by f_equal. }
  unfold randRound. rewrite C1, H1. unfold len.
  rewrite length_app, length_fmap, Hlen. unfold sigHashes.
  rewrite length_fmap. simpl. lia.
Qed.

Lemma recvShares_below (ss : list RandBeaconSigShare) (r : RoundInfo) (g : Z) :
  Forall (fun s => rbss_Round s = randRound r) ss ->
  len (curRoundShares r ++ ss) < groupThreshold ->
  recvShares r ss g
  = (set_curRoundShares r (curRoundShares r ++ ss),
     replicate (length ss) (Ret (None, None))).
Proof.
  revert r. induction ss as [|s ss IH]; intros r Hall Hlt; simpl.
  - rewrite app_nil_r. by destruct r.
  - apply Forall_cons in Hall as [Hs Hall].
    rewrite cons_middle, app_assoc in Hlt.
    unfold RecvRandBeaconSigShare. rewrite decide_False by congruence.
    cbn [curRoundShares set_curRoundShares].
    destruct (Z.leb_spec groupThreshold (len (curRoundShares r ++ [s]))) as [Hge|_].
    { unfold len in *. rewrite !length_app in *. simpl in *. lia. }
    rewrite IH; [|done|done]. simpl. by rewrite <- app_assoc.
Qed.

(** X21: from a round information without shares, shares for the
    expected round, fewer than the threshold, each return nothing; the
    share that brings their number to the threshold returns, where the
    recovered signature verifies for the group, the signature of the
    round with the last random value of that share; [RecvRandBeaconSig]
    takes this signature, the round goes up by one, and a share for the
    old round is then refused. *)
Theorem beacon_shares_threshold (r : RoundInfo) (ss : list RandBeaconSigShare)
    (s : RandBeaconSigShare) (g : Z) (grp : Group) :
  curRoundShares r = [] ->
  Forall (fun x => rbss_Round x = randRound r) (ss ++ [s]) ->
  len ss + 1 = groupThreshold ->
  0 <= g ->
  groups r !! Z.to_nat g = Some grp ->
  Sign_Verify (recoverRandBeaconSig (ss ++ [s])) (Group_PK grp)
    (RandBeaconSig_Encode (mkRandBeaconSig (rbss_Round s) (rbss_LastRandVal s) []) false)
  = true ->
  let rbs := mkRandBeaconSig (rbss_Round s) (rbss_LastRandVal s)
               (Sign_Serialize (recoverRandBeaconSig (ss ++ [s]))) in
  exists r1 r2 r3,
    recvShares r ss g = (r1, replicate (length ss) (Ret (None, None))) /\
    RecvRandBeaconSigShare r1 s g = (r2, Ret (Some rbs, None)) /\
    randRound r2 = randRound r /\
    RecvRandBeaconSig r2 rbs = (r3, None) /\
    randRound r3 = randRound r + 1 /\
    curRoundShares r3 = [] /\
    RecvRandBeaconSigShare r3 s g
    = (r3, Ret (None, Some (errUnexpectedShareRound (rbss_Round s) (randRound r3)))).
Proof.
  intros Hempty Hall Hthr Hg Hgrp Hver rbs.
  apply Forall_app in Hall as [Hss Hs]. apply Forall_cons in Hs as [Hs _].
  pose proof (recvShares_below ss r g Hss) as Hbelow.
  rewrite Hempty in Hbelow. simpl in Hbelow.
  eexists _, _, _. split; [apply Hbelow; lia|].
  assert (Hcall : RecvRandBeaconSigShare (set_curRoundShares r ss) s g
                  = (set_curRoundShares r (ss ++ [s]), Ret (Some rbs, None))).
  { assert (Hr1 : randRound (set_curRoundShares r ss) = rbss_Round s)
      by (unfold randRound in *; simpl; congruence).
    unfold RecvRandBeaconSigShare.
    rewrite decide_False by (intros Hne; by apply Hne).
    cbn [curRoundShares set_curRoundShares groups].
    rewrite len_app_one.
    destruct (Z.leb_spec groupThreshold (len ss + 1)) as [_|?]; [|lia].
    destruct (Z.ltb_spec g 0); [lia|]. rewrite Hgrp, Hver. reflexivity. }
  split; [exact Hcall|]. split; [reflexivity|].
  assert (Hr2 : randRound (set_curRoundShares r (ss ++ [s])) = rbs_Round rbs)
    by (unfold randRound in *; simpl; congruence).
  unfold RecvRandBeaconSig. rewrite decide_False by (intros Hne; by apply Hne).
  split; [reflexivity|]. split; [unfold randRound; simpl; apply len_app_one|].
  split; [reflexivity|].
  unfold RecvRandBeaconSigShare. rewrite decide_True; [reflexivity|].
  unfold randRound in *. simpl. rewrite len_app_one. lia.
Qed.

End BeaconMore.

(** * Further properties of the notary *)

Section NotaryMore.
Context {E : Env} {M : MsgOps}.

Lemma sharesFor_cons (n : Notary) (bp : BlockProposal) (bps : list BlockProposal)
    (s : NtShare) :
  notarize n bp = Ret s -> sharesFor n (bp :: bps) = s :: sharesFor n bps.
Proof. intros H. unfold sharesFor. simpl. by rewrite H. Qed.

Lemma signAll_ok (n : Notary) (bps : list BlockProposal) :
  Forall (fun bp => exists s, notarize n bp = Ret s) bps ->
  forall em, signAll n bps em = (em ++ sharesFor n bps, None).
Proof.
  induction 1 as [|bp bps [s Hs] _ IH]; intros em.
  - simpl. by rewrite app_nil_r.
  - cbn [signAll]. rewrite Hs, IH, (sharesFor_cons n bp bps s Hs), <- app_assoc.
    done.
Qed.

(** X22: proposals received before the soft deadline, whatever their
    number and order: when the deadline fires, the shares emitted are the
    shares for the proposals of the least rank, in the order these were
    received, one share each, and nothing else is emitted when the
    cancellation follows. *)
Theorem Notarize_signs_least_rank (n : Notary) (bps : list BlockProposal)
    (ks : list Z) :
  Forall2 (ranked n) bps ks ->
  bps <> [] ->
  let best := filter (fun bp => rankOf n bp = Some (minRank ks)) bps in
  Forall (fun bp => exists s, notarize n bp = Ret s) best ->
  Notarize n ((EvBP <$> bps) ++ [EvCtxDone; EvCancelDone])
  = (sharesFor n best, Returned)
  /\ Forall2 (fun bp s => notarize n bp = Ret s) best (sharesFor n best)
  /\ best <> [].
Proof.
  intros Hranks Hne best Hok.
  destruct (collectAll_best n bps ks Hranks Hne) as (Hbest & Hlist & Hnonnil).
  fold best in Hlist. split; [|split].
  - rewrite Notarize_collect. unfold notarizeClosure.
    rewrite Hlist, (signAll_ok n best Hok). done.
  - clear -Hok. induction Hok as [|bp l [s Hs] _ IH]; [constructor|].
    rewrite (sharesFor_cons n bp l s Hs). by constructor.
  - by rewrite <- Hlist.
Qed.

(** X23: when the cancellation fires while proposals are still being
    collected, [Notarize] returns and nothing has been signed, whatever
    was received. *)
Theorem Notarize_cancelled (n : Notary) (bps : list BlockProposal)
    (rest : list event) :
  Notarize n ((EvBP <$> bps) ++ EvCancelDone :: rest) = ([], Returned).
Proof.
  unfold Notarize. generalize collectInit.
  induction bps as [|bp bps IH]; intros st; simpl; [done|]. apply IH.
Qed.

Lemma collectBP_recv (n : Notary) (st : collecting) (bp : BlockProposal) :
  recvBestRank (collectBP n st bp)
  = recvBestRank st || bool_decide (rankOf n bp = Some 0).
Proof.
  unfold collectBP, rankOf.
  destruct (randomBeacon_Rank _ _ _) as [k|]; simpl.
  - assert (Hrecv : (if (k =? 0) && negb (recvBestRank st) then true
                     else recvBestRank st)
                    = recvBestRank st || bool_decide (Some k = Some 0)).
    { destruct (Z.eqb_spec k 0) as [->|Hne].
      - rewrite bool_decide_eq_true_2 by done. by destruct (recvBestRank st).
      - rewrite bool_decide_eq_false_2 by congruence. simpl.
        by rewrite orb_false_r. }
    repeat case_match; simpl; exact Hrecv.
  - by rewrite orb_false_r.
Qed.

Lemma collect_recv (n : Notary) (bps : list BlockProposal) (st : collecting) :
  recvBestRank (fold_left (collectBP n) bps st)
  = recvBestRank st || existsb (fun bp => bool_decide (rankOf n bp = Some 0)) bps.
Proof.
  revert st. induction bps as [|bp bps IH]; intros st; simpl.
  - by rewrite orb_false_r.
  - by rewrite IH, collectBP_recv, orb_assoc.
Qed.

Lemma collect_shortcut (n : Notary) (bps : list BlockProposal) (rest : list event) :
  forall st,
    collect n st ((EvBP <$> bps) ++ EvRecvBestRank :: rest)
    = if recvBestRank (fold_left (collectBP n) bps st)
      then notarizeClosure n (fold_left (collectBP n) bps st) rest
      else ([], NotEnabled).
Proof.
  induction bps as [|bp bps IH]; intros st; simpl; [done|]. apply IH.
Qed.

(** X24: the collecting is cut short only by a proposal of rank 0: once
    one has been received, [Notarize] may go on to sign as it does at the
    soft deadline; as long as none has been received, that case of the
    select is not ready. *)
Theorem Notarize_rank0 (n : Notary) (bps : list BlockProposal)
    (rest : list event) :
  Notarize n ((EvBP <$> bps) ++ EvRecvBestRank :: rest)
  = if existsb (fun bp => bool_decide (rankOf n bp = Some 0)) bps
    then Notarize n ((EvBP <$> bps) ++ EvCtxDone :: rest)
    else ([], NotEnabled).
Proof.
  rewrite Notarize_collect. unfold Notarize, collectAll.
  rewrite collect_shortcut, collect_recv. done.
Qed.

Lemma keepNotarizing_skip (n : Notary) (evs : list event) :
  forall k em,
    keepNotarizing n k (filter (fun e => rankFails n e = false) evs) em
    = keepNotarizing n k evs em.
Proof.
  induction evs as [|e evs IH]; intros k em; [done|].
  destruct e as [bp| | |]; try (rewrite filter_cons_True by done; done).
  destruct (rankOf n bp) as [r|] eqn:Hr.
  - rewrite filter_cons_True by (simpl; by rewrite Hr).
    simpl. unfold rankOf in Hr. rewrite Hr.
    repeat case_match; by rewrite ?IH.
  - rewrite filter_cons_False by (simpl; by rewrite Hr).
    simpl. unfold rankOf in Hr. by rewrite Hr, IH.
Qed.

(** X25: a proposal whose rank cannot be looked up is passed over: the
    run of [Notarize] is the same as if the proposal had not been
    received at all. *)
Theorem Notarize_skips_rank_errors (n : Notary) (evs : list event) :
  Notarize n (filter (fun e => rankFails n e = false) evs) = Notarize n evs.
Proof.
  unfold Notarize. generalize collectInit.
  induction evs as [|e evs IH]; intros st; [done|].
  destruct e as [bp| | |].
  - destruct (rankOf n bp) as [r|] eqn:Hr.
    + rewrite filter_cons_True by (simpl; by rewrite Hr). simpl. apply IH.
    + rewrite filter_cons_False by (simpl; by rewrite Hr). simpl.
      rewrite IH. unfold collectBP. unfold rankOf in Hr. by rewrite Hr.
  - rewrite filter_cons_True by done. simpl. unfold notarizeClosure.
    destruct (signAll n (bestRankBPs st) []) as [em [msg|]]; [done|].
    apply keepNotarizing_skip.
  - by rewrite filter_cons_True by done.
  - rewrite filter_cons_True by done. simpl.
    destruct (recvBestRank st); [|done]. unfold notarizeClosure.
    destruct (signAll n (bestRankBPs st) []) as [em [msg|]]; [done|].
    apply keepNotarizing_skip.
Qed.

Lemma signAll_from (n : Notary) (bps : list BlockProposal) :
  forall em em' res,
    signAll n bps em = (em', res) ->
    forall s, s ∈ em' -> s ∈ em \/ signedFrom n bps s.
Proof.
  induction bps as [|bp bps IH]; intros em em' res; simpl.
  - intros [= <- _] s Hs. by left.
  - destruct (notarize n bp) as [x|msg] eqn:Hx.
    + intros Hall s Hs. destruct (IH _ _ _ Hall s Hs) as [Hin|(b & Hb & Hn)].
      * apply elem_of_app in Hin as [?|Hin]; [by left|right].
        apply list_elem_of_singleton in Hin as ->. exists bp.
        split; [apply list_elem_of_here|done].
      * right. exists b. split; [by apply list_elem_of_further|done].
    + intros [= <- _] s Hs. by left.
Qed.

Lemma keepNotarizing_from (n : Notary) (evs : list event) :
  forall k em em' st,
    keepNotarizing n k evs em = (em', st) ->
    forall s, s ∈ em' -> s ∈ em \/ signedFrom n (received evs) s.
Proof.
  induction evs as [|e evs IH]; intros k em em' st; simpl.
  - intros [= <- _] s Hs. by left.
  - destruct e as [bp| | |]; try (intros [= <- _] s Hs; by left).
    assert (Hfurther : forall s, signedFrom n (received evs) s ->
                                 signedFrom n (received (EvBP bp :: evs)) s).
    { intros s (b & Hb & Hn). exists b. split; [|done].
      unfold received. simpl. by apply list_elem_of_further. }
    destruct (randomBeacon_Rank _ _ _) as [r|].
    + destruct (r <=? k).
      * destruct (notarize n bp) as [x|msg] eqn:Hx.
        -- intros Hall s Hs. destruct (IH _ _ _ _ Hall s Hs) as [Hin|?]; [|auto].
           apply elem_of_app in Hin as [?|Hin]; [by left|right].
           apply list_elem_of_singleton in Hin as ->. exists bp.
           split; [apply list_elem_of_here|done].
        -- intros [= <- _] s Hs. by left.
      * intros Hall s Hs. destruct (IH _ _ _ _ Hall s Hs); auto.
    + intros Hall s Hs. destruct (IH _ _ _ _ Hall s Hs); auto.
Qed.

Lemma collectBP_kept (n : Notary) (st : collecting) (bp : BlockProposal) :
  forall b, b ∈ bestRankBPs (collectBP n st bp) -> b = bp \/ b ∈ bestRankBPs st.
Proof.
  intros b. unfold collectBP.
  destruct (randomBeacon_Rank _ _ _) as [r|]; [|auto].
  repeat case_match; simpl; rewrite ?elem_of_app, ?list_elem_of_singleton; tauto.
Qed.

Lemma collect_from (n : Notary) (evs : list event) :
  forall st em res,
    collect n st evs = (em, res) ->
    forall s, s ∈ em -> signedFrom n (bestRankBPs st ++ received evs) s.
Proof.
  assert (Hclosure : forall st rest em res,
            notarizeClosure n st rest = (em, res) ->
            forall s, s ∈ em -> signedFrom n (bestRankBPs st ++ received rest) s).
  { intros st rest em res. unfold notarizeClosure.
    destruct (signAll n (bestRankBPs st) []) as [em0 [msg|]] eqn:Hsign.
    - intros [= <- _] s Hs.
      destruct (signAll_from _ _ _ _ _ Hsign s Hs) as [Hin|(b & Hb & Hn)];
        [by apply elem_of_nil in Hin|].
      exists b. rewrite elem_of_app. auto.
    - intros Hkeep s Hs.
      destruct (keepNotarizing_from _ _ _ _ _ _ Hkeep s Hs) as [Hin|(b & Hb & Hn)].
      + destruct (signAll_from _ _ _ _ _ Hsign s Hin) as [Hin'|(b & Hb & Hn)];
          [by apply elem_of_nil in Hin'|].
        exists b. rewrite elem_of_app. auto.
      + exists b. rewrite elem_of_app. auto. }
  induction evs as [|e evs IH]; intros st em res; simpl.
  - intros [= <- _] s Hs. by apply elem_of_nil in Hs.
  - destruct e as [bp| | |].
    + intros Hall s Hs. destruct (IH _ _ _ Hall s Hs) as (b & Hb & Hn).
      exists b. split; [|done]. unfold received. simpl.
      fold (received evs). apply elem_of_app in Hb as [Hb|Hb].
      * apply collectBP_kept in Hb as [->|Hb]; rewrite elem_of_app, elem_of_cons; auto.
      * rewrite elem_of_app, elem_of_cons. auto.
    + apply Hclosure.
    + intros [= <- _] s Hs. by apply elem_of_nil in Hs.
    + destruct (recvBestRank st); [apply Hclosure|].
      intros [= <- _] s Hs. by apply elem_of_nil in Hs.
Qed.

Lemma notarize_fields (n : Notary) (bp : BlockProposal) (s : NtShare) :
  notarize n bp = Ret s ->
  nts_Round s = bp_Round bp /\ nts_BP s = BP_Hash bp /\ nts_Owner s = owner n.
Proof.
  unfold notarize. repeat case_match; try discriminate. by intros [= <-].
Qed.

(** X26: whatever [Notarize] emits is the share [notarize] makes for one
    of the proposals it has received: it carries the round and the hash
    of that proposal and the notary as its owner. *)
Theorem Notarize_emits_received (n : Notary) (evs : list event) (s : NtShare) :
  s ∈ (Notarize n evs).1 ->
  exists bp,
    bp ∈ received evs /\ notarize n bp = Ret s /\
    nts_Round s = bp_Round bp /\ nts_BP s = BP_Hash bp /\ nts_Owner s = owner n.
Proof.
  unfold Notarize. destruct (collect n collectInit evs) as [em res] eqn:Hrun.
  simpl. intros Hs.
  destruct (collect_from n evs _ _ _ Hrun s Hs) as (bp & Hbp & Hn).
  exists bp. split; [exact Hbp|]. split; [exact Hn|]. by apply notarize_fields.
Qed.

(** X27: the share a notary makes for a registered proposal that needs
    notarization and has no share of this notary yet is not refused by
    [addNtShare]; once it has been taken, the share the notary makes for
    that proposal is refused, whatever has been done to the chain in
    between. *)
Theorem notary_share_once (nt : Notary) (bp : BlockProposal) (s : NtShare)
    (c : Chain) (g : Z) :
  notarize nt bp = Ret s ->
  Chain_BlockProposal c (BP_Hash bp) = Some bp ->
  NeedNotarize c (BP_Hash bp) = true ->
  owner nt ∉ ownersOf c (BP_Hash bp) ->
  (forall e, (addNtShare c s g).2 <> Ret (None, Some e)) /\
  (forall ob, (addNtShare c s g).2 = Ret (ob, None) ->
     forall (os : list op) (g' : Z),
       exists e,
         addNtShare (run (addNtShare c s g).1 os) s g'
         = (run (addNtShare c s g).1 os, Ret (None, Some e))).
Proof.
  intros Hs Hreg Hneed Hown.
  destruct (notarize_fields nt bp s Hs) as (_ & HBP & Howner).
  unfold Chain_BlockProposal in Hreg.
  destruct (addNtShare c s g) as [c' r] eqn:Hop. simpl. split.
  - intros e ->. revert Hop. unfold addNtShare.
    rewrite HBP, Hreg, Hneed, existsb_owner_false by (by rewrite Howner). simpl.
    repeat case_match; discriminate.
  - intros ob -> os g'.
    apply addNtShare_effect in Hop
      as [(_ & e & ?)|(bp' & Hbp' & _ & _ & _ & _ & _ & HBP1 & _ & _ & _ & Hcases)];
      [discriminate|].
    assert (Hcl : NeedNotarize c' (nts_BP s) = false
                  \/ nts_Owner s ∈ ownersOf c' (nts_BP s)).
    { destruct Hcases as [(_ & _ & Hsh & _)|[(sig & _ & _ & _ & _ & Hn)|(msg & ? & _)]];
        [right|left|discriminate].
      - unfold ownersOf. rewrite (ntSharesOf_insert _ _ _ _ Hsh), fmap_app, elem_of_app.
        right. simpl. apply list_elem_of_singleton. reflexivity.
      - apply NeedNotarize_deleted. rewrite Hn. apply lookup_delete_eq. }
    assert (Hreg' : is_Some (hashToBP c' !! nts_BP s)) by (rewrite HBP1, Hbp'; eauto).
    destruct (run_closed os c' (nts_BP s) Hreg') as (Hreg'' & _ & Hcl').
    apply addNtShare_rejected; [done|]. by apply Hcl'.
Qed.

End NotaryMore.
